(** * clean-url: the URL cleaning engine of [src/utils/clean-url-logic.ts]

    A shallow embedding of [TRACKING_PARAM_PATTERNS], [isValidUrl],
    [cleanHashFragment], [cleanUrl], [cleanUrls] and [analyzeUrl], of the
    first version of the engine ([src/clean-url-logic.js]) and of what
    the popup and the background service worker do with their results,
    together with the part of the JavaScript platform they call: string
    methods, [decodeURIComponent], [URLSearchParams] and the [URL] class
    of the WHATWG URL Standard.

    Strings.  A JavaScript string is modelled by the list of the bytes of
    its UTF-8 encoding ([Str]); a string with an unpaired surrogate has
    no such encoding and is outside the model.  [length] counts UTF-16
    code units ([utf16_length]) and [trim] strips the white space of
    ECMAScript, beyond ASCII too.

    The platform.  What [new URL(input)] does is a parameter of the
    engine (the variable [new_URL] of section [Engine]): a statement
    that needs nothing of it holds of every run time.  Section
    [Standard] then gives the parser of the URL Standard in full, except
    for the two algorithms it takes from elsewhere: Unicode ToASCII
    (UTS 46) and the reading of an IPv6 address are parameters, and the
    few laws the proofs use of them are hypotheses.  The message of the
    error [new URL] throws, which every run time words in its own way,
    is a parameter too, and so are the two places where the versions of
    the URL Standard differ: whether [^] is in the path percent-encode
    set, and whether a space at the end of an opaque path is written
    [%20].  The origin of a [file:] URL, which the standard leaves to
    the implementation, is opaque, as in Node.js. *)

From Stdlib Require Import Ascii String DecimalString DecimalN.
From Stdlib Require Import List Bool Arith NArith ZArith Lia Permutation.
Import ListNotations.


Set Warnings "-register-all".

(* ====================================================================== *)
(** * Strings as the code sees them *)
(* ====================================================================== *)

Definition Str := list ascii.

(** A literal: [str "abc"] is the three-character string. *)
Definition str (s : string) : Str := list_ascii_of_string s.

Definition code (c : ascii) : N := N_of_ascii c.

Definition chr (n : N) : ascii := ascii_of_N n.

Definition Str_eqb (a b : Str) : bool :=
  if list_eq_dec ascii_dec a b then true else false.

Definition is_char (k : ascii) (c : ascii) : bool := Ascii.eqb k c.

Definition in_range (lo hi : N) (c : ascii) : bool :=
  (N.leb lo (code c) && N.leb (code c) hi)%bool.

Definition is_digit (c : ascii) : bool := in_range 48 57 c.
Definition is_upper (c : ascii) : bool := in_range 65 90 c.
Definition is_lower (c : ascii) : bool := in_range 97 122 c.
Definition is_alpha (c : ascii) : bool := is_upper c || is_lower c.
Definition is_alnum (c : ascii) : bool := is_alpha c || is_digit c.
Definition is_ascii_byte (c : ascii) : bool := N.leb (code c) 127.

(** ASCII lower-casing, as the URL Standard uses it. *)
Definition lower_char (c : ascii) : ascii :=
  if is_upper c then chr (code c + 32)%N else c.

Definition ascii_lowercase (s : Str) : Str := map lower_char s.

Definition is_byte (n : N) (c : ascii) : bool := N.eqb (code c) n.

(** [String.prototype.toLowerCase].  ASCII letters are lower-cased.  Two
    code points beyond ASCII have a lower case with an ASCII letter in
    it, and both are mapped: U+212A KELVIN SIGN (the bytes E2 84 AA) to
    [k], and U+0130 (C4 B0) to [i] followed by U+0307 (CC 87).  Every
    other code point beyond ASCII is left as it is: its lower case is
    beyond ASCII too, and the source compares a lower-cased key with
    ASCII literals only ([===], [startsWith], [includes]), which cannot
    tell the two apart. *)
Fixpoint toLowerCase (s : Str) : Str :=
  match s with
  | [] => []
  | a :: r =>
      match r with
      | b :: r' =>
          if is_byte 196 a && is_byte 176 b
          then "i"%char :: chr 204 :: chr 135 :: toLowerCase r'
          else
            match r' with
            | c :: r'' =>
                if is_byte 226 a && is_byte 132 b && is_byte 170 c
                then "k"%char :: toLowerCase r''
                else lower_char a :: toLowerCase r
            | [] => lower_char a :: toLowerCase r
            end
      | [] => [lower_char a]
      end
  end.

(** [String.prototype.startsWith]. *)
Fixpoint startsWith (s p : Str) : bool :=
  match p, s with
  | [], _ => true
  | _ :: _, [] => false
  | a :: p', b :: s' => Ascii.eqb a b && startsWith s' p'
  end.

(** [String.prototype.includes]. *)
Fixpoint includes (s p : Str) : bool :=
  startsWith s p ||
  match s with
  | [] => false
  | _ :: s' => includes s' p
  end.

(** [Array.prototype.includes] on an array of strings. *)
Definition array_includes (l : list Str) (x : Str) : bool :=
  existsb (Str_eqb x) l.

Fixpoint drop_while (p : ascii -> bool) (s : Str) : Str :=
  match s with
  | [] => []
  | c :: r => if p c then drop_while p r else s
  end.

(** The longest prefix whose characters satisfy [p], and what follows. *)
Fixpoint span (p : ascii -> bool) (s : Str) : Str * Str :=
  match s with
  | [] => ([], [])
  | c :: r => if p c then let (a, b) := span p r in (c :: a, b) else ([], s)
  end.

(** What precedes the first character satisfying [p] and what follows it
    ([None] when there is no such character). *)
Fixpoint break_at (p : ascii -> bool) (s : Str) : Str * option Str :=
  match s with
  | [] => ([], None)
  | c :: r =>
      if p c then ([], Some r)
      else let (a, b) := break_at p r in (c :: a, b)
  end.

(** Strict splitting on the characters satisfying [p]. *)
Fixpoint split_on (p : ascii -> bool) (s : Str) : list Str :=
  match s with
  | [] => [[]]
  | c :: r =>
      if p c then [] :: split_on p r
      else match split_on p r with
           | h :: t => (c :: h) :: t
           | [] => [[c]]
           end
  end.

Definition trim_with (p : ascii -> bool) (s : Str) : Str :=
  rev (drop_while p (rev (drop_while p s))).

(** The three-byte white space code points of ECMAScript: U+1680,
    U+2000 to U+200A, U+2028, U+2029, U+202F, U+205F, U+3000 and
    U+FEFF. *)
Definition is_space3 (a b c : ascii) : bool :=
  (is_byte 225 a && is_byte 154 b && is_byte 128 c)
  || (is_byte 226 a && is_byte 128 b
      && (in_range 128 138 c || is_byte 168 c || is_byte 169 c
          || is_byte 175 c))
  || (is_byte 226 a && is_byte 129 b && is_byte 159 c)
  || (is_byte 227 a && is_byte 128 b && is_byte 128 c)
  || (is_byte 239 a && is_byte 187 b && is_byte 191 c).

(** ECMAScript WhiteSpace and LineTerminator: the number of bytes of the
    white space code point [s] starts with, 0 when it starts with none.
    The code points are U+0009 to U+000D, U+0020, U+00A0 (C2 A0) and
    the three-byte ones. *)
Definition space_length (s : Str) : nat :=
  match s with
  | a :: r =>
      if in_range 9 13 a || is_byte 32 a then 1
      else
        match r with
        | b :: r' =>
            if is_byte 194 a && is_byte 160 b then 2
            else
              match r' with
              | c :: _ => if is_space3 a b c then 3 else 0
              | [] => 0
              end
        | [] => 0
        end
  | [] => 0
  end.

(** The same for the code point a string ends with, read on the
    reversed string. *)
Definition space_length_rev (s : Str) : nat :=
  match s with
  | c :: r =>
      if in_range 9 13 c || is_byte 32 c then 1
      else
        match r with
        | b :: r' =>
            if is_byte 194 b && is_byte 160 c then 2
            else
              match r' with
              | a :: _ => if is_space3 a b c then 3 else 0
              | [] => 0
              end
        | [] => 0
        end
  | [] => 0
  end.

(** Drops the white space code points [s] starts with; [skip] bytes of
    the current one are still to be dropped. *)
Fixpoint drop_spaces (measure : Str -> nat) (skip : nat) (s : Str) : Str :=
  match s with
  | [] => []
  | _ :: r =>
      match skip with
      | S k => drop_spaces measure k r
      | O =>
          match measure s with
          | O => s
          | S k => drop_spaces measure k r
          end
      end
  end.

(** [String.prototype.trim]. *)
Definition trim (s : Str) : Str :=
  rev (drop_spaces space_length_rev 0
         (rev (drop_spaces space_length 0 s))).

(** [s.length]: the number of UTF-16 code units of the string that [s]
    encodes.  Every code point counts once, and once more when it is
    beyond U+FFFF (a lead byte from F0 on). *)
Definition utf16_length (s : Str) : nat :=
  length (filter (fun c => negb (in_range 128 191 c)) s)
  + length (filter (fun c => N.leb 240 (code c)) s).

(** The regular expression [/^\d+:/]. *)
Definition re_digits_colon (s : Str) : bool :=
  match span is_digit s with
  | (_ :: _, c :: _) => is_char ":" c
  | _ => false
  end.

Definition is_word_dash (c : ascii) : bool :=
  is_alnum c || is_char "_" c || is_char "-" c.

(** The regular expression [/^[a-zA-Z0-9_-]+\?/]. *)
Definition re_anchor_query (s : Str) : bool :=
  match span is_word_dash s with
  | (_ :: _, c :: _) => is_char "?" c
  | _ => false
  end.

(* ====================================================================== *)
(** * Values and completions *)
(* ====================================================================== *)

(** The run-time values a caller can pass where the signature says
    [string] or [string[]].  An array is the list of its indices from 0
    to [length - 1]: [Some v] for an element, [None] for a hole (an index
    that is not an own property, as in [new Array(2)] or [[1, , 3]]). *)
Inductive JsValue : Type :=
| JsUndefined
| JsNull
| JsBoolean (b : bool)
| JsNumber (z : Z)
| JsNaN
| JsString (s : Str)
| JsArray (items : list (option JsValue))
| JsObject.

(** ToBoolean. *)
Definition truthy (v : JsValue) : bool :=
  match v with
  | JsUndefined | JsNull | JsNaN => false
  | JsBoolean b => b
  | JsNumber z => negb (Z.eqb z 0)
  | JsString s => match s with [] => false | _ => true end
  | JsArray _ | JsObject => true
  end.

Inductive JsError : Type :=
| TypeError (message : Str)
| URIError (message : Str)
| Error (message : Str).

Definition error_message (e : JsError) : Str :=
  match e with
  | TypeError m | URIError m | Error m => m
  end.

(** The outcome of evaluating a call: a value, or a thrown error. *)
Inductive Completion (A : Type) : Type :=
| Normal (a : A)
| Throw (e : JsError).

Arguments Normal {A} a.
Arguments Throw {A} e.

Definition bind {A B} (c : Completion A) (k : A -> Completion B)
  : Completion B :=
  match c with
  | Normal a => k a
  | Throw e => Throw e
  end.

(** [try { c } catch (e) { h e }]. *)
Definition try_catch {A} (c : Completion A) (h : JsError -> Completion A)
  : Completion A :=
  match c with
  | Normal a => Normal a
  | Throw e => h e
  end.

Declare Scope js_scope.
Notation "x <- c ;; k" := (bind c (fun x => k))
  (at level 61, c at next level, right associativity) : js_scope.
Local Open Scope js_scope.

(* ====================================================================== *)
(** * Percent-encoding (URL Standard, section 1.3) *)
(* ====================================================================== *)

Definition hex_digit (n : N) : ascii :=
  if N.ltb n 10 then chr (48 + n)%N else chr (55 + n)%N.

Definition hex_value (c : ascii) : option N :=
  if is_digit c then Some (code c - 48)%N
  else if in_range 65 70 c then Some (code c - 55)%N
  else if in_range 97 102 c then Some (code c - 87)%N
  else None.

Definition percent_byte (c : ascii) : Str :=
  ["%"%char; hex_digit (N.div (code c) 16); hex_digit (N.modulo (code c) 16)].

Definition percent_encode (inset : ascii -> bool) (s : Str) : Str :=
  flat_map (fun c => if inset c then percent_byte c else [c]) s.

(** Percent-decode: a [%] not followed by two hexadecimal digits stays. *)
Fixpoint percent_decode (s : Str) : Str :=
  match s with
  | [] => []
  | c :: t =>
      if is_char "%" c then
        match t with
        | h :: l :: r =>
            match hex_value h, hex_value l with
            | Some a, Some b => chr (16 * a + b)%N :: percent_decode r
            | _, _ => c :: percent_decode t
            end
        | _ => c :: percent_decode t
        end
      else c :: percent_decode t
  end.

Definition c0_control_set (c : ascii) : bool :=
  N.leb (code c) 31 || N.ltb 126 (code c).

Definition one_of (l : Str) (c : ascii) : bool := existsb (Ascii.eqb c) l.

(** The double quote, U+0022. *)
Definition dquote : ascii := chr 34.

Definition fragment_set (c : ascii) : bool :=
  c0_control_set c || one_of (dquote :: [" "; "<"; ">"; "`"]%char) c.

Definition query_set (c : ascii) : bool :=
  c0_control_set c || one_of (dquote :: [" "; "#"; "<"; ">"]%char) c.

Definition special_query_set (c : ascii) : bool :=
  query_set c || is_char "'" c.

(** The path percent-encode set without [^], which the standard added
    to it in 2023 ([path_set] below adds it when the run time has it). *)
Definition path_set_base (c : ascii) : bool :=
  query_set c || one_of ["?"; "`"; "{"; "}"]%char c.

(** The userinfo percent-encode set has had [^] in every version. *)
Definition userinfo_set (c : ascii) : bool :=
  path_set_base c
  || one_of ["/"; ":"; ";"; "="; "@"; "["; "\"; "]"; "^"; "|"]%char c.

(** The application/x-www-form-urlencoded percent-encode set: everything
    but ASCII alphanumerics and [*-._]. *)
Definition form_set (c : ascii) : bool :=
  negb (is_alnum c || one_of ["*"; "-"; "."; "_"]%char c).

(* ====================================================================== *)
(** * UTF-8 decoding (Encoding Standard), on bytes *)
(* ====================================================================== *)

(** Since a string is kept as its UTF-8 bytes, decoding leaves every
    well-formed sequence as it is and writes U+FFFD for each error. *)
Definition replacement : Str := [chr 239; chr 191; chr 189].

Inductive Utf8State : Type :=
| Idle
| Expect (seen : Str) (needed : nat) (lo hi : N).

(** A lead byte: how many continuation bytes follow and the range of the
    first of them. *)
Definition utf8_lead (c : ascii) : option (nat * N * N) :=
  if in_range 194 223 c then Some (1, 128%N, 191%N)
  else if in_range 224 239 c then
    Some (2, if N.eqb (code c) 224 then 160%N else 128%N,
             if N.eqb (code c) 237 then 159%N else 191%N)
  else if in_range 240 244 c then
    Some (3, if N.eqb (code c) 240 then 144%N else 128%N,
             if N.eqb (code c) 244 then 143%N else 191%N)
  else None.

Definition utf8_start (c : ascii) : Str * Utf8State :=
  if is_ascii_byte c then ([c], Idle)
  else match utf8_lead c with
       | Some (n, lo, hi) => ([], Expect [c] n lo hi)
       | None => (replacement, Idle)
       end.

Definition utf8_step (st : Utf8State) (c : ascii) : Str * Utf8State :=
  match st with
  | Idle => utf8_start c
  | Expect seen n lo hi =>
      if in_range lo hi c then
        match n with
        | S (S n') => ([], Expect (seen ++ [c]) (S n') 128 191)
        | _ => (seen ++ [c], Idle)
        end
      else let (out, st') := utf8_start c in (replacement ++ out, st')
  end.

Fixpoint utf8_run (st : Utf8State) (s : Str) : Str :=
  match s with
  | [] => match st with Idle => [] | Expect _ _ _ _ => replacement end
  | c :: r => let (out, st') := utf8_step st c in out ++ utf8_run st' r
  end.

(** UTF-8 decode without BOM. *)
Definition utf8_decode (s : Str) : Str := utf8_run Idle s.

(* ====================================================================== *)
(** * [decodeURIComponent] (ECMAScript, Decode with no reserved set) *)
(* ====================================================================== *)

Definition read_pct (s : Str) : option (ascii * Str) :=
  match s with
  | c :: h :: l :: r =>
      if is_char "%" c then
        match hex_value h, hex_value l with
        | Some a, Some b => Some (chr (16 * a + b)%N, r)
        | _, _ => None
        end
      else None
  | _ => None
  end.

Fixpoint read_pcts (n : nat) (s : Str) : option (Str * Str) :=
  match n with
  | O => Some ([], s)
  | S n' =>
      match read_pct s with
      | Some (b, r) =>
          match read_pcts n' r with
          | Some (bs, r') => Some (b :: bs, r')
          | None => None
          end
      | None => None
      end
  end.

(** The number of leading 1 bits of an octet (5 stands for 5 or more). *)
Definition leading_ones (c : ascii) : nat :=
  if N.ltb (code c) 128 then 0
  else if N.ltb (code c) 192 then 1
  else if N.ltb (code c) 224 then 2
  else if N.ltb (code c) 240 then 3
  else if N.ltb (code c) 248 then 4
  else 5.

(** The octets are the UTF-8 encoding of one code point. *)
Definition valid_utf8_octets (octets : Str) : bool :=
  match octets with
  | b0 :: b1 :: rest =>
      match utf8_lead b0 with
      | Some (m, lo, hi) =>
          Nat.eqb (S (length rest)) m && in_range lo hi b1
          && forallb (in_range 128 191) rest
      | None => false
      end
  | _ => false
  end.

Definition uri_malformed : JsError := URIError (str "URI malformed").

Fixpoint decode_uri (fuel : nat) (s : Str) : Completion Str :=
  match fuel with
  | O => Normal []
  | S fuel' =>
      match s with
      | [] => Normal []
      | c :: t =>
          if is_char "%" c then
            match read_pct s with
            | None => Throw uri_malformed
            | Some (b, r) =>
                match leading_ones b with
                | 0 => rest <- decode_uri fuel' r ;; Normal (b :: rest)
                | 1 => Throw uri_malformed
                | S (S (S (S (S _)))) => Throw uri_malformed
                | S n =>
                    match read_pcts n r with
                    | None => Throw uri_malformed
                    | Some (bs, r') =>
                        if valid_utf8_octets (b :: bs) then
                          rest <- decode_uri fuel' r' ;;
                          Normal (b :: bs ++ rest)
                        else Throw uri_malformed
                    end
                end
            end
          else rest <- decode_uri fuel' t ;; Normal (c :: rest)
      end
  end.

(** Every step consumes a character, so the length of the input is fuel
    enough: more fuel changes nothing ([decode_uri_fuel] below). *)
Definition decodeURIComponent (s : Str) : Completion Str :=
  decode_uri (length s) s.

(* ====================================================================== *)
(** * [URLSearchParams] (URL Standard, sections 5 and 6.2) *)
(* ====================================================================== *)

Definition Params := list (Str * Str).

Definition plus_to_space (c : ascii) : ascii :=
  if is_char "+" c then " "%char else c.

Definition form_decode (s : Str) : Str :=
  utf8_decode (percent_decode (map plus_to_space s)).

Definition form_parse_pair (bytes : Str) : Str * Str :=
  match break_at (is_char "=") bytes with
  | (name, Some value) => (form_decode name, form_decode value)
  | (name, None) => (form_decode name, [])
  end.

Definition nonempty (s : Str) : bool :=
  match s with [] => false | _ => true end.

(** The application/x-www-form-urlencoded parser. *)
Definition form_parse (input : Str) : Params :=
  map form_parse_pair (filter nonempty (split_on (is_char "&") input)).

(** [new URLSearchParams(init)] for a string [init]. *)
Definition URLSearchParams_new (init : Str) : Params :=
  match init with
  | c :: r => if is_char "?" c then form_parse r else form_parse init
  | [] => form_parse init
  end.

(** Percent-encoding with the form set, space as plus. *)
Definition form_encode (s : Str) : Str :=
  flat_map (fun c => if is_char " " c then ["+"%char]
                     else if form_set c then percent_byte c else [c]) s.

(** The application/x-www-form-urlencoded serializer: [toString()]. *)
Definition form_serialize (l : Params) : Str :=
  fold_left
    (fun output (p : Str * Str) =>
       (if nonempty output then output ++ ["&"%char] else output)
       ++ form_encode (fst p) ++ ["="%char] ++ form_encode (snd p))
    l [].

(** [params.append(key, value)]. *)
Definition params_append (l : Params) (key value : Str) : Params :=
  l ++ [(key, value)].

(* ====================================================================== *)
(** * The tracking pattern table *)
(* ====================================================================== *)

Definition TRACKING_PARAM_PATTERNS : list Str := map str
  [ "utm_source"; "utm_medium"; "utm_campaign"; "utm_term"; "utm_content";
    "utm_nooverride";
    "fbclid"; "igshid"; "ttclid"; "tiktok_r"; "li_fat_id"; "mkt_tok"; "trk";
    "gclid"; "yclid"; "dclid"; "msclkid"; "gad_source"; "gad_campaignid";
    "gbraid"; "utm_ad"; "matchtype"; "campaign_id"; "ad_id";
    "ref"; "referral"; "referrer"; "affiliate_id"; "afid"; "click_id";
    "clickid"; "subid"; "sub_id"; "partner_id"; "sr_share";
    "tag"; "linkCode"; "linkId"; "ascsubtag"; "camp"; "creative";
    "pd_rd_i"; "pd_rd_r"; "pd_rd_w"; "pd_rd_wg";
    "ck_subscriber_id"; "mc_cid"; "mc_eid"; "_hsenc"; "_hsmi";
    "sthash"; "source"; "campaign"; "adgroup"; "adposition"; "_bhlid" ]%string.

(** [TRACKING_PARAM_PATTERNS.some(pattern =>
      paramLower === pattern.toLowerCase())] with
    [paramLower = key.toLowerCase()]. *)
Definition isTrackingParam (key : Str) : bool :=
  let paramLower := toLowerCase key in
  existsb (fun pattern => Str_eqb paramLower (toLowerCase pattern))
          TRACKING_PARAM_PATTERNS.

(* ====================================================================== *)
(** * [cleanHashFragment] *)
(* ====================================================================== *)

(** The state of the loop over [hashParams.entries()]. *)
Record HashLoop : Type := mkHashLoop {
  cleanedHashParams : Params;
  hasAnyTrackingParam : bool
}.

Definition hash_loop_body (st : HashLoop) (entry : Str * Str) : HashLoop :=
  let (key, value) := entry in
  if isTrackingParam key
  then mkHashLoop (cleanedHashParams st) true
  else mkHashLoop (params_append (cleanedHashParams st) key value)
                  (hasAnyTrackingParam st).

Definition looksLikeMalformedTracking (hashContent decodedHash : Str) : bool :=
  includes hashContent (str "Vite%20RSC")
  || includes hashContent (str "Next.js")
  || includes hashContent (str "TypeScript")
  || re_digits_colon hashContent
  || re_digits_colon decodedHash.

Definition cleanHashFragment (hashContent : Str) : Completion (option Str) :=
  if negb (nonempty hashContent) then Normal None
  else
    match decodeURIComponent hashContent with
    | Throw _ => Normal (Some hashContent)
    | Normal decodedHash =>
        if startsWith decodedHash (str "/") then Normal (Some hashContent)
        else if looksLikeMalformedTracking hashContent decodedHash
        then Normal None
        else
          let hasQueryParamStructure := includes decodedHash (str "=") in
          let startsWithPathLikeContent := re_anchor_query decodedHash in
          if startsWithPathLikeContent then Normal (Some hashContent)
          else if negb hasQueryParamStructure then Normal (Some hashContent)
          else
            try_catch
              (let hashParams := URLSearchParams_new decodedHash in
               let st := fold_left hash_loop_body hashParams
                                   (mkHashLoop [] false) in
               if negb (hasAnyTrackingParam st) then Normal (Some hashContent)
               else
                 let cleanedString := form_serialize (cleanedHashParams st) in
                 Normal (if nonempty cleanedString
                         then Some cleanedString else None))
              (fun _ => Normal (Some hashContent))
    end.

(* ====================================================================== *)
(* ====================================================================== *)
(** * The [URL] class (URL Standard, sections 3 and 4) *)
(* ====================================================================== *)

(** A host.  An IPv6 address is kept as the text the standard's
    serializer writes for it, without the brackets: one text for one
    address. *)
Inductive Host : Type :=
| Domain (d : Str)
| IPv4 (n : N)
| IPv6 (address : Str)
| OpaqueHost (s : Str)
| EmptyHost.

Inductive Path : Type :=
| OpaquePath (s : Str)
| ListPath (l : list Str).

Record URLRecord : Type := mkURL {
  scheme : Str;
  username : Str;
  password : Str;
  host : option Host;
  port : option N;
  path : Path;
  query : option Str;
  fragment : option Str
}.

Definition special_schemes : list Str :=
  map str ["ftp"; "file"; "http"; "https"; "ws"; "wss"]%string.

Definition is_special (sch : Str) : bool := array_includes special_schemes sch.

Definition default_port (sch : Str) : option N :=
  if Str_eqb sch (str "ftp") then Some 21%N
  else if Str_eqb sch (str "http") then Some 80%N
  else if Str_eqb sch (str "https") then Some 443%N
  else if Str_eqb sch (str "ws") then Some 80%N
  else if Str_eqb sch (str "wss") then Some 443%N
  else None.

(** ** Numbers in hosts and ports *)

Definition dec (n : N) : Str :=
  str (DecimalString.NilZero.string_of_uint (N.to_uint n)).

Definition digit_value (radix : N) (c : ascii) : option N :=
  match hex_value c with
  | Some v => if N.ltb v radix then Some v else None
  | None => None
  end.

Fixpoint parse_radix (radix acc : N) (s : Str) : option N :=
  match s with
  | [] => Some acc
  | c :: r =>
      match digit_value radix c with
      | Some v => parse_radix radix (acc * radix + v)%N r
      | None => None
      end
  end.

(** The IPv4 number parser. *)
Definition ipv4_number (input : Str) : option N :=
  match input with
  | [] => None
  | [_] => parse_radix 10 0 input
  | c :: x :: r =>
      if is_char "0" c then
        if is_char "x" x || is_char "X" x then parse_radix 16 0 r
        else parse_radix 8 0 (x :: r)
      else parse_radix 10 0 input
  end.

Definition is_dot (c : ascii) : bool := is_char "." c.

(** Strict split on dots; an empty last item is removed when it is not the
    only one. *)
Definition ipv4_parts (input : Str) : list Str :=
  let parts := split_on is_dot input in
  match last parts [] with
  | [] => match parts with
          | _ :: _ :: _ => removelast parts
          | _ => parts
          end
  | _ => parts
  end.

Definition ends_in_number (input : Str) : bool :=
  let parts := split_on is_dot input in
  let parts' :=
    match last parts [] with
    | [] => match parts with
            | _ :: _ :: _ => Some (removelast parts)
            | _ => None
            end
    | _ => Some parts
    end in
  match parts' with
  | None => false
  | Some ps =>
      let l := last ps [] in
      (nonempty l && forallb is_digit l)
      || match ipv4_number l with Some _ => true | None => false end
  end.

Fixpoint sequence {A} (l : list (option A)) : option (list A) :=
  match l with
  | [] => Some []
  | Some a :: r => option_map (cons a) (sequence r)
  | None :: _ => None
  end.

(** The IPv4 parser. *)
Definition ipv4_parse (input : Str) : option N :=
  let parts := ipv4_parts input in
  if Nat.ltb 4 (length parts) then None
  else
    match sequence (map ipv4_number parts) with
    | None => None
    | Some numbers =>
        let front := removelast numbers in
        let final := last numbers 0%N in
        if existsb (N.ltb 255) front then None
        else if N.leb (256 ^ (5 - N.of_nat (length numbers)))%N final then None
        else Some (fold_left (fun acc n => acc * 256 + n)%N front 0
                   * 256 ^ (4 - N.of_nat (length front)) + final)%N
    end.

Definition ipv4_serialize (n : N) : Str :=
  dec (n / 16777216) ++ ["."%char] ++ dec ((n / 65536) mod 256) ++ ["."%char]
  ++ dec ((n / 256) mod 256) ++ ["."%char] ++ dec (n mod 256).

(** ** Hosts *)

Definition forbidden_host (c : ascii) : bool :=
  N.eqb (code c) 0 || N.eqb (code c) 9 || N.eqb (code c) 10
  || N.eqb (code c) 13
  || one_of [" "; "#"; "/"; ":"; "<"; ">"; "?"; "@"; "["; "\"; "]"; "^"; "|"]%char c.

Definition forbidden_domain (c : ascii) : bool :=
  forbidden_host c || N.leb (code c) 31 || is_char "%" c || N.eqb (code c) 127.

Definition opaque_host_parse (input : Str) : option Host :=
  if existsb forbidden_host input then None
  else match percent_encode c0_control_set input with
       | [] => Some EmptyHost
       | h => Some (OpaqueHost h)
       end.

Definition host_serialize (h : Host) : Str :=
  match h with
  | Domain d => d
  | IPv4 n => ipv4_serialize n
  | IPv6 a => "["%char :: a ++ ["]"%char]
  | OpaqueHost s => s
  | EmptyHost => []
  end.

(** ** Paths *)

Definition path_sep (special : bool) (c : ascii) : bool :=
  is_char "/" c || (special && is_char "\" c).

Definition is_single_dot (buffer : Str) : bool :=
  array_includes (map str ["."; "%2e"]%string) (ascii_lowercase buffer).

Definition is_double_dot (buffer : Str) : bool :=
  array_includes (map str [".."; ".%2e"; "%2e."; "%2e%2e"]%string)
                 (ascii_lowercase buffer).

Definition is_drive_letter (s : Str) : bool :=
  match s with
  | [a; b] => is_alpha a && (is_char ":" b || is_char "|" b)
  | _ => false
  end.

Definition is_normalized_drive_letter (s : Str) : bool :=
  match s with
  | [a; b] => is_alpha a && is_char ":" b
  | _ => false
  end.

(** Shorten a path. *)
Definition shorten (isfile : bool) (p : list Str) : list Str :=
  match p with
  | [seg] => if isfile && is_normalized_drive_letter seg then p else []
  | _ => removelast p
  end.

Definition normalize_drive (isfile : bool) (p : list Str) (buffer : Str) : Str :=
  match p, buffer with
  | [], [a; b] => if isfile && is_drive_letter buffer then [a; ":"%char]
                  else buffer
  | _, _ => buffer
  end.

(** ** The parts of the parser that are the same in every version *)

Definition is_scheme_char (c : ascii) : bool :=
  is_alnum c || one_of ["+"; "-"; "."]%char c.

(** The scheme start and scheme states: the lower-cased scheme and what
    follows the colon.  Without a base URL a missing scheme is a failure. *)
Definition parse_scheme (s : Str) : option (Str * Str) :=
  match s with
  | c :: r =>
      if is_alpha c then
        match span is_scheme_char r with
        | (body, k :: rest) =>
            if is_char ":" k then Some (ascii_lowercase (c :: body), rest)
            else None
        | (_, []) => None
        end
      else None
  | [] => None
  end.

(** What precedes the last character satisfying [p], and what follows. *)
Definition break_last (p : ascii -> bool) (s : Str) : option Str * Str :=
  match break_at p (rev s) with
  | (a, Some b) => (Some (rev b), rev a)
  | (_, None) => (None, s)
  end.

(** The credentials seen by the authority state: the text before the last
    [@], split at its first colon. *)
Definition parse_credentials (cred : Str) : Str * Str :=
  match break_at (is_char ":") cred with
  | (u, Some p) => (percent_encode userinfo_set u, percent_encode userinfo_set p)
  | (u, None) => (percent_encode userinfo_set u, [])
  end.

(** The host state scans to the first colon outside brackets. *)
Fixpoint split_host_port (insideBrackets : bool) (s : Str)
  : Str * option Str :=
  match s with
  | [] => ([], None)
  | c :: r =>
      if is_char ":" c && negb insideBrackets then ([], Some r)
      else
        let inb := if is_char "[" c then true
                   else if is_char "]" c then false else insideBrackets in
        let (h, p) := split_host_port inb r in (c :: h, p)
  end.

Definition dec_value (s : Str) : N :=
  fold_left (fun acc c => acc * 10 + (code c - 48))%N s 0%N.

Definition N_opt_eqb (a : option N) (b : N) : bool :=
  match a with Some x => N.eqb x b | None => false end.

(** The port state. *)
Definition parse_port (sch : Str) (buffer : Str) : option (option N) :=
  if forallb is_digit buffer then
    match buffer with
    | [] => Some None
    | _ =>
        let p := dec_value buffer in
        if N.ltb 65535 p then None
        else Some (if N_opt_eqb (default_port sch) p then None else Some p)
    end
  else None.

(** Scheme-independent components found before the query. *)
Record Prefix : Type := mkPrefix {
  p_username : Str;
  p_password : Str;
  p_host : option Host;
  p_port : option N;
  p_path : Path
}.

Definition is_slash (c : ascii) : bool := is_char "/" c || is_char "\" c.

Definition is_c0_or_space (c : ascii) : bool := N.leb (code c) 32.

Definition is_tab_or_newline (c : ascii) : bool :=
  N.eqb (code c) 9 || N.eqb (code c) 10 || N.eqb (code c) 13.

Definition remove_tab_newline (s : Str) : Str :=
  filter (fun c => negb (is_tab_or_newline c)) s.

Definition query_encode (sch : Str) (q : Str) : Str :=
  percent_encode (if is_special sch then special_query_set else query_set) q.

(** ** Serializing *)

Definition path_serialize (p : Path) : Str :=
  match p with
  | OpaquePath s => s
  | ListPath l => flat_map (fun seg => "/"%char :: seg) l
  end.

Definition includes_credentials (u : URLRecord) : bool :=
  nonempty (username u) || nonempty (password u).

(** The URL serializer. *)
Definition url_serialize (u : URLRecord) : Str :=
  scheme u ++ [":"%char]
  ++ match host u with
     | Some h =>
         str "//"
         ++ (if includes_credentials u
             then username u
                  ++ (if nonempty (password u)
                      then ":"%char :: password u else [])
                  ++ ["@"%char]
             else [])
         ++ host_serialize h
         ++ match port u with
            | Some p => ":"%char :: dec p
            | None => []
            end
     | None =>
         match path u with
         | ListPath ([] :: _ :: _) => str "/."
         | _ => []
         end
     end
  ++ path_serialize (path u)
  ++ match query u with Some q => "?"%char :: q | None => [] end
  ++ match fragment u with Some f => "#"%char :: f | None => [] end.

(** ** Getters and setters *)

(** [url.toString()] and [url.href]. *)
Definition url_toString (u : URLRecord) : Str := url_serialize u.

(** [url.pathname]. *)
Definition url_pathname (u : URLRecord) : Str := path_serialize (path u).

(** [url.search]. *)
Definition url_search (u : URLRecord) : Str :=
  match query u with
  | None | Some [] => []
  | Some q => "?"%char :: q
  end.

(** [url.hash]. *)
Definition url_hash (u : URLRecord) : Str :=
  match fragment u with
  | None | Some [] => []
  | Some f => "#"%char :: f
  end.

Definition tuple_origin (u : URLRecord) : Str :=
  scheme u ++ str "://"
  ++ match host u with Some h => host_serialize h | None => [] end
  ++ match port u with Some p => ":"%char :: dec p | None => [] end.

Definition has_tuple_origin (sch : Str) : bool :=
  array_includes (map str ["ftp"; "http"; "https"; "ws"; "wss"]%string) sch.

Definition strip_leading (k : ascii) (s : Str) : Str :=
  match s with
  | c :: r => if is_char k c then r else s
  | [] => s
  end.

(** Potentially strip trailing spaces from an opaque path: what a
    setter does after it has removed the query or the fragment, in the
    versions of the standard that keep a space at the end of an opaque
    path.  In the others no opaque path ends with a space. *)
Definition strip_trailing_spaces (u : URLRecord) : URLRecord :=
  match path u, query u, fragment u with
  | OpaquePath s, None, None =>
      mkURL (scheme u) (username u) (password u) (host u) (port u)
            (OpaquePath (rev (drop_while (is_char " ") (rev s)))) None None
  | _, _, _ => u
  end.

(** [url.search = value]. *)
Definition url_set_search (u : URLRecord) (value : Str) : URLRecord :=
  match value with
  | [] =>
      strip_trailing_spaces
        (mkURL (scheme u) (username u) (password u) (host u) (port u)
               (path u) None (fragment u))
  | _ =>
      let input := remove_tab_newline (strip_leading "?" value) in
      mkURL (scheme u) (username u) (password u) (host u) (port u) (path u)
            (Some (query_encode (scheme u) input)) (fragment u)
  end.

(** [url.hash = value]. *)
Definition url_set_hash (u : URLRecord) (value : Str) : URLRecord :=
  match value with
  | [] =>
      strip_trailing_spaces
        (mkURL (scheme u) (username u) (password u) (host u) (port u)
               (path u) (query u) None)
  | _ =>
      let input := remove_tab_newline (strip_leading "#" value) in
      mkURL (scheme u) (username u) (password u) (host u) (port u) (path u)
            (query u) (Some (percent_encode fragment_set input))
  end.

(* ====================================================================== *)
(** * The records of the engine *)
(* ====================================================================== *)

Record RemovedParam : Type := mkRemoved {
  key : Str;
  value : Str
}.

Record CleanUrlResult : Type := mkResult {
  success : bool;
  error : option Str;
  originalUrl : JsValue;
  cleanedUrl : option Str;
  removedParams : list RemovedParam;
  removedCount : nat;
  hasChanges : option bool;
  savedBytes : option Z
}.

(** The three failure results of [cleanUrl]. *)
Definition failure (message : Str) (original : JsValue) : CleanUrlResult :=
  mkResult false (Some message) original None [] 0 None None.

Definition msg_not_string : Str :=
  str "Invalid URL: URL must be a non-empty string".

Definition msg_not_url : Str :=
  str "Invalid URL: Not a properly formatted URL".

Definition msg_processing (e : JsError) : Str :=
  str "URL processing error: " ++ error_message e.

(** The state of the loop over [originalParams.entries()]. *)
Record CleanLoop : Type := mkCleanLoop {
  cleanedParams : Params;
  removedSoFar : list RemovedParam
}.

Definition clean_loop_body (st : CleanLoop) (entry : Str * Str) : CleanLoop :=
  let (key, value) := entry in
  if isTrackingParam key
  then mkCleanLoop (cleanedParams st) (removedSoFar st ++ [mkRemoved key value])
  else mkCleanLoop (params_append (cleanedParams st) key value)
                   (removedSoFar st).

(** [s.slice(1)]. *)
Definition slice1 (s : Str) : Str := tl s.

(** [array.map(f)] when [f] may throw: [f] is called on the elements in
    the order of the indices, and a hole is skipped and stays a hole of
    the result. *)
Fixpoint array_map {A B} (f : A -> Completion B) (l : list (option A))
  : Completion (list (option B)) :=
  match l with
  | [] => Normal []
  | None :: r => bs <- array_map f r ;; Normal (None :: bs)
  | Some a :: r => b <- f a ;; bs <- array_map f r ;; Normal (Some b :: bs)
  end.

Definition msg_not_array : Str := str "Input must be an array of URLs".

Record Categories : Type := mkCategories {
  utm : list RemovedParam;
  social : list RemovedParam;
  ads : list RemovedParam;
  affiliate : list RemovedParam;
  email : list RemovedParam;
  analytics : list RemovedParam
}.

Record Summary : Type := mkSummary {
  n_utm : nat;
  n_social : nat;
  n_ads : nat;
  n_affiliate : nat;
  n_email : nat;
  n_analytics : nat
}.

Record AnalyzeUrlResult : Type := mkAnalysis {
  result : CleanUrlResult;
  categories : Categories;
  summary : Summary
}.

Definition social_keys : list Str := map str
  ["fbclid"; "igshid"; "ttclid"; "tiktok_r"; "li_fat_id"; "mkt_tok";
   "trk"]%string.

Definition ads_keys : list Str := map str
  ["gclid"; "yclid"; "dclid"; "msclkid"; "gad_source"; "gad_campaignid";
   "gbraid"; "utm_ad"; "matchtype"; "campaign_id"; "ad_id"]%string.

Definition affiliate_keys : list Str := map str
  ["ref"; "referral"; "referrer"; "affiliate_id"; "afid"; "click_id";
   "clickid"; "subid"; "sub_id"; "partner_id"; "sr_share"; "tag"; "linkcode";
   "linkid"; "ascsubtag"; "camp"; "creative"; "pd_rd_i"; "pd_rd_r";
   "pd_rd_w"; "pd_rd_wg"]%string.

Definition email_keys : list Str := map str
  ["ck_subscriber_id"; "mc_cid"; "mc_eid"; "_hsenc"; "_hsmi"]%string.

(** The body of [result.removedParams.forEach]. *)
Definition categorize (c : Categories) (p : RemovedParam) : Categories :=
  let paramLower := toLowerCase (key p) in
  let entry := mkRemoved (key p) (value p) in
  if startsWith paramLower (str "utm_") then
    mkCategories (utm c ++ [entry]) (social c) (ads c) (affiliate c)
                 (email c) (analytics c)
  else if array_includes social_keys paramLower then
    mkCategories (utm c) (social c ++ [entry]) (ads c) (affiliate c)
                 (email c) (analytics c)
  else if array_includes ads_keys paramLower then
    mkCategories (utm c) (social c) (ads c ++ [entry]) (affiliate c)
                 (email c) (analytics c)
  else if array_includes affiliate_keys paramLower then
    mkCategories (utm c) (social c) (ads c) (affiliate c ++ [entry])
                 (email c) (analytics c)
  else if array_includes email_keys paramLower then
    mkCategories (utm c) (social c) (ads c) (affiliate c)
                 (email c ++ [entry]) (analytics c)
  else
    mkCategories (utm c) (social c) (ads c) (affiliate c)
                 (email c) (analytics c ++ [entry]).

Definition empty_categories : Categories := mkCategories [] [] [] [] [] [].

(* ====================================================================== *)
(** * The popup: [src/entrypoints/popup/main.ts] *)
(* ====================================================================== *)

(** The two functions of the popup that shorten a text count and cut
    UTF-16 code units, so a text is here the list of its code units. *)
Definition Units := list N.

Definition ellipsis : Units := [46; 46; 46]%N.

(** An index argument of [substring], brought into the string. *)
Definition clamp_index (s : Units) (i : Z) : nat :=
  Nat.min (Z.to_nat i) (length s).

(** [s.substring(start, end)]: the two indices are clamped and put in
    order. *)
Definition substring (s : Units) (i j : Z) : Units :=
  let a := clamp_index s i in
  let b := clamp_index s j in
  firstn (Nat.max a b - Nat.min a b) (skipn (Nat.min a b) s).

(** [s.substring(start)]. *)
Definition substring_from (s : Units) (i : Z) : Units :=
  skipn (clamp_index s i) s.

Definition units_length (s : Units) : Z := Z.of_nat (length s).

(** A parameter with a default value: [None] is an argument left out. *)
Definition or_default (d : Z) (a : option Z) : Z :=
  match a with Some x => x | None => d end.

(** [truncateUrl(url, maxLength = 50)]; [None] stands for [null] and
    [undefined]. *)
Definition truncateUrl (url : option Units) (maxLength : option Z) : Units :=
  let maxLength := or_default 50 maxLength in
  match url with
  | None | Some [] => []
  | Some u =>
      if (units_length u <=? maxLength)%Z then u
      else
        let start := substring u 0 20 in
        let end_ := substring_from u (units_length u - 20) in
        start ++ ellipsis ++ end_
  end.

(** [truncateText(text, maxLength = 30)]. *)
Definition truncateText (text : Units) (maxLength : option Z) : Units :=
  let maxLength := or_default 30 maxLength in
  match text with
  | [] => []
  | _ =>
      if (units_length text <=? maxLength)%Z then text
      else substring text 0 maxLength ++ ellipsis
  end.

Record Stat : Type := mkStat {
  stat_label : Str;
  stat_count : nat
}.

(** [showStatistics(summary)]: the items written to the statistics grid,
    or [None] when the section is hidden. *)
Definition showStatistics (summary : Summary) : option (list Stat) :=
  let stats :=
    filter (fun stat => Nat.ltb 0 (stat_count stat))
      [ mkStat (str "UTM") (n_utm summary);
        mkStat (str "Social") (n_social summary);
        mkStat (str "Ads") (n_ads summary);
        mkStat (str "Email") (n_email summary) ] in
  match stats with
  | [] => None
  | _ => Some stats
  end.

(* ====================================================================== *)
(** * A run time for the examples *)
(* ====================================================================== *)

(** Values for the parameters of section [Standard], under which the
    examples run and which show that the laws assumed of the parameters
    can be met.  The examples have ASCII domains and no IPv6 address,
    and nothing is proved of this run time but the examples. *)

Definition is_punycode_label (label : Str) : bool :=
  startsWith (ascii_lowercase label) (str "xn--").

(** Unicode ToASCII where the URL Standard itself says what it is: on an
    ASCII domain none of whose labels starts with [xn--] it is ASCII
    lower-casing.  Any other domain needs the tables of UTS 46 and is
    left out of the examples. *)
Definition example_ToASCII (domain : Str) : option Str :=
  if forallb is_ascii_byte domain
     && negb (existsb is_punycode_label (split_on is_dot domain))
  then Some (ascii_lowercase domain)
  else None.

(** The examples have no IPv6 address. *)
Definition example_ipv6_parse (input : Str) : option Str := None.

(** The message of Node.js. *)
Definition example_message (input : Str) : Str := str "Invalid URL".

(* ====================================================================== *)
(** * Vocabulary of the specification *)
(* ====================================================================== *)

(** A query parameter as an entry of [removedParams]. *)
Definition to_removed (entry : Str * Str) : RemovedParam :=
  mkRemoved (fst entry) (snd entry).

Definition tracking_entry (entry : Str * Str) : bool :=
  isTrackingParam (fst entry).

Definition kept_entry (entry : Str * Str) : bool :=
  negb (isTrackingParam (fst entry)).

(** What the serializer writes for one pair. *)
Definition form_pair (p : Str * Str) : Str :=
  form_encode (fst p) ++ ["="%char] ++ form_encode (snd p).

(** The six categories of [analyzeUrl]. *)
Inductive Category : Type :=
| Utm | Social | Ads | Affiliate | Email | Analytics.

Definition Category_eqb (a b : Category) : bool :=
  match a, b with
  | Utm, Utm | Social, Social | Ads, Ads | Affiliate, Affiliate
  | Email, Email | Analytics, Analytics => true
  | _, _ => false
  end.

(** The category the [if] chain of [analyzeUrl] chooses for a key. *)
Definition category_of (k : Str) : Category :=
  let paramLower := toLowerCase k in
  if startsWith paramLower (str "utm_") then Utm
  else if array_includes social_keys paramLower then Social
  else if array_includes ads_keys paramLower then Ads
  else if array_includes affiliate_keys paramLower then Affiliate
  else if array_includes email_keys paramLower then Email
  else Analytics.

(** [urls[i]]: reading a hole gives [undefined]. *)
Definition array_get (l : list (option JsValue)) (i : nat) : JsValue :=
  match nth_error l i with
  | Some (Some v) => v
  | _ => JsUndefined
  end.

Definition cat_array (c : Categories) (k : Category) : list RemovedParam :=
  match k with
  | Utm => utm c
  | Social => social c
  | Ads => ads c
  | Affiliate => affiliate c
  | Email => email c
  | Analytics => analytics c
  end.

Definition all_arrays (c : Categories) : list RemovedParam :=
  utm c ++ social c ++ ads c ++ affiliate c ++ email c ++ analytics c.

Definition in_category (k : Category) (p : RemovedParam) : bool :=
  Category_eqb (category_of (key p)) k.

(** The query string the specification describes for the rebuilt hash:
    plain [key=value] pairs joined by [&], nothing percent-escaped. *)
Fixpoint plain_serialize (l : Params) : Str :=
  match l with
  | [] => []
  | [(k, v)] => k ++ ["="%char] ++ v
  | (k, v) :: r => k ++ ["="%char] ++ v ++ ["&"%char] ++ plain_serialize r
  end.

(** Section 4.3, step 6 of the specification, reached when none of the
    steps before it has returned: the fragment is kept when no key is a
    tracking key, and otherwise rebuilt from the other pairs in plain
    form. *)
Definition hash_step6_as_specified (hashContent : Str) : Prop :=
  forall decodedHash,
    hashContent <> [] ->
    decodeURIComponent hashContent = Normal decodedHash ->
    startsWith decodedHash (str "/") = false ->
    looksLikeMalformedTracking hashContent decodedHash = false ->
    re_anchor_query decodedHash = false ->
    includes decodedHash (str "=") = true ->
    let pairs := URLSearchParams_new decodedHash in
    let others := filter kept_entry pairs in
    cleanHashFragment hashContent =
    Normal (if existsb tracking_entry pairs
            then match others with
                 | [] => None
                 | _ => Some (plain_serialize others)
                 end
            else Some hashContent).


(* ====================================================================== *)
(** * The URL parser of the standard *)
(* ====================================================================== *)

Section Standard.

(** Unicode ToASCII of UTS 46, with the flags the URL Standard gives it
    (domain to ASCII, not strict), on the UTF-8 bytes of a domain. *)
Variable unicode_ToASCII : Str -> option Str.

(** The IPv6 parser followed by the IPv6 serializer: the address the
    text between the brackets stands for, as the standard writes it. *)
Variable ipv6_parse : Str -> option Str.

(** The message of the [TypeError] that [new URL(input)] throws. *)
Variable invalid_url_message : Str -> Str.

(** Whether [^] is in the path percent-encode set. *)
Variable caret_in_path_set : bool.

(** Whether a space at the end of an opaque path, right before the
    query or the fragment, is written [%20]. *)
Variable opaque_space_encoded : bool.

(** The characters of a serialized IPv6 address. *)
Definition ipv6_char (c : ascii) : bool :=
  is_digit c || in_range 97 102 c || is_char ":" c.

(** What the proofs use of ToASCII: its result is ASCII, it leaves its
    own results as they are, and it leaves the dotted decimal form of an
    IPv4 address as it is. *)
Hypothesis ToASCII_ascii :
  forall x d, unicode_ToASCII x = Some d -> forallb is_ascii_byte d = true.

Hypothesis ToASCII_stable :
  forall x d, unicode_ToASCII x = Some d -> unicode_ToASCII d = Some d.

Hypothesis ToASCII_ipv4 :
  forall n, (n < 4294967296)%N ->
            unicode_ToASCII (ipv4_serialize n) = Some (ipv4_serialize n).

(** And of the IPv6 parser: an address as the standard writes it is made
    of digits, the letters a to f and colons, and is read as itself. *)
Hypothesis ipv6_chars :
  forall x a, ipv6_parse x = Some a -> forallb ipv6_char a = true.

Hypothesis ipv6_stable :
  forall x a, ipv6_parse x = Some a -> ipv6_parse a = Some a.

Definition path_set (c : ascii) : bool :=
  path_set_base c || (caret_in_path_set && is_char "^" c).

(** ** Hosts *)

(** Domain to ASCII: an empty result is a failure. *)
Definition domain_to_ascii (domain : Str) : option Str :=
  match unicode_ToASCII domain with
  | Some [] => None
  | other => other
  end.

(** The host parser. *)
Definition host_parse (input : Str) (isOpaque : bool) : option Host :=
  if startsWith input (str "[") then
    match rev input with
    | c :: between =>
        if is_char "]" c
        then option_map IPv6 (ipv6_parse (tl (rev between)))
        else None
    | [] => None
    end
  else if isOpaque then opaque_host_parse input
  else
    match domain_to_ascii (utf8_decode (percent_decode input)) with
    | None => None
    | Some asciiDomain =>
        if existsb forbidden_domain asciiDomain then None
        else if ends_in_number asciiDomain
        then option_map IPv4 (ipv4_parse asciiDomain)
        else Some (Domain asciiDomain)
    end.

(** ** Paths *)

(** The path state, one step per segment; [acc] is the path so far. *)
Fixpoint path_segments (isfile : bool) (segs : list Str) (acc : list Str)
  : list Str :=
  match segs with
  | [] => acc
  | seg :: rest =>
      let at_end := match rest with [] => true | _ => false end in
      let buffer := percent_encode path_set seg in
      let acc' :=
        if is_double_dot buffer then
          let p := shorten isfile acc in
          if at_end then p ++ [[]] else p
        else if is_single_dot buffer then
          if at_end then acc ++ [[]] else acc
        else acc ++ [normalize_drive isfile acc buffer] in
      path_segments isfile rest acc'
  end.

(** The path state run on [s] (no [?] or [#] in it) from an empty path. *)
Definition parse_path (special isfile : bool) (s : Str) : Path :=
  ListPath (path_segments isfile (split_on (path_sep special) s) []).

(** The path start state. *)
Definition path_start (special isfile : bool) (s : Str) : Path :=
  match s with
  | [] => if special then parse_path special isfile [] else ListPath []
  | c :: r =>
      if path_sep special c then parse_path special isfile r
      else parse_path special isfile s
  end.

(** The opaque path state.  In the versions of the standard that say so,
    a space right before [?] or [#] is written [%20]; [followed] says
    that a query or a fragment comes next. *)
Definition opaque_path (followed : bool) (s : Str) : Str :=
  match rev s with
  | c :: r =>
      if opaque_space_encoded && followed && is_char " " c
      then percent_encode c0_control_set (rev r) ++ str "%20"
      else percent_encode c0_control_set s
  | [] => []
  end.

(** ** The parser *)

(** The authority, host and port states, then the path start state. *)
Definition parse_authority (sch : Str) (s : Str) : option Prefix :=
  let special := is_special sch in
  let (authority, rest) := span (fun c => negb (path_sep special c)) s in
  let (cred, hostport) := break_last (is_char "@") authority in
  match cred, hostport with
  | Some _, [] => None
  | _, _ =>
      let (user, pass) :=
        match cred with
        | Some c => parse_credentials c
        | None => ([], [])
        end in
      let (hostbuf, portbuf) := split_host_port false hostport in
      match portbuf, hostbuf with
      | Some _, [] => None
      | _, _ =>
          if special && negb (nonempty hostbuf) then None
          else
            match host_parse hostbuf (negb special) with
            | None => None
            | Some h =>
                match
                  match portbuf with
                  | Some pb => parse_port sch pb
                  | None => Some None
                  end
                with
                | None => None
                | Some prt =>
                    Some (mkPrefix user pass (Some h) prt
                                   (path_start special false rest))
                end
            end
      end
  end.

(** The file host state. *)
Definition parse_file_host (s : Str) : option Prefix :=
  let (buffer, rest) := span (fun c => negb (is_slash c)) s in
  if is_drive_letter buffer then
    Some (mkPrefix [] [] (Some EmptyHost) None (parse_path true true s))
  else
    match buffer with
    | [] => Some (mkPrefix [] [] (Some EmptyHost) None
                           (path_start true true rest))
    | _ =>
        match host_parse buffer false with
        | None => None
        | Some h =>
            let h' := match h with
                      | Domain d => if Str_eqb d (str "localhost")
                                    then EmptyHost else h
                      | _ => h
                      end in
            Some (mkPrefix [] [] (Some h') None (path_start true true rest))
        end
    end.

(** The file and file slash states. *)
Definition parse_file (s : Str) : option Prefix :=
  match s with
  | c :: r =>
      if is_slash c then
        match r with
        | c' :: r' =>
            if is_slash c' then parse_file_host r'
            else Some (mkPrefix [] [] (Some EmptyHost) None
                                (parse_path true true r))
        | [] => Some (mkPrefix [] [] (Some EmptyHost) None
                               (parse_path true true r))
        end
      else Some (mkPrefix [] [] (Some EmptyHost) None (parse_path true true s))
  | [] => Some (mkPrefix [] [] (Some EmptyHost) None (parse_path true true s))
  end.

(** What follows the scheme, up to the query. *)
Definition parse_after_scheme (sch : Str) (followed : bool) (s : Str)
  : option Prefix :=
  if Str_eqb sch (str "file") then parse_file s
  else if is_special sch then parse_authority sch (drop_while is_slash s)
  else
    match s with
    | c :: r =>
        if is_char "/" c then
          match r with
          | c' :: r' =>
              if is_char "/" c' then parse_authority sch r'
              else Some (mkPrefix [] [] None None (parse_path false false r))
          | [] => Some (mkPrefix [] [] None None (parse_path false false r))
          end
        else Some (mkPrefix [] [] None None (OpaquePath (opaque_path followed s)))
    | [] => Some (mkPrefix [] [] None None (OpaquePath []))
    end.

(** The basic URL parser without a base URL.  The state machine of the
    standard ends the components before the query at the first [?] or
    [#], and the query at the first [#], whatever state it is in; the
    input is cut there first. *)
Definition url_parse (input : Str) : option URLRecord :=
  let cleaned := remove_tab_newline (trim_with is_c0_or_space input) in
  let (before_fragment, frag) := break_at (is_char "#") cleaned in
  let (before_query, qry) := break_at (is_char "?") before_fragment in
  match parse_scheme before_query with
  | None => None
  | Some (sch, rest) =>
      let followed :=
        match qry, frag with None, None => false | _, _ => true end in
      match parse_after_scheme sch followed rest with
      | None => None
      | Some p =>
          Some (mkURL sch (p_username p) (p_password p) (p_host p) (p_port p)
                      (p_path p)
                      (option_map (query_encode sch) qry)
                      (option_map (percent_encode fragment_set) frag))
      end
  end.

(** [new URL(s)], with no base. *)
Definition URL_new (s : Str) : Completion URLRecord :=
  match url_parse s with
  | Some u => Normal u
  | None => Throw (TypeError (invalid_url_message s))
  end.

(* ====================================================================== *)
(** * Well-formed URL records *)
(* ====================================================================== *)

(** What the parser guarantees of the records it returns, component by
    component; it is what makes a serialized record parse back. *)

Definition solid (c : ascii) : bool := negb (is_c0_or_space c).

Definition printable (c : ascii) : bool := negb (c0_control_set c).

Definition not_qf (c : ascii) : bool :=
  negb (is_char "?" c) && negb (is_char "#" c).

Definition ends_solid (s : Str) : bool :=
  match rev s with
  | c :: _ => solid c
  | [] => true
  end.

Definition lower_scheme_char (c : ascii) : bool :=
  is_scheme_char c && negb (is_upper c).

Definition wf_scheme (sch : Str) : bool :=
  match sch with
  | c :: r => is_lower c && forallb lower_scheme_char r
  | [] => false
  end.

Definition userinfo_ok (c : ascii) : bool := negb (userinfo_set c).

Definition domain_ok (c : ascii) : bool :=
  is_ascii_byte c && negb (forbidden_domain c).

Definition is_some_str (o : option Str) (s : Str) : bool :=
  match o with
  | Some x => Str_eqb x s
  | None => false
  end.

Definition opaque_host_ok (c : ascii) : bool :=
  negb (forbidden_host c) && negb (c0_control_set c).

Definition segment_ok (special : bool) (c : ascii) : bool :=
  negb (path_set c) && negb (path_sep special c).

Definition opaque_path_ok (c : ascii) : bool := printable c && not_qf c.

Definition query_ok (sch : Str) (c : ascii) : bool :=
  negb ((if is_special sch then special_query_set else query_set) c).

Definition fragment_ok (c : ascii) : bool := negb (fragment_set c).

(** A domain is what ToASCII leaves as it is, and an IPv6 address what
    the IPv6 parser does. *)
Definition wf_host (special : bool) (h : Host) : bool :=
  match h with
  | Domain d =>
      special && nonempty d && forallb domain_ok d && negb (ends_in_number d)
      && is_some_str (unicode_ToASCII d) d
  | IPv4 n => special && N.ltb n 4294967296
  | IPv6 a => forallb ipv6_char a && is_some_str (ipv6_parse a) a
  | OpaqueHost s => negb special && nonempty s && forallb opaque_host_ok s
  | EmptyHost => negb special
  end.

Definition wf_port (sch : Str) (p : option N) : bool :=
  match p with
  | Some n => N.leb n 65535 && negb (N_opt_eqb (default_port sch) n)
  | None => true
  end.

Definition wf_segment (special : bool) (seg : Str) : bool :=
  forallb (segment_ok special) seg
  && negb (is_single_dot seg) && negb (is_double_dot seg).

(** [tail_free]: the opaque path may end with a space, because a query
    or a fragment follows it and the run time leaves such a space. *)
Definition wf_path (special hashost tail_free : bool) (p : Path) : bool :=
  match p with
  | ListPath l =>
      forallb (wf_segment special) l
      && ((negb special && hashost)
          || match l with [] => false | _ => true end)
  | OpaquePath s =>
      negb special && negb hashost && forallb opaque_path_ok s
      && negb (startsWith s (str "/")) && (ends_solid s || tail_free)
  end.

Definition no_port (p : option N) : bool :=
  match p with None => true | Some _ => false end.

Definition has_credentials (user pass : Str) : bool :=
  nonempty user || nonempty pass.

(** Credentials and a port need a host that is not empty. *)
Definition wf_authority (special : bool) (user pass : Str)
           (h : option Host) (prt : option N) : bool :=
  match h with
  | Some EmptyHost | None =>
      negb special && negb (has_credentials user pass) && no_port prt
  | Some h' => wf_host special h'
  end.

Definition has_some {A} (o : option A) : bool :=
  match o with Some _ => true | None => false end.

Definition wf_prefix (sch : Str) (tail_free : bool) (p : Prefix) : bool :=
  forallb userinfo_ok (p_username p)
  && forallb userinfo_ok (p_password p)
  && wf_authority (is_special sch) (p_username p) (p_password p)
                  (p_host p) (p_port p)
  && wf_port sch (p_port p)
  && wf_path (is_special sch) (has_some (p_host p)) tail_free (p_path p).

Definition url_prefix (u : URLRecord) : Prefix :=
  mkPrefix (username u) (password u) (host u) (port u) (path u).

Definition wf_opt (ok : ascii -> bool) (o : option Str) : bool :=
  match o with
  | Some s => forallb ok s
  | None => true
  end.

Definition tail_free_of (q f : option Str) : bool :=
  negb opaque_space_encoded && (has_some q || has_some f).

Definition wf_url (u : URLRecord) : bool :=
  negb (Str_eqb (scheme u) (str "file"))
  && wf_scheme (scheme u)
  && wf_prefix (scheme u) (tail_free_of (query u) (fragment u))
               (url_prefix u)
  && wf_opt (query_ok (scheme u)) (query u)
  && wf_opt fragment_ok (fragment u).

(** The pieces of a serialized URL. *)
Definition credentials_serialize (user pass : Str) : Str :=
  if has_credentials user pass
  then user ++ (if nonempty pass then ":"%char :: pass else [])
       ++ ["@"%char]
  else [].

Definition port_serialize (prt : option N) : Str :=
  match prt with
  | Some p => ":"%char :: dec p
  | None => []
  end.

Definition authority_serialize (p : Prefix) : Str :=
  match p_host p with
  | Some h =>
      credentials_serialize (p_username p) (p_password p)
      ++ host_serialize h ++ port_serialize (p_port p)
  | None => []
  end.

(** What follows the colon of the scheme, up to the query. *)
Definition prefix_serialize (p : Prefix) : Str :=
  match p_host p with
  | Some _ => str "//" ++ authority_serialize p
  | None =>
      match p_path p with
      | ListPath ([] :: _ :: _) => str "/."
      | _ => []
      end
  end
  ++ path_serialize (p_path p).

(** Printable ASCII that is neither a space nor a query or fragment
    delimiter. *)
Definition plain (c : ascii) : bool := solid c && not_qf c && printable c.

Definition no_tab (c : ascii) : bool := negb (is_tab_or_newline c).

Definition no_sep (special : bool) (c : ascii) : bool :=
  negb (path_sep special c).

(** The characters a serialized host is made of. *)
Definition host_char (c : ascii) : bool :=
  negb (forbidden_host c) && printable c.

(** The value of a decimal numeral, most significant digit first, read
    after [acc]. *)
Fixpoint uint_value (d : Decimal.uint) (acc : N) : N :=
  match d with
  | Decimal.Nil => acc
  | Decimal.D0 l => uint_value l (acc * 10 + 0)%N
  | Decimal.D1 l => uint_value l (acc * 10 + 1)%N
  | Decimal.D2 l => uint_value l (acc * 10 + 2)%N
  | Decimal.D3 l => uint_value l (acc * 10 + 3)%N
  | Decimal.D4 l => uint_value l (acc * 10 + 4)%N
  | Decimal.D5 l => uint_value l (acc * 10 + 5)%N
  | Decimal.D6 l => uint_value l (acc * 10 + 6)%N
  | Decimal.D7 l => uint_value l (acc * 10 + 7)%N
  | Decimal.D8 l => uint_value l (acc * 10 + 8)%N
  | Decimal.D9 l => uint_value l (acc * 10 + 9)%N
  end.


Definition octet_check (o : N) : bool :=
  forallb is_digit (dec o) && nonempty (dec o)
  && match ipv4_number (dec o) with
     | Some v => N.eqb v o
     | None => false
     end.


(** The four octets of a 32-bit address, first to last. *)
Definition ip_a (n : N) : N := (n / 16777216)%N.
Definition ip_b (n : N) : N := ((n / 65536) mod 256)%N.
Definition ip_c (n : N) : N := ((n / 256) mod 256)%N.
Definition ip_d (n : N) : N := (n mod 256)%N.

Definition authority_char (special : bool) (c : ascii) : bool :=
  no_sep special c && plain c && printable c.


Definition join_segments (x : Str) (t : list Str) : Str :=
  x ++ flat_map (fun seg => "/"%char :: seg) t.


(** Printable ASCII that is no query or fragment delimiter. *)
Definition calm (c : ascii) : bool := no_tab c && not_qf c && printable c.

(** The query and the fragment as the serializer writes them. *)
Definition query_serialize (q : option Str) : Str :=
  match q with Some s => "?"%char :: s | None => [] end.

Definition fragment_serialize (f : option Str) : Str :=
  match f with Some s => "#"%char :: s | None => [] end.

Definition no_hash (c : ascii) : bool := negb (is_char "#" c).

Definition no_question (c : ascii) : bool := negb (is_char "?" c).

(** ** UTF-8 and form encoding *)

(** Decoding leaves [out] alone wherever it stands at the front. *)
Definition prefix_stable (out : Str) : Prop :=
  forall rest, utf8_run Idle (out ++ rest) = out ++ utf8_run Idle rest.

(** [tail] is what a lead byte that announced [n] more bytes, the first
    of them between [lo] and [hi], has to be followed by. *)
Definition continuation_ok (n : nat) (lo hi : N) (tail : Str) : Prop :=
  length tail = n
  /\ match tail with
     | c :: r => in_range lo hi c = true
                 /\ forallb (in_range 128 191) r = true
     | [] => False
     end.

Definition utf8_state_ok (st : Utf8State) : Prop :=
  match st with
  | Idle => True
  | Expect seen n lo hi =>
      n <> 0
      /\ forall tail, continuation_ok n lo hi tail ->
                      prefix_stable (seen ++ tail)
  end.

(** A string that is its own UTF-8 decoding: well-formed UTF-8. *)
Definition utf8_stable (s : Str) : Prop := utf8_decode s = s.

Definition pair_stable (p : Str * Str) : Prop :=
  utf8_stable (fst p) /\ utf8_stable (snd p).

(** What the form serializer writes for one character. *)
Definition form_chunk (c : ascii) : Str :=
  if is_char " " c then ["+"%char]
  else if form_set c then percent_byte c else [c].

(** The characters the form serializer writes for names and values. *)
Definition form_char (c : ascii) : bool :=
  is_alnum c || one_of ["*"; "-"; "."; "_"; "+"; "%"]%char c.

(** ** The rebuilt URL *)

(** A record with another query and fragment. *)
Definition with_query_fragment (u : URLRecord) (q f : option Str)
  : URLRecord :=
  mkURL (scheme u) (username u) (password u) (host u) (port u) (path u) q f.

(** A record without credentials, query and fragment: what an origin
    followed by a path name spells. *)
Definition bare (u : URLRecord) : URLRecord :=
  mkURL (scheme u) [] [] (host u) (port u) (path u) None None.

(** The characters of a serialized parameter list. *)
Definition form_text (c : ascii) : bool :=
  form_char c || is_char "=" c || is_char "&" c.

(** The query the rebuilt URL gets for the kept parameters. *)
Definition rebuilt_query (u0 : URLRecord) (kept : Params) : option Str :=
  match form_serialize kept with
  | [] => query u0
  | text => Some text
  end.

(** ** Proof by enumeration *)

(** A fact about one character is checked on each of the 256; the flags
    of the run time are left alone. *)
Ltac each_char :=
  repeat match goal with
         | |- forall c : ascii, _ => intro
         | |- forall b : bool, _ => intro
         end;
  repeat match goal with
         | c : ascii |- _ => destruct c as [[] [] [] [] [] [] [] []]
         | b : bool |- _ =>
             lazymatch b with
             | caret_in_path_set => fail
             | opaque_space_encoded => fail
             | _ => destruct b
             end
         end;
  vm_compute; intros; try reflexivity; try congruence; auto.

(* ====================================================================== *)
(** * The engine: [isValidUrl], [cleanUrl], [cleanUrls], [analyzeUrl] *)
(* ====================================================================== *)

Section Engine.

(** [new URL(input)] as the run time has it: the URL record of [input],
    or the error it throws. *)
Variable new_URL : Str -> Completion URLRecord.

(** [url.origin]: the serialization of the origin.  An opaque origin
    serializes to [null]; so does the origin of a [file:] URL.  A [blob:]
    URL has no entry in a blob store here, so its origin is that of the
    URL in its path when that one is [http] or [https]. *)
Definition url_origin (u : URLRecord) : Str :=
  if has_tuple_origin (scheme u) then tuple_origin u
  else if Str_eqb (scheme u) (str "blob") then
    match new_URL (url_pathname u) with
    | Normal inner =>
        if array_includes (map str ["http"; "https"]%string) (scheme inner)
        then tuple_origin inner else str "null"
    | Throw _ => str "null"
    end
  else str "null".

Definition isValidUrl (urlString : Str) : Completion bool :=
  try_catch (_ <- new_URL urlString ;; Normal true)
            (fun _ => Normal false).

(** The URL object [cleanedUrl] of the source, before [toString()]. *)
Definition rebuild (url : URLRecord) (kept : Params)
  : Completion URLRecord :=
  cleanedUrl <- new_URL (url_origin url ++ url_pathname url) ;;
  let cleanedUrl :=
    if nonempty (form_serialize kept)
    then url_set_search cleanedUrl (form_serialize kept)
    else cleanedUrl in
  if nonempty (url_hash url) then
    let hashContent := slice1 (url_hash url) in
    cleanedHash <- cleanHashFragment hashContent ;;
    match cleanedHash with
    | Some h =>
        Normal (if nonempty h
                then url_set_hash cleanedUrl ("#"%char :: h)
                else cleanedUrl)
    | None => Normal cleanedUrl
    end
  else Normal cleanedUrl.

Definition cleanUrl (originalUrl : JsValue) : Completion CleanUrlResult :=
  match originalUrl with
  | JsString s =>
      if negb (truthy originalUrl)
      then Normal (failure msg_not_string originalUrl)
      else
        let trimmedUrl := trim s in
        valid <- isValidUrl trimmedUrl ;;
        if negb valid then Normal (failure msg_not_url originalUrl)
        else
          try_catch
            (url <- new_URL trimmedUrl ;;
             let originalParams := URLSearchParams_new (url_search url) in
             let st := fold_left clean_loop_body originalParams
                                 (mkCleanLoop [] []) in
             cleanedUrl <- rebuild url (cleanedParams st) ;;
             let finalCleanedUrl := url_toString cleanedUrl in
             let removed := removedSoFar st in
             Normal (mkResult true None originalUrl (Some finalCleanedUrl)
                       removed (length removed)
                       (Some (Nat.ltb 0 (length removed)))
                       (Some (Z.of_nat (utf16_length s)
                              - Z.of_nat (utf16_length finalCleanedUrl))%Z)))
            (fun e => Normal (failure (msg_processing e) originalUrl))
  | _ =>
      (* [typeof originalUrl !== 'string'] *)
      Normal (failure msg_not_string originalUrl)
  end.

Definition cleanUrls (urls : JsValue)
  : Completion (list (option CleanUrlResult)) :=
  match urls with
  | JsArray l => array_map cleanUrl l
  | _ => Throw (Error msg_not_array)
  end.

Definition analyzeUrl (url : JsValue) : Completion AnalyzeUrlResult :=
  result <- cleanUrl url ;;
  if negb (success result) then
    Normal (mkAnalysis result empty_categories (mkSummary 0 0 0 0 0 0))
  else
    let categories := fold_left categorize (removedParams result)
                                empty_categories in
    Normal (mkAnalysis result categories
              (mkSummary (length (utm categories))
                         (length (social categories))
                         (length (ads categories))
                         (length (affiliate categories))
                         (length (email categories))
                         (length (analytics categories)))).

(** What the specification says of [cleanUrls] on an array: the result
    has the length of the input and its i-th element is the result of
    [cleanUrl] on the i-th input. *)
Definition batch_as_specified (l : list (option JsValue)) : Prop :=
  exists rs,
    cleanUrls (JsArray l) = Normal rs
    /\ length rs = length l
    /\ forall i, i < length l ->
         exists r, nth_error rs i = Some (Some r)
                   /\ cleanUrl (array_get l i) = Normal r.



(* ====================================================================== *)
(** * Vocabulary of the statements about [cleanUrl] *)
(* ====================================================================== *)

(** The parameters of a URL object: [new URLSearchParams(url.search)]. *)
Definition entries (url : URLRecord) : Params :=
  URLSearchParams_new (url_search url).

(** The result of [cleanUrl] on the string [s] parsed to [url], when
    [cu] is the URL object it rebuilt. *)
Definition cleaned (s : Str) (url cu : URLRecord) : CleanUrlResult :=
  let removed := map to_removed (filter tracking_entry (entries url)) in
  mkResult true None (JsString s) (Some (url_toString cu))
           removed (length removed) (Some (Nat.ltb 0 (length removed)))
           (Some (Z.of_nat (utf16_length s)
                  - Z.of_nat (utf16_length (url_toString cu)))%Z).

(** The fragment [cleanUrl] gives the rebuilt URL. *)
Definition rebuilt_fragment (url : URLRecord) : option Str :=
  if nonempty (url_hash url) then
    match cleanHashFragment (slice1 (url_hash url)) with
    | Normal (Some h) =>
        if nonempty h
        then Some (percent_encode fragment_set (remove_tab_newline h))
        else None
    | _ => None
    end
  else None.

(** The query [cleanUrl] gives the rebuilt URL. *)
Definition kept_query (url : URLRecord) : option Str :=
  match form_serialize (filter kept_entry (entries url)) with
  | [] => None
  | text => Some text
  end.

(* ====================================================================== *)
(** * The first version of the engine: [src/clean-url-logic.js] *)
(* ====================================================================== *)

(** The module the extension started from.  Its table is shorter and it
    copies the fragment of the URL as it is. *)


Definition LEGACY_TRACKING_PARAM_PATTERNS : list Str := map str
  [ "utm_source"; "utm_medium"; "utm_campaign"; "utm_term"; "utm_content";
    "utm_nooverride";
    "fbclid"; "igshid"; "ttclid"; "tiktok_r"; "li_fat_id"; "mkt_tok"; "trk";
    "gclid"; "yclid"; "dclid"; "msclkid";
    "ref"; "referral"; "affiliate_id"; "afid"; "click_id"; "clickid";
    "subid"; "sub_id"; "partner_id"; "sr_share";
    "ck_subscriber_id"; "mc_cid"; "mc_eid";
    "sthash"; "source"; "campaign"; "adgroup"; "adposition" ]%string.

Definition legacy_isTrackingParam (key : Str) : bool :=
  let paramLower := toLowerCase key in
  existsb (fun pattern => Str_eqb paramLower (toLowerCase pattern))
          LEGACY_TRACKING_PARAM_PATTERNS.

Definition legacy_clean_loop_body (st : CleanLoop) (entry : Str * Str) : CleanLoop :=
  let (key, value) := entry in
  if legacy_isTrackingParam key
  then mkCleanLoop (cleanedParams st) (removedSoFar st ++ [mkRemoved key value])
  else mkCleanLoop (params_append (cleanedParams st) key value)
                   (removedSoFar st).

(** The URL object [cleanedUrl] of the module, before [toString()]. *)
Definition legacy_rebuild (url : URLRecord) (kept : Params)
  : Completion URLRecord :=
  cleanedUrl <- new_URL (url_origin url ++ url_pathname url) ;;
  let cleanedUrl :=
    if nonempty (form_serialize kept)
    then url_set_search cleanedUrl (form_serialize kept)
    else cleanedUrl in
  Normal (if nonempty (url_hash url)
          then url_set_hash cleanedUrl (url_hash url)
          else cleanedUrl).

Definition legacy_cleanUrl (originalUrl : JsValue) : Completion CleanUrlResult :=
  match originalUrl with
  | JsString s =>
      if negb (truthy originalUrl)
      then Normal (failure msg_not_string originalUrl)
      else
        let trimmedUrl := trim s in
        valid <- isValidUrl trimmedUrl ;;
        if negb valid then Normal (failure msg_not_url originalUrl)
        else
          try_catch
            (url <- new_URL trimmedUrl ;;
             let originalParams := URLSearchParams_new (url_search url) in
             let st := fold_left legacy_clean_loop_body originalParams
                                 (mkCleanLoop [] []) in
             cleanedUrl <- legacy_rebuild url (cleanedParams st) ;;
             let finalCleanedUrl := url_toString cleanedUrl in
             let removed := removedSoFar st in
             Normal (mkResult true None originalUrl (Some finalCleanedUrl)
                       removed (length removed)
                       (Some (Nat.ltb 0 (length removed)))
                       (Some (Z.of_nat (utf16_length s)
                              - Z.of_nat (utf16_length finalCleanedUrl))%Z)))
            (fun e => Normal (failure (msg_processing e) originalUrl))
  | _ => Normal (failure msg_not_string originalUrl)
  end.

(* ====================================================================== *)
(** * The background service worker: [src/unnamed/part_003] *)
(* ====================================================================== *)

(** [BADGE] of [src/utils/config.ts]. *)
Definition BADGE_TRACKING_COLOR : Str := str "#e53e3e".
Definition BADGE_DEFAULT_COLOR : Str := str "#667eea".
Definition BADGE_MAX_COUNT : nat := 99.

(** The calls the worker makes to the browser, in the order it makes
    them.  Each call is taken to be fulfilled; the worker only logs a
    rejected one. *)
Inductive Effect : Type :=
| SetBadgeText (text : Str) (tabId : Z)
| SetBadgeBackgroundColor (color : Str) (tabId : Z)
| TabsUpdate (tabId : Z) (url : Str)
| StorageSet (cleanedUrlForClipboard : Str)
| Notification (title message : Str).

(** [Number.prototype.toString] on a count. *)
Definition number_toString (n : nat) : Str := dec (N.of_nat n).

(** [setBadge(tabId, text, backgroundColor = BADGE.DEFAULT_COLOR)]. *)
Definition setBadge (tabId : Z) (text : Str) (backgroundColor : option Str)
  : list Effect :=
  let backgroundColor :=
    match backgroundColor with
    | Some c => c
    | None => BADGE_DEFAULT_COLOR
    end in
  SetBadgeText text tabId
  :: (if nonempty text
      then [SetBadgeBackgroundColor backgroundColor tabId]
      else []).

Definition is_web_url (url : Str) : bool :=
  startsWith url (str "http://") || startsWith url (str "https://").

Definition updateTabBadge (tabId : Z) (url : Str)
  : Completion (list Effect) :=
  if negb (nonempty url)
     || (negb (startsWith url (str "http://"))
         && negb (startsWith url (str "https://")))
  then Normal (setBadge tabId [] None)
  else
    try_catch
      (a <- analyzeUrl (JsString url) ;;
       let r := result a in
       if success r && Nat.ltb 0 (removedCount r) then
         let badgeText :=
           if Nat.ltb BADGE_MAX_COUNT (removedCount r) then str "99+"
           else number_toString (removedCount r) in
         Normal (setBadge tabId badgeText (Some BADGE_TRACKING_COLOR))
       else Normal (setBadge tabId [] None))
      (fun _ => Normal (setBadge tabId [] None)).

(** [getTrackingParamCount(url)]. *)
Definition getTrackingParamCount (url : Str) : Completion nat :=
  try_catch
    (a <- analyzeUrl (JsString url) ;;
     Normal (if success (result a) then removedCount (result a) else 0))
    (fun _ => Normal 0).

(** The fields of a [chrome.tabs.Tab] the worker reads. *)
Record Tab : Type := mkTab {
  tab_url : option Str;
  tab_id : option Z
}.

Definition is_true (o : option bool) : bool :=
  match o with Some b => b | None => false end.

Definition some_nonempty (o : option Str) : bool :=
  match o with Some s => nonempty s | None => false end.

Definition or_empty (o : option Str) : Str :=
  match o with Some s => s | None => [] end.

Definition msg_removed (n : nat) : Str :=
  str "Removed " ++ number_toString n ++ str " tracking parameters".

Definition no_tracking_found : Effect :=
  Notification (str "Clean URL")
               (str "No tracking parameters found in this URL").

(** [handleActionClick(tab)]. *)
Definition handleActionClick (tab : Tab) : Completion (list Effect) :=
  match tab_url tab, tab_id tab with
  | Some url, Some id =>
      if nonempty url && negb (Z.eqb id 0) then
        r <- cleanUrl (JsString url) ;;
        if success r && is_true (hasChanges r) && some_nonempty (cleanedUrl r)
        then
          Normal [ TabsUpdate id (or_empty (cleanedUrl r));
                   Notification (str "URL Cleaned!")
                                (msg_removed (removedCount r)) ]
        else Normal [no_tracking_found]
      else Normal []
  | _, _ => Normal []
  end.

(** [cleanUrlFromContext(url, tab)]. *)
Definition cleanUrlFromContext (url : Str) : Completion (list Effect) :=
  r <- cleanUrl (JsString url) ;;
  if success r && is_true (hasChanges r) && some_nonempty (cleanedUrl r)
  then
    Normal [ StorageSet (or_empty (cleanedUrl r));
             Notification
               (str "URL Cleaned & Copied!")
               (msg_removed (removedCount r)
                ++ str ". Cleaned URL copied to clipboard.") ]
  else Normal [no_tracking_found].


(** ** The form serializer *)

Lemma nonempty_true (s : Str) : nonempty s = true <-> s <> [].
Proof. destruct s; simpl; split; congruence. Qed.

Lemma form_fold_acc (l : Params) (acc : Str) :
  acc <> [] ->
  fold_left
    (fun output (p : Str * Str) =>
       (if nonempty output then output ++ ["&"%char] else output)
       ++ form_encode (fst p) ++ ["="%char] ++ form_encode (snd p))
    l acc
  = acc ++ flat_map (fun q => "&"%char :: form_pair q) l.
Proof.
  revert acc. induction l as [|p l IH]; intros acc Hacc; simpl.
  - now rewrite app_nil_r.
  - rewrite IH.
    + apply nonempty_true in Hacc. rewrite Hacc. unfold form_pair.
      now rewrite <- !app_assoc.
    + destruct acc; [congruence|]. simpl. discriminate.
Qed.

Lemma form_pair_nonempty (p : Str * Str) : form_pair p <> [].
Proof. unfold form_pair. destruct (form_encode (fst p)); discriminate. Qed.

Lemma form_serialize_cons (p : Str * Str) (l : Params) :
  form_serialize (p :: l)
  = form_pair p ++ flat_map (fun q => "&"%char :: form_pair q) l.
Proof.
  unfold form_serialize. cbn [fold_left nonempty app].
  apply (form_fold_acc l _ (form_pair_nonempty p)).
Qed.

Lemma form_serialize_nonempty (p : Str * Str) (l : Params) :
  nonempty (form_serialize (p :: l)) = true.
Proof.
  rewrite form_serialize_cons. apply nonempty_true.
  pose proof (form_pair_nonempty p). destruct (form_pair p); [congruence|].
  discriminate.
Qed.

(** Where the function ends once the fragment has query structure. *)

(* ====================================================================== *)
(** * Basic facts about strings *)
(* ====================================================================== *)

Lemma Str_eqb_eq (a b : Str) : Str_eqb a b = true <-> a = b.
Proof.
  unfold Str_eqb. destruct (list_eq_dec ascii_dec a b); split; congruence.
Qed.

Lemma Str_eqb_refl (a : Str) : Str_eqb a a = true.
Proof. apply Str_eqb_eq. reflexivity. Qed.


(* ====================================================================== *)
(** * Scanning and splitting *)
(* ====================================================================== *)

Lemma forallb_impl (p q : ascii -> bool) (s : Str) :
  (forall c, p c = true -> q c = true) ->
  forallb p s = true -> forallb q s = true.
Proof.
  intros H. rewrite !forallb_forall. auto.
Qed.

Lemma forallb_and (p q : ascii -> bool) (s : Str) :
  forallb (fun c => p c && q c) s = forallb p s && forallb q s.
Proof.
  induction s as [|c s IH]; simpl; auto. rewrite IH.
  destruct (p c), (q c), (forallb p s), (forallb q s); reflexivity.
Qed.

Lemma filter_id (p : ascii -> bool) (s : Str) :
  forallb p s = true -> filter p s = s.
Proof.
  induction s as [|c s IH]; simpl; auto.
  intros H. apply andb_prop in H as [-> H]. now rewrite IH.
Qed.

Lemma forallb_filter (p : ascii -> bool) (s : Str) :
  forallb p (filter p s) = true.
Proof.
  induction s as [|c s IH]; simpl; auto.
  destruct (p c) eqn:E; simpl; now rewrite ?E.
Qed.

Lemma forallb_filter_keep (p q : ascii -> bool) (s : Str) :
  forallb q s = true -> forallb q (filter p s) = true.
Proof.
  induction s as [|c s IH]; simpl; auto.
  intros H. apply andb_prop in H as [Hc H].
  destruct (p c); simpl; rewrite ?Hc; auto.
Qed.

Lemma span_stop (p : ascii -> bool) (a : Str) (c : ascii) (r : Str) :
  forallb p a = true -> p c = false ->
  span p (a ++ c :: r) = (a, c :: r).
Proof.
  induction a as [|x a IH]; simpl; intros Ha Hc.
  - now rewrite Hc.
  - apply andb_prop in Ha as [-> Ha]. now rewrite IH.
Qed.

Lemma span_all (p : ascii -> bool) (a : Str) :
  forallb p a = true -> span p a = (a, []).
Proof.
  induction a as [|x a IH]; simpl; auto.
  intros Ha. apply andb_prop in Ha as [-> Ha]. now rewrite IH.
Qed.

(** What [span] returns: a prefix satisfying [p] and the rest. *)
Lemma span_spec (p : ascii -> bool) (s a b : Str) :
  span p s = (a, b) ->
  s = a ++ b /\ forallb p a = true
  /\ match b with c :: _ => p c = false | [] => True end.
Proof.
  revert a b. induction s as [|c s IH]; simpl; intros a b H.
  - injection H as <- <-. auto.
  - destruct (p c) eqn:E.
    + destruct (span p s) as [a' b'] eqn:Es. injection H as <- <-.
      destruct (IH _ _ eq_refl) as (-> & Ha & Hb). simpl.
      rewrite E, Ha. auto.
    + injection H as <- <-. simpl. auto.
Qed.

Lemma break_at_stop (p : ascii -> bool) (a : Str) (c : ascii) (r : Str) :
  forallb (fun x => negb (p x)) a = true -> p c = true ->
  break_at p (a ++ c :: r) = (a, Some r).
Proof.
  induction a as [|x a IH]; simpl; intros Ha Hc.
  - now rewrite Hc.
  - apply andb_prop in Ha as [Hx Ha]. apply negb_true_iff in Hx.
    now rewrite Hx, IH.
Qed.

Lemma break_at_none (p : ascii -> bool) (a : Str) :
  forallb (fun x => negb (p x)) a = true -> break_at p a = (a, None).
Proof.
  induction a as [|x a IH]; simpl; auto.
  intros Ha. apply andb_prop in Ha as [Hx Ha]. apply negb_true_iff in Hx.
  now rewrite Hx, IH.
Qed.

(** What [break_at] returns. *)
Lemma break_at_spec (p : ascii -> bool) (s a : Str) (b : option Str) :
  break_at p s = (a, b) ->
  forallb (fun x => negb (p x)) a = true
  /\ match b with
     | Some r => exists c, p c = true /\ s = a ++ c :: r
     | None => s = a
     end.
Proof.
  revert a b. induction s as [|c s IH]; simpl; intros a b H.
  - injection H as <- <-. auto.
  - destruct (p c) eqn:E.
    + injection H as <- <-. split; auto. exists c. auto.
    + destruct (break_at p s) as [a' b'] eqn:Es. injection H as <- <-.
      destruct (IH _ _ eq_refl) as (Ha & Hb). simpl. rewrite E, Ha.
      split; auto. destruct b' as [r|].
      * destruct Hb as (c' & Hc' & ->). exists c'. auto.
      * now subst.
Qed.

Lemma split_on_stop (p : ascii -> bool) (a : Str) (c : ascii) (r : Str) :
  forallb (fun x => negb (p x)) a = true -> p c = true ->
  split_on p (a ++ c :: r) = a :: split_on p r.
Proof.
  induction a as [|x a IH]; simpl; intros Ha Hc.
  - now rewrite Hc.
  - apply andb_prop in Ha as [Hx Ha]. apply negb_true_iff in Hx.
    now rewrite Hx, IH.
Qed.

Lemma split_on_none (p : ascii -> bool) (a : Str) :
  forallb (fun x => negb (p x)) a = true -> split_on p a = [a].
Proof.
  induction a as [|x a IH]; simpl; auto.
  intros Ha. apply andb_prop in Ha as [Hx Ha]. apply negb_true_iff in Hx.
  now rewrite Hx, IH.
Qed.

Lemma split_on_nonempty (p : ascii -> bool) (s : Str) : split_on p s <> [].
Proof.
  destruct s as [|c s]; simpl; [discriminate|].
  destruct (p c); [discriminate|]. destruct (split_on p s); discriminate.
Qed.

(** The items of a split hold no separator and only characters of the
    string. *)
Lemma split_on_items (p q : ascii -> bool) (s : Str) :
  forallb q s = true ->
  Forall (fun item => forallb (fun x => negb (p x) && q x) item = true)
         (split_on p s).
Proof.
  induction s as [|c s IH]; simpl; intros H.
  - repeat constructor.
  - apply andb_prop in H as [Hc H]. specialize (IH H).
    destruct (p c) eqn:E.
    + constructor; auto.
    + destruct (split_on p s) as [|h t]; inversion IH; subst;
        constructor; simpl; rewrite ?E, ?Hc; auto.
Qed.

Lemma break_last_stop (p : ascii -> bool) (a : Str) (c : ascii) (b : Str) :
  forallb (fun x => negb (p x)) b = true -> p c = true ->
  break_last p (a ++ c :: b) = (Some a, b).
Proof.
  intros Hb Hc. unfold break_last.
  rewrite rev_app_distr. simpl. rewrite <- app_assoc. simpl.
  rewrite break_at_stop; auto.
  - now rewrite !rev_involutive.
  - rewrite forallb_forall in *. intros x Hx. apply Hb.
    now apply in_rev.
Qed.

Lemma break_last_none (p : ascii -> bool) (a : Str) :
  forallb (fun x => negb (p x)) a = true -> break_last p a = (None, a).
Proof.
  intros Ha. unfold break_last. rewrite break_at_none; auto.
  rewrite forallb_forall in *. intros x Hx. apply Ha. now apply in_rev.
Qed.

(** What [break_last] returns. *)
Lemma break_last_spec (p : ascii -> bool) (s b : Str) (a : option Str) :
  break_last p s = (a, b) ->
  forallb (fun x => negb (p x)) b = true
  /\ match a with
     | Some a' => exists c, p c = true /\ s = a' ++ c :: b
     | None => s = b
     end.
Proof.
  unfold break_last. intros H.
  destruct (break_at p (rev s)) as [x [y|]] eqn:E; injection H as <- <-.
  - destruct (break_at_spec _ _ _ _ E) as (Hx & c & Hc & Hs).
    split.
    + rewrite forallb_forall in *. intros z Hz. apply Hx. now apply in_rev.
    + exists c. split; auto.
      rewrite <- (rev_involutive s), Hs, rev_app_distr. simpl.
      now rewrite <- app_assoc.
  - destruct (break_at_spec _ _ _ _ E) as (Hx & Hs). split; auto.
    rewrite forallb_forall in *. intros z Hz. apply Hx.
    rewrite <- Hs. now apply -> in_rev.
Qed.

Lemma drop_while_solid (p : ascii -> bool) (c : ascii) (s : Str) :
  p c = false -> drop_while p (c :: s) = c :: s.
Proof. intros H. simpl. now rewrite H. Qed.

(** Nothing is trimmed from a string whose first and last characters
    are not to be trimmed. *)
Lemma trim_with_id (p : ascii -> bool) (s : Str) :
  match s with c :: _ => p c = false | [] => True end ->
  match rev s with c :: _ => p c = false | [] => True end ->
  trim_with p s = s.
Proof.
  intros H1 H2. unfold trim_with.
  destruct s as [|c s]; [reflexivity|].
  rewrite (drop_while_solid _ _ _ H1).
  destruct (rev (c :: s)) as [|d t] eqn:E.
  - simpl. apply (f_equal (@rev ascii)) in E.
    now rewrite rev_involutive in E.
  - rewrite (drop_while_solid _ _ _ H2), <- E. apply rev_involutive.
Qed.

Lemma drop_while_suffix (p : ascii -> bool) (s : Str) :
  exists a, s = a ++ drop_while p s.
Proof.
  induction s as [|c s [a IH]]; simpl.
  - now exists [].
  - destruct (p c).
    + exists (c :: a). simpl. now f_equal.
    + now exists [].
Qed.

Lemma drop_while_head (p : ascii -> bool) (s : Str) :
  match drop_while p s with c :: _ => p c = false | [] => True end.
Proof.
  induction s as [|c s IH]; simpl; auto.
  destruct (p c) eqn:E; auto.
Qed.

Lemma forallb_suffix (q : ascii -> bool) (a b : Str) :
  forallb q (a ++ b) = true -> forallb q b = true.
Proof. rewrite forallb_app. intros H. now apply andb_prop in H. Qed.

Lemma forallb_prefix (q : ascii -> bool) (a b : Str) :
  forallb q (a ++ b) = true -> forallb q a = true.
Proof. rewrite forallb_app. intros H. now apply andb_prop in H. Qed.

Lemma forallb_rev (q : ascii -> bool) (s : Str) :
  forallb q (rev s) = forallb q s.
Proof.
  induction s as [|c s IH]; simpl; auto.
  rewrite forallb_app, IH. simpl. rewrite andb_true_r. apply andb_comm.
Qed.

(* ====================================================================== *)
(** * Facts about characters, by enumeration of the 256 bytes *)
(* ====================================================================== *)


Lemma forallb_map (q : ascii -> bool) (f : ascii -> ascii) (s : Str) :
  forallb q (map f s) = forallb (fun c => q (f c)) s.
Proof. induction s as [|c s IH]; simpl; congruence. Qed.

Lemma lower_char_not_upper (c : ascii) : is_upper (lower_char c) = false.
Proof. each_char. Qed.

Lemma lower_char_id (c : ascii) : is_upper c = false -> lower_char c = c.
Proof. each_char. Qed.

Lemma ascii_lowercase_id (s : Str) :
  forallb (fun c => negb (is_upper c)) s = true -> ascii_lowercase s = s.
Proof.
  induction s as [|c s IH]; simpl; auto. intros H.
  apply andb_prop in H as [Hc H]. apply negb_true_iff in Hc.
  now rewrite lower_char_id, IH.
Qed.

Lemma ascii_lowercase_idem (s : Str) : ascii_lowercase (ascii_lowercase s) = ascii_lowercase s.
Proof.
  apply ascii_lowercase_id. unfold ascii_lowercase. rewrite forallb_map.
  apply forallb_forall. intros c _. now rewrite lower_char_not_upper.
Qed.

(** ** Percent-encoding *)

Lemma percent_encode_id (inset : ascii -> bool) (s : Str) :
  forallb (fun c => negb (inset c)) s = true -> percent_encode inset s = s.
Proof.
  induction s as [|c s IH]; simpl; auto. intros H.
  apply andb_prop in H as [Hc H]. apply negb_true_iff in Hc.
  unfold percent_encode in *. simpl. now rewrite Hc, IH.
Qed.

Lemma percent_encode_forallb (inset pre q : ascii -> bool) (s : Str) :
  (forall c, pre c = true ->
     forallb q (if inset c then percent_byte c else [c]) = true) ->
  forallb pre s = true ->
  forallb q (percent_encode inset s) = true.
Proof.
  intros Hq. induction s as [|c s IH]; simpl; auto. intros H.
  apply andb_prop in H as [Hc H]. unfold percent_encode in *. simpl.
  rewrite forallb_app, (Hq c Hc), IH; auto.
Qed.

Lemma percent_encode_app (inset : ascii -> bool) (a b : Str) :
  percent_encode inset (a ++ b)
  = percent_encode inset a ++ percent_encode inset b.
Proof. unfold percent_encode. apply flat_map_app. Qed.

Lemma percent_encode_nil (inset : ascii -> bool) (s : Str) :
  percent_encode inset s = [] -> s = [].
Proof.
  destruct s as [|c s]; auto. unfold percent_encode. simpl.
  destruct (inset c); discriminate.
Qed.

Lemma percent_decode_id (s : Str) :
  forallb (fun c => negb (is_char "%" c)) s = true -> percent_decode s = s.
Proof.
  induction s as [|c s IH]; simpl; auto. intros H.
  apply andb_prop in H as [Hc H]. apply negb_true_iff in Hc.
  now rewrite Hc, IH.
Qed.

(** ** UTF-8 *)

Lemma utf8_decode_ascii (s : Str) :
  forallb is_ascii_byte s = true -> utf8_decode s = s.
Proof.
  unfold utf8_decode. induction s as [|c s IH]; simpl; auto. intros H.
  apply andb_prop in H as [Hc H]. unfold utf8_start. rewrite Hc. simpl.
  now rewrite IH.
Qed.

(** ** The scheme *)

Lemma lower_scheme_first (c : ascii) :
  is_alpha c = true -> is_lower (lower_char c) = true.
Proof. each_char. Qed.

Lemma lower_scheme_rest (c : ascii) :
  is_scheme_char c = true -> lower_scheme_char (lower_char c) = true.
Proof. each_char. Qed.

Lemma lower_scheme_char_facts (c : ascii) :
  lower_scheme_char c = true ->
  is_scheme_char c = true /\ is_upper c = false /\ is_char ":" c = false.
Proof. each_char. Qed.

Lemma is_lower_facts (c : ascii) :
  is_lower c = true ->
  is_alpha c = true /\ is_upper c = false /\ lower_scheme_char c = true.
Proof. each_char. Qed.

Lemma parse_scheme_spec (s sch rest : Str) :
  parse_scheme s = Some (sch, rest) ->
  wf_scheme sch = true
  /\ exists raw, s = raw ++ ":"%char :: rest /\ sch = ascii_lowercase raw
                 /\ raw <> [].
Proof.
  unfold parse_scheme. destruct s as [|c r]; [discriminate|].
  destruct (is_alpha c) eqn:Ec; [|discriminate].
  destruct (span is_scheme_char r) as [body [|k rest']] eqn:Es;
    [discriminate|].
  destruct (is_char ":" k) eqn:Ek; [|discriminate].
  intros H. injection H as <- <-.
  destruct (span_spec _ _ _ _ Es) as (-> & Hb & _).
  apply Ascii.eqb_eq in Ek. subst k. split.
  - unfold wf_scheme, ascii_lowercase. cbn [map].
    rewrite (lower_scheme_first _ Ec). cbn [andb].
    rewrite forallb_map. revert Hb. apply forallb_impl.
    apply lower_scheme_rest.
  - exists (c :: body). repeat split; auto. discriminate.
Qed.

Lemma wf_scheme_lower (sch : Str) :
  wf_scheme sch = true -> forallb lower_scheme_char sch = true.
Proof.
  destruct sch as [|c r]; [discriminate|]. simpl. intros H.
  apply andb_prop in H as [Hc ->].
  destruct (is_lower_facts _ Hc) as (_ & _ & ->). reflexivity.
Qed.

Lemma parse_scheme_serial (sch rest : Str) :
  wf_scheme sch = true ->
  parse_scheme (sch ++ ":"%char :: rest) = Some (sch, rest).
Proof.
  intros H. pose proof (wf_scheme_lower _ H) as Hall.
  destruct sch as [|c r]; [discriminate|]. simpl in *.
  apply andb_prop in H as [Hc Hr].
  destruct (is_lower_facts _ Hc) as (-> & Hu & _).
  rewrite span_stop; [| |reflexivity].
  - simpl. rewrite lower_char_id by auto. f_equal. f_equal. f_equal.
    apply ascii_lowercase_id. revert Hr. apply forallb_impl.
    intros x Hx. destruct (lower_scheme_char_facts _ Hx) as (_ & -> & _).
    reflexivity.
  - revert Hr. apply forallb_impl. intros x Hx.
    now destruct (lower_scheme_char_facts _ Hx).
Qed.

(* ====================================================================== *)
(** * Decimal numbers in ports and IPv4 addresses *)
(* ====================================================================== *)

Lemma is_digit_facts (c : ascii) :
  is_digit c = true ->
  is_dot c = false /\ is_char "%" c = false /\ is_ascii_byte c = true
  /\ is_upper c = false /\ forbidden_domain c = false
  /\ is_char "[" c = false /\ is_char ":" c = false
  /\ is_char "@" c = false /\ is_char "/" c = false
  /\ is_char "\" c = false /\ solid c = true /\ not_qf c = true
  /\ is_tab_or_newline c = false.
Proof. each_char; repeat split; reflexivity. Qed.

Lemma below_in_seq (n bound : N) :
  (n < bound)%N -> In n (map N.of_nat (seq 0 (N.to_nat bound))).
Proof.
  intros H. apply in_map_iff. exists (N.to_nat n). split.
  - apply N2Nat.id.
  - apply in_seq. lia.
Qed.

Lemma uint_digits (d : Decimal.uint) :
  forallb is_digit (str (NilEmpty.string_of_uint d)) = true.
Proof. induction d; cbn [NilEmpty.string_of_uint str list_ascii_of_string
                         forallb]; auto. Qed.

Lemma uint_fold (d : Decimal.uint) (acc : N) :
  fold_left (fun a c => a * 10 + (code c - 48))%N
            (str (NilEmpty.string_of_uint d)) acc
  = uint_value d acc.
Proof.
  revert acc. induction d; intros acc;
    cbn [NilEmpty.string_of_uint str list_ascii_of_string fold_left
         uint_value]; auto; apply IHd.
Qed.

Lemma uint_value_acc (d : Decimal.uint) (p : positive) :
  uint_value d (N.pos p) = N.pos (Pos.of_uint_acc d p).
Proof.
  revert p. induction d; intros p; cbn [uint_value Pos.of_uint_acc]; auto;
    rewrite <- IHd; f_equal; lia.
Qed.

Lemma uint_value_of_uint (d : Decimal.uint) : uint_value d 0 = N.of_uint d.
Proof.
  unfold N.of_uint.
  induction d; cbn [uint_value Pos.of_uint]; auto;
    change (0 * 10 + 0)%N with 0%N; auto; apply uint_value_acc.
Qed.

Lemma nilzero_cases (d : Decimal.uint) :
  NilZero.string_of_uint d = NilEmpty.string_of_uint d /\ d <> Decimal.Nil
  \/ d = Decimal.Nil.
Proof. destruct d; auto; left; split; auto; discriminate. Qed.

(** Printing a number and reading it back. *)
Lemma dec_port (p : N) :
  (p <= 65535)%N ->
  forallb is_digit (dec p) = true /\ dec p <> []
  /\ dec_value (dec p) = p.
Proof.
  intros _. unfold dec, dec_value.
  destruct (nilzero_cases (N.to_uint p)) as [[E Hne]|E].
  - rewrite E. repeat split.
    + apply uint_digits.
    + destruct (N.to_uint p); try congruence; discriminate.
    + rewrite uint_fold, uint_value_of_uint. apply DecimalN.Unsigned.of_to.
  - rewrite E. repeat split; try discriminate.
    rewrite <- (DecimalN.Unsigned.of_to p), E. reflexivity.
Qed.

Lemma octet_check_all :
  forallb octet_check (map N.of_nat (seq 0 (N.to_nat 256))) = true.
Proof. vm_compute. reflexivity. Qed.

(** Printing an octet and reading it back as an IPv4 number. *)
Lemma dec_octet (o : N) :
  (o < 256)%N ->
  forallb is_digit (dec o) = true /\ dec o <> []
  /\ ipv4_number (dec o) = Some o.
Proof.
  intros H. pose proof octet_check_all as A.
  rewrite forallb_forall in A.
  specialize (A o (below_in_seq o 256 H)).
  unfold octet_check in A.
  apply andb_prop in A as [A C]. apply andb_prop in A as [A B].
  repeat split; auto.
  - now apply nonempty_true.
  - destruct (ipv4_number (dec o)); [|discriminate].
    apply N.eqb_eq in C. now subst.
Qed.

Lemma digits_no_dot (s : Str) :
  forallb is_digit s = true ->
  forallb (fun x => negb (is_dot x)) s = true.
Proof.
  apply forallb_impl. intros c Hc.
  destruct (is_digit_facts _ Hc) as (-> & _). reflexivity.
Qed.

Lemma last_cons_cons {A} (a b : A) (l : list A) (d : A) :
  last (a :: b :: l) d = last (b :: l) d.
Proof. reflexivity. Qed.

Lemma ipv4_octets (n : N) :
  (n < 4294967296)%N ->
  (ip_a n < 256 /\ ip_b n < 256 /\ ip_c n < 256 /\ ip_d n < 256)%N
  /\ (((ip_a n * 256 + ip_b n) * 256 + ip_c n) * 256 + ip_d n = n)%N.
Proof.
  intros n_small. unfold ip_a, ip_b, ip_c, ip_d. split.
  - repeat split; try (apply N.mod_lt; discriminate).
    apply N.Div0.div_lt_upper_bound. lia.
  - assert (E1 : (n / 65536 = n / 256 / 256)%N)
      by (rewrite N.Div0.div_div; reflexivity).
    assert (E2 : (n / 16777216 = n / 256 / 256 / 256)%N)
      by (rewrite !N.Div0.div_div; reflexivity).
    rewrite E1, E2.
    pose proof (N.div_mod n 256 ltac:(discriminate)).
    pose proof (N.div_mod (n / 256) 256 ltac:(discriminate)).
    pose proof (N.div_mod (n / 256 / 256) 256 ltac:(discriminate)).
    lia.
Qed.

Lemma ipv4_serialize_split (n : N) :
  (n < 4294967296)%N ->
  split_on is_dot (ipv4_serialize n)
  = [dec (ip_a n); dec (ip_b n); dec (ip_c n); dec (ip_d n)].
Proof.
  intros n_small.
  destruct (ipv4_octets n n_small) as ((Ha & Hb & Hc & Hd) & _).
  destruct (dec_octet _ Ha) as (Da & _).
  destruct (dec_octet _ Hb) as (Db & _).
  destruct (dec_octet _ Hc) as (Dc & _).
  destruct (dec_octet _ Hd) as (Dd & _).
  unfold ipv4_serialize.
  fold (ip_a n) (ip_b n) (ip_c n) (ip_d n). cbn [app].
  rewrite split_on_stop by (auto using digits_no_dot).
  rewrite split_on_stop by (auto using digits_no_dot).
  rewrite split_on_stop by (auto using digits_no_dot).
  rewrite split_on_none by (auto using digits_no_dot).
  reflexivity.
Qed.

Lemma ipv4_serialize_digits (n : N) :
  (n < 4294967296)%N ->
  forallb (fun x => is_digit x || is_dot x) (ipv4_serialize n) = true
  /\ match ipv4_serialize n with
     | x :: _ => is_digit x = true
     | [] => False
     end.
Proof.
  intros n_small.
  destruct (ipv4_octets n n_small) as ((Ha & Hb & Hc & Hd) & _).
  destruct (dec_octet _ Ha) as (Da & Na & _).
  destruct (dec_octet _ Hb) as (Db & _).
  destruct (dec_octet _ Hc) as (Dc & _).
  destruct (dec_octet _ Hd) as (Dd & _).
  assert (W : forall s, forallb is_digit s = true ->
              forallb (fun x => is_digit x || is_dot x) s = true).
  { intros s. apply forallb_impl. intros x ->. reflexivity. }
  unfold ipv4_serialize.
  fold (ip_a n) (ip_b n) (ip_c n) (ip_d n). split.
  - rewrite !forallb_app. cbn [forallb].
    rewrite !W by assumption. reflexivity.
  - destruct (dec (ip_a n)) as [|x t]; [congruence|]. simpl in Da.
    cbn [app]. now apply andb_prop in Da as [-> _].
Qed.

Lemma ends_in_number_serialize (n : N) :
  (n < 4294967296)%N -> ends_in_number (ipv4_serialize n) = true.
Proof.
  intros n_small.
  destruct (ipv4_octets n n_small) as ((Ha & Hb & Hc & Hd) & _).
  destruct (dec_octet _ Hd) as (Dd & Nd & _).
  unfold ends_in_number. rewrite ipv4_serialize_split by assumption.
  cbn [last]. destruct (dec (ip_d n)) as [|x t] eqn:E; [congruence|].
  cbn [last nonempty andb]. rewrite Dd. reflexivity.
Qed.

Lemma ipv4_parse_serialize (n : N) :
  (n < 4294967296)%N -> ipv4_parse (ipv4_serialize n) = Some n.
Proof.
  intros n_small.
  destruct (ipv4_octets n n_small) as ((Ha & Hb & Hc & Hd) & Hn).
  destruct (dec_octet _ Ha) as (_ & _ & Pa).
  destruct (dec_octet _ Hb) as (_ & _ & Pb).
  destruct (dec_octet _ Hc) as (_ & _ & Pc).
  destruct (dec_octet _ Hd) as (_ & Nd & Pd).
  unfold ipv4_parse, ipv4_parts. rewrite ipv4_serialize_split by assumption.
  cbn [last]. destruct (dec (ip_d n)) as [|x t] eqn:E; [congruence|].
  rewrite <- E in Pd |- *. cbn [length Nat.ltb Nat.leb map sequence].
  rewrite Pa, Pb, Pc, Pd. cbn [sequence option_map removelast last length
    existsb fold_left].
  assert (Ea : N.ltb 255 (ip_a n) = false) by (apply N.ltb_ge; lia).
  assert (Eb : N.ltb 255 (ip_b n) = false) by (apply N.ltb_ge; lia).
  assert (Ec : N.ltb 255 (ip_c n) = false) by (apply N.ltb_ge; lia).
  rewrite Ea, Eb, Ec. cbn [orb].
  change (256 ^ (5 - N.of_nat 4))%N with 256%N.
  change (256 ^ (4 - N.of_nat 3))%N with 256%N.
  assert (Ed : N.leb 256 (ip_d n) = false) by (apply N.leb_gt; lia).
  rewrite Ed. f_equal. lia.
Qed.


(* ====================================================================== *)
(** * UTF-8 decoding is idempotent *)
(* ====================================================================== *)

Lemma prefix_stable_nil : prefix_stable [].
Proof. intros rest. reflexivity. Qed.

Lemma prefix_stable_app (a b : Str) :
  prefix_stable a -> prefix_stable b -> prefix_stable (a ++ b).
Proof.
  intros Ha Hb rest. rewrite <- !app_assoc. now rewrite Ha, Hb.
Qed.

Lemma prefix_stable_replacement : prefix_stable replacement.
Proof. intros rest. reflexivity. Qed.

Lemma prefix_stable_ascii (c : ascii) :
  is_ascii_byte c = true -> prefix_stable [c].
Proof.
  intros H rest. cbn [app utf8_run utf8_step]. unfold utf8_start.
  now rewrite H.
Qed.

Lemma utf8_lead_spec (c : ascii) (n : nat) (lo hi : N) :
  utf8_lead c = Some (n, lo, hi) ->
  is_ascii_byte c = false /\ (n = 1 \/ n = 2 \/ n = 3).
Proof.
  intros H. split.
  - revert H. generalize (n, lo, hi). each_char.
  - unfold utf8_lead in H.
    destruct (in_range 194 223 c); [injection H as <- _ _; auto|].
    destruct (in_range 224 239 c); [injection H as <- _ _; auto|].
    destruct (in_range 240 244 c); [injection H as <- _ _; auto|].
    discriminate.
Qed.

(** A lead byte followed by the continuation it asks for is decoded to
    itself. *)
Lemma lead_stable (c : ascii) (n : nat) (lo hi : N) (tail : Str) :
  utf8_lead c = Some (n, lo, hi) ->
  continuation_ok n lo hi tail ->
  prefix_stable (c :: tail).
Proof.
  intros Hl [Hlen Ht] rest.
  destruct (utf8_lead_spec _ _ _ _ Hl) as (Ha & Hn).
  cbn [app utf8_run utf8_step]. unfold utf8_start. rewrite Ha, Hl.
  cbn [app].
  destruct tail as [|t1 tail]; [contradiction|]. destruct Ht as [H1 Hr].
  cbn [app utf8_run utf8_step]. rewrite H1.
  destruct Hn as [E | [E | E]]; rewrite E in *.
  - destruct tail; [|discriminate]. reflexivity.
  - destruct tail as [|t2 [|? ?]]; try discriminate.
    cbn [forallb] in Hr. apply andb_prop in Hr as [H2 _].
    cbn [app utf8_run utf8_step]. rewrite H2. reflexivity.
  - destruct tail as [|t2 [|t3 [|? ?]]]; try discriminate.
    cbn [forallb] in Hr. apply andb_prop in Hr as [H2 Hr].
    apply andb_prop in Hr as [H3 _].
    cbn [app utf8_run utf8_step]. rewrite H2.
    cbn [app utf8_run utf8_step]. rewrite H3. reflexivity.
Qed.

Lemma utf8_start_ok (c : ascii) :
  prefix_stable (fst (utf8_start c)) /\ utf8_state_ok (snd (utf8_start c)).
Proof.
  unfold utf8_start. destruct (is_ascii_byte c) eqn:Ea.
  - split; [now apply prefix_stable_ascii|exact I].
  - destruct (utf8_lead c) as [[[n lo] hi]|] eqn:El.
    + split; [apply prefix_stable_nil|]. cbn [snd utf8_state_ok].
      destruct (utf8_lead_spec _ _ _ _ El) as (_ & Hn). split; [lia|].
      intros tail Ht. now apply (lead_stable c n lo hi).
    + split; [apply prefix_stable_replacement|exact I].
Qed.

Lemma utf8_step_ok (st : Utf8State) (c : ascii) :
  utf8_state_ok st ->
  prefix_stable (fst (utf8_step st c))
  /\ utf8_state_ok (snd (utf8_step st c)).
Proof.
  intros Hst. destruct st as [|seen n lo hi]; [apply utf8_start_ok|].
  destruct Hst as [Hn Hst]. cbn [utf8_step].
  destruct (in_range lo hi c) eqn:Er.
  - destruct n as [|[|n']]; [congruence| |].
    + split; [|exact I]. cbn [fst]. apply Hst. split; [reflexivity|].
      now rewrite Er.
    + split; [apply prefix_stable_nil|]. cbn [snd utf8_state_ok].
      split; [discriminate|]. intros tail [Hlen Ht].
      rewrite <- app_assoc. apply Hst. split.
      * cbn [app length]. now rewrite Hlen.
      * cbn [app]. split; [exact Er|].
        destruct tail as [|t1 tail]; [contradiction|].
        cbn [forallb]. destruct Ht as [E1 E2]. now rewrite E1, E2.
  - destruct (utf8_start_ok c) as [H1 H2].
    destruct (utf8_start c) as [out st']. cbn [fst snd] in *. split; auto.
    apply prefix_stable_app; auto using prefix_stable_replacement.
Qed.

Lemma utf8_run_stable (s : Str) (st : Utf8State) :
  utf8_state_ok st -> prefix_stable (utf8_run st s).
Proof.
  revert st. induction s as [|c r IH]; intros st Hst.
  - destruct st; [apply prefix_stable_nil|apply prefix_stable_replacement].
  - cbn [utf8_run]. destruct (utf8_step_ok st c Hst) as [H1 H2].
    destruct (utf8_step st c) as [out st']. cbn [fst snd] in *.
    apply prefix_stable_app; auto.
Qed.

(** Decoding what was decoded changes nothing. *)
Lemma utf8_decode_idem (s : Str) : utf8_stable (utf8_decode s).
Proof.
  unfold utf8_stable, utf8_decode.
  pose proof (utf8_run_stable s Idle I [])  as H.
  rewrite app_nil_r in H. rewrite H. cbn [utf8_run]. apply app_nil_r.
Qed.

(* ====================================================================== *)
(** * Form encoding: parsing what was serialized *)
(* ====================================================================== *)

Lemma form_encode_chunks (s : Str) : form_encode s = flat_map form_chunk s.
Proof. reflexivity. Qed.

Lemma form_chunk_decode (c : ascii) (rest : Str) :
  percent_decode (map plus_to_space (form_chunk c) ++ rest)
  = c :: percent_decode rest.
Proof.
  destruct c as [[] [] [] [] [] [] [] []]; reflexivity.
Qed.

Lemma form_chunk_chars (c : ascii) : forallb form_char (form_chunk c) = true.
Proof. each_char. Qed.

Lemma percent_decode_form (s : Str) :
  percent_decode (map plus_to_space (form_encode s)) = s.
Proof.
  rewrite form_encode_chunks. induction s as [|c s IH]; [reflexivity|].
  cbn [flat_map]. rewrite map_app, form_chunk_decode. now rewrite IH.
Qed.

Lemma form_decode_encode (s : Str) : form_decode (form_encode s) = utf8_decode s.
Proof. unfold form_decode. now rewrite percent_decode_form. Qed.

Lemma form_encode_chars (s : Str) : forallb form_char (form_encode s) = true.
Proof.
  rewrite form_encode_chunks. induction s as [|c s IH]; [reflexivity|].
  cbn [flat_map]. now rewrite forallb_app, form_chunk_chars.
Qed.

Lemma form_char_facts (c : ascii) :
  form_char c = true ->
  is_char "&" c = false /\ is_char "=" c = false
  /\ special_query_set c = false /\ query_set c = false.
Proof. each_char; repeat split; reflexivity. Qed.

Lemma form_encode_no (k : ascii) (s : Str) :
  (forall c, form_char c = true -> is_char k c = false) ->
  forallb (fun c => negb (is_char k c)) (form_encode s) = true.
Proof.
  intros H. pose proof (form_encode_chars s) as Hc. revert Hc.
  apply forallb_impl. intros c Hx. now rewrite H.
Qed.

Lemma form_pair_no_amp (p : Str * Str) :
  forallb (fun c => negb (is_char "&" c)) (form_pair p) = true.
Proof.
  unfold form_pair. rewrite !forallb_app. cbn [forallb].
  rewrite !form_encode_no; auto; intros c Hc;
    now destruct (form_char_facts _ Hc).
Qed.

Lemma form_parse_pair_serial (p : Str * Str) :
  form_parse_pair (form_pair p) = (utf8_decode (fst p), utf8_decode (snd p)).
Proof.
  unfold form_parse_pair, form_pair. cbn [app].
  rewrite break_at_stop; [|apply form_encode_no|reflexivity].
  - now rewrite !form_decode_encode.
  - intros c Hc. now destruct (form_char_facts _ Hc) as (_ & -> & _).
Qed.

Lemma split_form (p : Str * Str) (l : Params) :
  split_on (is_char "&")
           (form_pair p ++ flat_map (fun q => "&"%char :: form_pair q) l)
  = map form_pair (p :: l).
Proof.
  revert p. induction l as [|q l IH]; intros p; cbn [flat_map map].
  - rewrite app_nil_r. apply split_on_none, form_pair_no_amp.
  - cbn [app]. rewrite split_on_stop;
      [|apply form_pair_no_amp|reflexivity].
    f_equal. apply IH.
Qed.

Lemma filter_nonempty_pairs (l : Params) :
  filter nonempty (map form_pair l) = map form_pair l.
Proof.
  induction l as [|p l IH]; [reflexivity|]. cbn [map filter].
  pose proof (form_pair_nonempty p) as H.
  destruct (form_pair p) eqn:E; [congruence|]. cbn [nonempty].
  now rewrite IH.
Qed.

(** Parsing what the serializer wrote gives the pairs back, decoded. *)
Lemma form_parse_serialize (l : Params) :
  form_parse (form_serialize l)
  = map (fun p => (utf8_decode (fst p), utf8_decode (snd p))) l.
Proof.
  unfold form_parse. destruct l as [|p l]; [reflexivity|].
  rewrite form_serialize_cons, split_form, filter_nonempty_pairs.
  rewrite map_map. apply map_ext. intros q. apply form_parse_pair_serial.
Qed.

Lemma form_parse_stable (input : Str) : Forall pair_stable (form_parse input).
Proof.
  unfold form_parse. apply Forall_forall. intros p Hp.
  apply in_map_iff in Hp as (bytes & <- & _).
  unfold form_parse_pair, form_decode.
  destruct (break_at _ bytes) as [name [v|]]; split; cbn [fst snd];
    try apply utf8_decode_idem.
  reflexivity.
Qed.

Lemma URLSearchParams_stable (init : Str) :
  Forall pair_stable (URLSearchParams_new init).
Proof.
  unfold URLSearchParams_new. destruct init as [|c r];
    [|destruct (is_char "?" c)]; apply form_parse_stable.
Qed.

Lemma form_roundtrip (l : Params) :
  Forall pair_stable l -> form_parse (form_serialize l) = l.
Proof.
  intros H. rewrite form_parse_serialize.
  induction H as [|[k v] l [Hk Hv] Hl IH]; [reflexivity|].
  cbn [map fst snd] in *. unfold utf8_stable in *. now rewrite Hk, Hv, IH.
Qed.

Lemma Forall_filter {A} (P : A -> Prop) (f : A -> bool) (l : list A) :
  Forall P l -> Forall P (filter f l).
Proof.
  intros H. apply Forall_forall. intros x Hx. apply filter_In in Hx as [Hx _].
  rewrite Forall_forall in H. auto.
Qed.

(* ====================================================================== *)
(** * [decodeURIComponent]: the fuel *)
(* ====================================================================== *)

Lemma read_pct_length (s r : Str) (b : ascii) :
  read_pct s = Some (b, r) -> length s = 3 + length r.
Proof.
  unfold read_pct. destruct s as [|c [|h [|l t]]]; try discriminate.
  destruct (is_char "%" c); [|discriminate].
  destruct (hex_value h); [|discriminate].
  destruct (hex_value l); [|discriminate].
  intros [= _ <-]. reflexivity.
Qed.

Lemma read_pcts_length (n : nat) (s r bs : Str) :
  read_pcts n s = Some (bs, r) -> length r <= length s.
Proof.
  revert s r bs. induction n as [|n IH]; intros s r bs; cbn [read_pcts].
  - intros [= _ <-]. lia.
  - destruct (read_pct s) as [[b t]|] eqn:E; [|discriminate].
    destruct (read_pcts n t) as [[bs' r']|] eqn:E2; [|discriminate].
    intros [= _ <-]. apply read_pct_length in E. apply IH in E2. lia.
Qed.

(** With fuel for every character of the input, more fuel changes
    nothing: [decodeURIComponent] is the decoder run to its end. *)
Lemma decode_uri_fuel (n m : nat) (s : Str) :
  length s <= n -> length s <= m -> decode_uri n s = decode_uri m s.
Proof.
  revert m s. induction n as [|n IH]; intros m s Hn Hm.
  - destruct s; [|simpl in Hn; lia]. now destruct m.
  - destruct m as [|m]; [destruct s; [reflexivity|simpl in Hm; lia]|].
    cbn [decode_uri]. destruct s as [|c t]; [reflexivity|].
    cbn [length] in Hn, Hm.
    destruct (is_char "%" c).
    + destruct (read_pct (c :: t)) as [[b r]|] eqn:E; [|reflexivity].
      apply read_pct_length in E. cbn [length] in E.
      destruct (leading_ones b) as [|[|k]].
      * rewrite (IH m r) by lia. reflexivity.
      * reflexivity.
      * destruct k as [|[|[|k]]]; try reflexivity;
          (destruct (read_pcts _ r) as [[bs r']|] eqn:E2; [|reflexivity];
           apply read_pcts_length in E2;
           destruct (valid_utf8_octets (b :: bs)); [|reflexivity];
           rewrite (IH m r') by lia; reflexivity).
    + rewrite (IH m t) by lia. reflexivity.
Qed.

(* ====================================================================== *)
(** * Completions *)
(* ====================================================================== *)

Lemma try_catch_total {A} (c : Completion A) (h : JsError -> A) :
  exists a, try_catch c (fun e => Normal (h e)) = Normal a.
Proof. destruct c; simpl; eauto. Qed.

Lemma isValidUrl_spec (s : Str) :
  isValidUrl s
  = Normal (match new_URL s with Normal _ => true | Throw _ => false end).
Proof. unfold isValidUrl. destruct (new_URL s); reflexivity. Qed.

Lemma cleanHashFragment_total (h : Str) :
  exists r, cleanHashFragment h = Normal r.
Proof.
  unfold cleanHashFragment.
  destruct (negb (nonempty h)); eauto.
  destruct (decodeURIComponent h); eauto.
  destruct (startsWith a (str "/")); eauto.
  destruct (looksLikeMalformedTracking h a); eauto.
  destruct (re_anchor_query a); eauto.
  destruct (negb (includes a (str "="))); eauto.
  cbn [try_catch].
  destruct (negb _); simpl; eauto.
Qed.

(* ====================================================================== *)
(** * The loops are filters *)
(* ====================================================================== *)

Lemma clean_loop_fold (l : Params) (st : CleanLoop) :
  fold_left clean_loop_body l st =
  mkCleanLoop (cleanedParams st ++ filter kept_entry l)
              (removedSoFar st ++ map to_removed (filter tracking_entry l)).
Proof.
  revert st. induction l as [|[k v] l IH]; intros st; simpl.
  - destruct st; simpl. now rewrite !app_nil_r.
  - rewrite IH. unfold kept_entry, tracking_entry, params_append. simpl.
    destruct (isTrackingParam k); simpl; now rewrite <- ?app_assoc.
Qed.

Lemma hash_loop_fold (l : Params) (st : HashLoop) :
  fold_left hash_loop_body l st =
  mkHashLoop (cleanedHashParams st ++ filter kept_entry l)
             (hasAnyTrackingParam st || existsb tracking_entry l).
Proof.
  revert st. induction l as [|[k v] l IH]; intros st; simpl.
  - destruct st; simpl. now rewrite app_nil_r, orb_false_r.
  - rewrite IH. unfold kept_entry, tracking_entry, params_append. simpl.
    destruct (isTrackingParam k); simpl.
    + now rewrite orb_true_r.
    + now rewrite <- app_assoc.
Qed.



Lemma filter_length_existsb {A} (f : A -> bool) (l : list A) :
  Nat.ltb 0 (length (filter f l)) = existsb f l.
Proof.
  induction l as [|a l IH]; [reflexivity|].
  cbn [filter existsb]. destruct (f a); [reflexivity|]. exact IH.
Qed.

(* ====================================================================== *)
(** * The text of the kept parameters and the setters *)
(* ====================================================================== *)

Lemma query_char (special : bool) (c : ascii) :
  forallb (fun x => negb ((if special then special_query_set
                           else query_set) x))
          (if (if special then special_query_set else query_set) c
           then percent_byte c else [c]) = true.
Proof. each_char. Qed.

Lemma query_encode_wf (sch q : Str) :
  forallb (query_ok sch) (query_encode sch q) = true.
Proof.
  unfold query_encode, query_ok.
  apply percent_encode_forallb with (pre := fun _ => true).
  - intros c _. apply query_char.
  - apply forallb_forall. auto.
Qed.

Lemma fragment_char (c : ascii) :
  forallb fragment_ok (if fragment_set c then percent_byte c else [c]) = true.
Proof. each_char. Qed.

Lemma fragment_encode_wf (f : Str) :
  forallb fragment_ok (percent_encode fragment_set f) = true.
Proof.
  apply percent_encode_forallb with (pre := fun _ => true).
  - intros c _. apply fragment_char.
  - apply forallb_forall. auto.
Qed.

Lemma form_char_text (c : ascii) : form_char c = true -> form_text c = true.
Proof. unfold form_text. now intros ->. Qed.

Lemma form_pair_text (p : Str * Str) : forallb form_text (form_pair p) = true.
Proof.
  unfold form_pair. rewrite !forallb_app. cbn [forallb].
  assert (H : forall s, forallb form_text (form_encode s) = true).
  { intros s. pose proof (form_encode_chars s) as Hc. revert Hc.
    apply forallb_impl, form_char_text. }
  now rewrite !H.
Qed.

Lemma form_serialize_text (l : Params) :
  forallb form_text (form_serialize l) = true.
Proof.
  destruct l as [|p l]; [reflexivity|]. rewrite form_serialize_cons.
  rewrite forallb_app, form_pair_text. cbn [andb].
  induction l as [|q l IH]; [reflexivity|].
  cbn [flat_map app forallb]. rewrite forallb_app, form_pair_text, IH.
  reflexivity.
Qed.

Lemma form_text_facts (c : ascii) :
  form_text c = true ->
  is_char "?" c = false /\ is_tab_or_newline c = false
  /\ special_query_set c = false /\ query_set c = false.
Proof. each_char; repeat split; reflexivity. Qed.

(** The search setter stores the text of the parameters as it is. *)
Lemma search_setter_text (sch text : Str) :
  forallb form_text text = true ->
  query_encode sch (remove_tab_newline (strip_leading "?" text)) = text.
Proof.
  intros H.
  assert (E1 : strip_leading "?" text = text).
  { destruct text as [|c t]; [reflexivity|]. cbn [forallb] in H.
    apply andb_prop in H as [Hc _]. cbn [strip_leading].
    now destruct (form_text_facts _ Hc) as (-> & _). }
  rewrite E1. unfold remove_tab_newline. rewrite filter_id.
  - unfold query_encode. apply percent_encode_id. revert H.
    apply forallb_impl. intros c Hc.
    destruct (form_text_facts _ Hc) as (_ & _ & E2 & E3).
    destruct (is_special sch); now rewrite ?E2, ?E3.
  - revert H. apply forallb_impl. intros c Hc.
    now destruct (form_text_facts _ Hc) as (_ & -> & _).
Qed.

Lemma form_serialize_nil (l : Params) : form_serialize l = [] -> l = [].
Proof.
  destruct l as [|p l]; [reflexivity|]. intros E.
  pose proof (form_serialize_nonempty p l) as H. now rewrite E in H.
Qed.


(* ====================================================================== *)
(** * The URL object that [cleanUrl] rebuilds *)
(* ====================================================================== *)

(** What [rebuild] does: it fails as [new URL] does on the origin
    followed by the path name, and otherwise returns the record of that
    text with the text of the kept parameters as its query, when there is
    one, and the cleaned fragment as its fragment, when there is one. *)
Lemma rebuild_eq (url : URLRecord) (kept : Params) :
  rebuild url kept
  = match new_URL (url_origin url ++ url_pathname url) with
    | Throw e => Throw e
    | Normal u0 =>
        Normal (with_query_fragment u0 (rebuilt_query u0 kept)
                  match rebuilt_fragment url with
                  | Some f => Some f
                  | None => fragment u0
                  end)
    end.
Proof.
  unfold rebuild.
  destruct (new_URL (url_origin url ++ url_pathname url)) as [u0|e];
    [|reflexivity].
  cbn [bind].
  assert (Eq : (if nonempty (form_serialize kept)
                then url_set_search u0 (form_serialize kept) else u0)
               = with_query_fragment u0 (rebuilt_query u0 kept) (fragment u0)).
  { unfold rebuilt_query, url_set_search.
    pose proof (form_serialize_text kept) as Ht.
    destruct (form_serialize kept) as [|c t] eqn:E; cbn [nonempty].
    - now destruct u0.
    - rewrite (search_setter_text _ _ Ht). reflexivity. }
  rewrite Eq. clear Eq. unfold rebuilt_fragment.
  destruct (nonempty (url_hash url)); [|reflexivity].
  destruct (cleanHashFragment_total (slice1 (url_hash url))) as [r ->].
  cbn [bind]. destruct r as [[|c h]|]; reflexivity.
Qed.

(** The fragment that [cleanUrl] writes is one the parser would keep. *)
Lemma rebuilt_fragment_wf (url : URLRecord) :
  wf_opt fragment_ok (rebuilt_fragment url) = true.
Proof.
  unfold rebuilt_fragment.
  destruct (nonempty (url_hash url)); [|reflexivity].
  destruct (cleanHashFragment _) as [[h|]|]; try reflexivity.
  destruct (nonempty h); [|reflexivity].
  apply fragment_encode_wf.
Qed.

(* ====================================================================== *)
(** * The result record of [cleanUrl] *)
(* ====================================================================== *)

Lemma cleanUrl_not_string (v : JsValue) :
  match v with JsString (_ :: _) => False | _ => True end ->
  cleanUrl v = Normal (failure msg_not_string v).
Proof.
  destruct v as [| | | | |s| |]; try reflexivity.
  destruct s; [reflexivity|contradiction].
Qed.

(** [cleanUrl] on a string that is not empty. *)
Lemma cleanUrl_string (s : Str) :
  s <> [] ->
  cleanUrl (JsString s)
  = Normal
      match new_URL (trim s) with
      | Throw _ => failure msg_not_url (JsString s)
      | Normal url =>
          match rebuild url (filter kept_entry (entries url)) with
          | Normal cu => cleaned s url cu
          | Throw e => failure (msg_processing e) (JsString s)
          end
      end.
Proof.
  intros Hne. destruct s as [|c s]; [congruence|].
  cbn [cleanUrl truthy negb]. rewrite isValidUrl_spec. cbn [bind].
  destruct (new_URL (trim (c :: s))) as [url|]; cbn [negb]; [|reflexivity].
  cbn [bind]. rewrite clean_loop_fold.
  cbn [cleanedParams removedSoFar app]. fold (entries url).
  destruct (rebuild url _) as [cu|e]; cbn [bind try_catch]; [|reflexivity].
  unfold cleaned. now rewrite !length_map.
Qed.

Lemma cleanUrl_total (v : JsValue) : exists r, cleanUrl v = Normal r.
Proof.
  destruct v as [| | | | |s| |];
    try (eexists; apply cleanUrl_not_string; exact I).
  destruct s as [|c s]; [eexists; apply cleanUrl_not_string; exact I|].
  rewrite cleanUrl_string by discriminate. eauto.
Qed.

(** What a successful call computed. *)
Lemma cleanUrl_success (v : JsValue) (r : CleanUrlResult) :
  cleanUrl v = Normal r -> success r = true ->
  exists s url cu,
    v = JsString s /\ s <> []
    /\ new_URL (trim s) = Normal url
    /\ rebuild url (filter kept_entry (entries url)) = Normal cu
    /\ r = cleaned s url cu.
Proof.
  intros H Hs.
  destruct v as [| | | | |s| |];
    try (rewrite cleanUrl_not_string in H by exact I;
         injection H as <-; discriminate).
  destruct s as [|c s];
    [rewrite cleanUrl_not_string in H by exact I;
     injection H as <-; discriminate|].
  rewrite cleanUrl_string in H by discriminate. injection H as <-.
  destruct (new_URL (trim (c :: s))) as [url|] eqn:Hp; [|discriminate].
  destruct (rebuild url _) as [cu|e] eqn:Hr; [|discriminate].
  exists (c :: s), url, cu. repeat split; auto. discriminate.
Qed.

Lemma cleanUrl_failure (v : JsValue) (r : CleanUrlResult) :
  cleanUrl v = Normal r -> success r = false ->
  exists message, r = failure message v.
Proof.
  intros H Hs.
  destruct v as [| | | | |s| |];
    try (rewrite cleanUrl_not_string in H by exact I;
         injection H as <-; eauto).
  destruct s as [|c s];
    [rewrite cleanUrl_not_string in H by exact I;
     injection H as <-; eauto|].
  rewrite cleanUrl_string in H by discriminate. injection H as <-.
  destruct (new_URL (trim (c :: s))) as [url|]; [|eauto].
  destruct (rebuild url _) as [cu|e]; [discriminate|eauto].
Qed.

Lemma cleanUrl_count (v : JsValue) (r : CleanUrlResult) :
  cleanUrl v = Normal r -> removedCount r = length (removedParams r).
Proof.
  intros H. destruct (success r) eqn:Hs.
  - destruct (cleanUrl_success _ _ H Hs) as (s & url & cu & _ & _ & _ & _ & ->).
    reflexivity.
  - destruct (cleanUrl_failure _ _ H Hs) as [m ->]. reflexivity.
Qed.

(* ====================================================================== *)
(** * [analyzeUrl]: the categories partition the removed parameters *)
(* ====================================================================== *)

Lemma Category_eqb_eq (a b : Category) : Category_eqb a b = true <-> a = b.
Proof. destruct a, b; simpl; split; congruence. Qed.

Lemma removed_eta (p : RemovedParam) : mkRemoved (key p) (value p) = p.
Proof. now destruct p. Qed.

(** One step of the [forEach] appends the entry to the array of its
    category and leaves the five others alone. *)
Lemma categorize_array (c : Categories) (p : RemovedParam) (k : Category) :
  cat_array (categorize c p) k =
  cat_array c k ++ (if in_category k p then [p] else []).
Proof.
  unfold categorize, in_category, category_of. rewrite removed_eta.
  destruct (startsWith _ _);
    [|destruct (array_includes social_keys _);
      [|destruct (array_includes ads_keys _);
        [|destruct (array_includes affiliate_keys _);
          [|destruct (array_includes email_keys _)]]]];
    destruct k; simpl; now rewrite ?app_nil_r.
Qed.

Lemma categorize_fold (l : list RemovedParam) (c : Categories) (k : Category) :
  cat_array (fold_left categorize l c) k =
  cat_array c k ++ filter (in_category k) l.
Proof.
  revert c. induction l as [|p l IH]; intros c; simpl.
  - now rewrite app_nil_r.
  - rewrite IH, categorize_array.
    destruct (in_category k p); simpl; now rewrite <- ?app_assoc, ?app_nil_r.
Qed.

Lemma perm_tail_swap {A} (a b : list A) (p : A) :
  Permutation ((a ++ [p]) ++ b) ((a ++ b) ++ [p]).
Proof.
  rewrite <- !app_assoc. apply Permutation_app_head, Permutation_app_comm.
Qed.

Lemma perm_head {A} (a x y : list A) (p : A) :
  Permutation x (y ++ [p]) -> Permutation (a ++ x) ((a ++ y) ++ [p]).
Proof. intros H. rewrite <- app_assoc. now apply Permutation_app_head. Qed.

Lemma categorize_perm (c : Categories) (p : RemovedParam) :
  Permutation (all_arrays (categorize c p)) (all_arrays c ++ [p]).
Proof.
  unfold all_arrays, categorize. rewrite removed_eta.
  destruct (startsWith _ _);
    [|destruct (array_includes social_keys _);
      [|destruct (array_includes ads_keys _);
        [|destruct (array_includes affiliate_keys _);
          [|destruct (array_includes email_keys _)]]]];
    cbn [utm social ads affiliate email analytics];
    repeat first [ apply perm_tail_swap | apply Permutation_refl
                 | apply perm_head ].
Qed.

Lemma categorize_fold_perm (l : list RemovedParam) (c : Categories) :
  Permutation (all_arrays (fold_left categorize l c)) (all_arrays c ++ l).
Proof.
  revert c. induction l as [|p l IH]; intros c; simpl.
  - now rewrite app_nil_r.
  - rewrite IH, categorize_perm, <- app_assoc. reflexivity.
Qed.

(** C2.  When [analyzeUrl] succeeds, each of the six category arrays is
    the sub-list of [removedParams] that the classification sends to it,
    so every removed parameter is in exactly one array, the six arrays
    together are a permutation of [removedParams], each summary field is
    the length of its array and the six counts add up to [removedCount]. *)
Theorem C2_categories_partition (url : JsValue) (a : AnalyzeUrlResult) :
  analyzeUrl url = Normal a ->
  success (result a) = true ->
  let removed := removedParams (result a) in
  let c := categories a in
  (forall k, cat_array c k = filter (in_category k) removed)
  /\ (forall p, In p removed ->
        forall k, In p (cat_array c k) <-> k = category_of (key p))
  /\ Permutation (all_arrays c) removed
  /\ summary a = mkSummary (length (utm c)) (length (social c))
                           (length (ads c)) (length (affiliate c))
                           (length (email c)) (length (analytics c))
  /\ n_utm (summary a) + n_social (summary a) + n_ads (summary a)
     + n_affiliate (summary a) + n_email (summary a)
     + n_analytics (summary a) = removedCount (result a).
Proof.
  intros H Hs. unfold analyzeUrl in H.
  destruct (cleanUrl url) as [r|e] eqn:Hc; cbn [bind] in H; [|discriminate].
  destruct (success r) eqn:Hsr; cbn [negb] in H; injection H as <-;
    simpl in Hs; [clear Hs|congruence].
  cbn [result categories summary n_utm n_social n_ads n_affiliate n_email
       n_analytics].
  assert (Harr : forall k,
    cat_array (fold_left categorize (removedParams r) empty_categories) k
    = filter (in_category k) (removedParams r)).
  { intros k. rewrite categorize_fold. now destruct k. }
  assert (Hperm : Permutation
    (all_arrays (fold_left categorize (removedParams r) empty_categories))
    (removedParams r)).
  { now rewrite categorize_fold_perm. }
  repeat split; auto.
  - rewrite Harr, filter_In. unfold in_category.
    rewrite Category_eqb_eq. intros [_ E]. now symmetry.
  - intros ->. rewrite Harr, filter_In. split; auto.
    unfold in_category. now apply Category_eqb_eq.
  - rewrite (cleanUrl_count _ _ Hc), <- (Permutation_length Hperm).
    unfold all_arrays. rewrite !length_app. lia.
Qed.


(* ====================================================================== *)
(** * [cleanUrls] *)
(* ====================================================================== *)

Lemma array_map_total {A B} (f : A -> Completion B) (l : list (option A)) :
  (forall a, exists b, f a = Normal b) ->
  exists bs, array_map f l = Normal bs
             /\ Forall2 (fun a b =>
                          match a, b with
                          | None, None => True
                          | Some x, Some y => f x = Normal y
                          | _, _ => False
                          end) l bs.
Proof.
  intros Hf. induction l as [|[a|] l [bs [E F]]]; simpl.
  - exists []. split; auto.
  - destruct (Hf a) as [b Hb]. rewrite Hb, E. simpl.
    exists (Some b :: bs). split; auto.
  - rewrite E. simpl. exists (None :: bs). split; auto.
Qed.


(** C7, amended.  [cleanUrls] throws the error "Input must be an array
    of URLs" for every value that is not an array; for an array it
    returns, and the result has the length of the input: at an index
    where the input has an element the result has the result of
    [cleanUrl] on that element, and at a hole of the input the result has
    a hole; the empty array gives the empty array, and no element makes
    the batch throw. *)
Theorem C7_cleanUrls_batch :
  (forall v, (forall l, v <> JsArray l) ->
     cleanUrls v = Throw (Error (str "Input must be an array of URLs")))
  /\ (forall l, exists rs,
        cleanUrls (JsArray l) = Normal rs
        /\ length rs = length l
        /\ (forall i, i < length l ->
              (nth_error l i = Some None /\ nth_error rs i = Some None)
              \/ (exists x r, nth_error l i = Some (Some x)
                              /\ nth_error rs i = Some (Some r)
                              /\ cleanUrl x = Normal r)))
  /\ cleanUrls (JsArray []) = Normal [].
Proof.
  split; [|split].
  - intros v Hv. destruct v; try reflexivity. now destruct (Hv items).
  - intros l. destruct (array_map_total cleanUrl l cleanUrl_total)
      as [rs [E F]].
    exists rs. split; [exact E|].
    pose proof (Forall2_length F) as Hlen. split; [now symmetry|].
    intros i Hi.
    destruct (nth_error l i) as [x|] eqn:Hx;
      [|apply nth_error_None in Hx; lia].
    destruct (nth_error rs i) as [r|] eqn:Hr;
      [|apply nth_error_None in Hr; lia].
    assert (Hxr : match x, r with
                  | None, None => True
                  | Some a, Some b => cleanUrl a = Normal b
                  | _, _ => False
                  end).
    { clear - F Hx Hr. revert i Hx Hr.
      induction F as [|a b l' rs' Hab F IH]; intros [|i] Hx Hr;
        simpl in *; try discriminate.
      + injection Hx as <-. injection Hr as <-. exact Hab.
      + exact (IH i Hx Hr). }
    destruct x as [a|], r as [b|]; try contradiction.
    + right. exists a, b. repeat split. exact Hxr.
    + now left.
  - reflexivity.
Qed.


(* ====================================================================== *)
(** * [cleanHashFragment] *)
(* ====================================================================== *)

Lemma cleanHashFragment_step6 (h d : Str) :
  h <> [] ->
  decodeURIComponent h = Normal d ->
  startsWith d (str "/") = false ->
  looksLikeMalformedTracking h d = false ->
  re_anchor_query d = false ->
  includes d (str "=") = true ->
  cleanHashFragment h =
  Normal (if existsb tracking_entry (URLSearchParams_new d)
          then match filter kept_entry (URLSearchParams_new d) with
               | [] => None
               | others => Some (form_serialize others)
               end
          else Some h).
Proof.
  intros Hne Hd Hs Hm Ha Hi. unfold cleanHashFragment.
  apply nonempty_true in Hne. rewrite Hne, Hd, Hs, Hm, Ha, Hi.
  cbn [negb try_catch]. rewrite hash_loop_fold.
  cbn [hasAnyTrackingParam cleanedHashParams orb app].
  destruct (existsb tracking_entry _); cbn [negb]; [|reflexivity].
  destruct (filter kept_entry _) as [|[k v] others] eqn:E; [reflexivity|].
  f_equal.
  assert (Hn : nonempty (form_serialize ((k, v) :: others)) = true)
    by apply form_serialize_nonempty.
  now rewrite Hn.
Qed.

(** C9.  [cleanHashFragment] returns [null] or a non-empty string, never
    the empty string. *)
Theorem C9_hash_never_empty (hashContent : Str) :
  cleanHashFragment hashContent = Normal None
  \/ exists s, cleanHashFragment hashContent = Normal (Some s) /\ s <> [].
Proof.
  unfold cleanHashFragment.
  destruct hashContent as [|c h]; [now left|].
  cbn [nonempty negb].
  assert (Hkeep : exists s, Normal (Some (c :: h)) = Normal (Some s)
                            /\ s <> []).
  { exists (c :: h). split; [reflexivity|discriminate]. }
  destruct (decodeURIComponent (c :: h)) as [d|e]; [|now right].
  destruct (startsWith d (str "/")); [now right|].
  destruct (looksLikeMalformedTracking (c :: h) d); [now left|].
  destruct (re_anchor_query d); [now right|].
  destruct (negb (includes d (str "="))); [now right|].
  cbn [try_catch].
  destruct (negb _); [now right|].
  destruct (form_serialize _) as [|c' s'] eqn:E; [now left|].
  right. exists (c' :: s'). split; [reflexivity|discriminate].
Qed.

(** C4.  A non-empty fragment that decodes is returned as it was given
    when its decoded form starts with a slash, and also when it matches
    no malformed-tracking signature and its decoded form has no equals
    sign; so the anchor [section-1] is returned unchanged. *)
Theorem C4_hash_preserved :
  (forall hashContent decodedHash,
     hashContent <> [] ->
     decodeURIComponent hashContent = Normal decodedHash ->
     (startsWith decodedHash (str "/") = true ->
      cleanHashFragment hashContent = Normal (Some hashContent))
     /\ (looksLikeMalformedTracking hashContent decodedHash = false ->
         includes decodedHash (str "=") = false ->
         cleanHashFragment hashContent = Normal (Some hashContent)))
  /\ cleanHashFragment (str "section-1") = Normal (Some (str "section-1")).
Proof.
  split; [|reflexivity].
  intros h d Hne Hd. apply nonempty_true in Hne.
  unfold cleanHashFragment. rewrite Hne, Hd. cbn [negb]. split.
  - now intros ->.
  - intros -> ->. destruct (startsWith d (str "/")); [reflexivity|].
    now destruct (re_anchor_query d).
Qed.

(** The hypotheses of C4 hold of the route [/analytics?section=overview]. *)
Lemma C4_hash_preserved_witness :
  cleanHashFragment (str "/analytics?section=overview")
  = Normal (Some (str "/analytics?section=overview")).
Proof.
  refine (proj1 (proj1 C4_hash_preserved
                   (str "/analytics?section=overview")
                   (str "/analytics?section=overview") _ _) _).
  - discriminate.
  - reflexivity.
  - reflexivity.
Defined.

(** C5, as stated, fails.  The pairs that are kept are written by the
    form-urlencoded serializer, which percent-escapes: for the fragment
    [utm_source%3Dx%26q%3Da%2Fb] the result is [q=a%2Fb], not the plain
    [q=a/b] the claim describes. *)
Lemma C5_as_stated_fails :
  ~ hash_step6_as_specified (str "utm_source%3Dx%26q%3Da%2Fb")
  /\ cleanHashFragment (str "utm_source%3Dx%26q%3Da%2Fb")
     = Normal (Some (str "q=a%2Fb")).
Proof.
  split; [|reflexivity].
  intros H.
  specialize (H (str "utm_source=x&q=a/b")).
  vm_compute in H.
  specialize (H ltac:(discriminate) eq_refl eq_refl eq_refl eq_refl eq_refl).
  discriminate.
Qed.

(** C5, amended.  For a non-empty fragment that decodes, whose decoded
    form does not start with a slash, matches no malformed-tracking
    signature, is not of the anchor?params shape and contains an equals
    sign: when no key is a tracking key the fragment is returned as
    given; otherwise the result is the form-urlencoded serialization of
    the other pairs, or [null] when none is left. *)
Theorem C5_hash_rebuilt (hashContent decodedHash : Str) :
  hashContent <> [] ->
  decodeURIComponent hashContent = Normal decodedHash ->
  startsWith decodedHash (str "/") = false ->
  looksLikeMalformedTracking hashContent decodedHash = false ->
  re_anchor_query decodedHash = false ->
  includes decodedHash (str "=") = true ->
  let pairs := URLSearchParams_new decodedHash in
  let others := filter kept_entry pairs in
  (existsb tracking_entry pairs = false ->
   cleanHashFragment hashContent = Normal (Some hashContent))
  /\ (existsb tracking_entry pairs = true ->
      cleanHashFragment hashContent =
      Normal (match others with
              | [] => None
              | _ => Some (form_serialize others)
              end)).
Proof.
  intros Hne Hd Hs Hm Ha Hi pairs others.
  rewrite (cleanHashFragment_step6 _ _ Hne Hd Hs Hm Ha Hi).
  fold pairs. fold others.
  split; intros ->; [reflexivity|].
  now destruct others.
Qed.

(** The hypotheses of C5 hold of [utm_source%3Dgoogle%26page%3D1]. *)
Lemma C5_hash_rebuilt_witness :
  cleanHashFragment (str "utm_source%3Dgoogle%26page%3D1")
  = Normal (Some (str "page=1")).
Proof.
  refine (proj2 (C5_hash_rebuilt (str "utm_source%3Dgoogle%26page%3D1")
                   (str "utm_source=google&page=1") _ _ _ _ _ _) _);
    try reflexivity.
  discriminate.
Defined.

(* ====================================================================== *)
(** * The parameters [cleanUrl] removes and keeps *)
(* ====================================================================== *)



End Engine.


(* ====================================================================== *)
(** * Hosts *)
(* ====================================================================== *)

Lemma sequence_length {A} (l : list (option A)) (r : list A) :
  sequence l = Some r -> length r = length l.
Proof.
  revert r. induction l as [|[a|] l IH]; simpl; intros r H.
  - now injection H as <-.
  - destruct (sequence l) as [r'|]; [|discriminate].
    injection H as <-. simpl. now rewrite (IH r').
  - discriminate.
Qed.

(** The IPv4 parser returns a 32-bit number. *)
Lemma ipv4_parse_bound (s : Str) (n : N) :
  ipv4_parse s = Some n -> (n < 4294967296)%N.
Proof.
  unfold ipv4_parse.
  destruct (Nat.ltb 4 (length (ipv4_parts s))) eqn:El; [discriminate|].
  destruct (sequence (map ipv4_number (ipv4_parts s))) as [numbers|] eqn:Es;
    [|discriminate].
  apply sequence_length in Es. rewrite length_map in Es.
  apply Nat.ltb_ge in El. rewrite <- Es in El. clear Es.
  destruct (existsb (N.ltb 255) (removelast numbers)) eqn:Ef; [discriminate|].
  destruct (N.leb _ (last numbers 0%N)) eqn:El2; [discriminate|].
  intros H. injection H as <-.
  apply N.leb_gt in El2.
  destruct numbers as [|a [|b [|c [|d [|e t]]]]];
    cbn [removelast last length fold_left existsb] in *;
    try (exfalso; simpl in El; lia);
    repeat match goal with
           | |- context [N.pow 256 ?e] =>
               let v := eval vm_compute in (N.pow 256 e) in
               change (N.pow 256 e) with v
           | H : context [N.pow 256 ?e] |- _ =>
               let v := eval vm_compute in (N.pow 256 e) in
               change (N.pow 256 e) with v in H
           end;
    rewrite ?orb_false_r in Ef;
    repeat match goal with
           | H : _ || _ = false |- _ => apply orb_false_elim in H as [? ?]
           | H : N.ltb _ _ = false |- _ => apply N.ltb_ge in H
           end;
    lia.
Qed.

Lemma opaque_host_char (c : ascii) :
  negb (forbidden_host c) = true ->
  forallb opaque_host_ok
          (if c0_control_set c then percent_byte c else [c]) = true.
Proof. each_char. Qed.

Lemma existsb_false_forallb (p : ascii -> bool) (s : Str) :
  existsb p s = false <-> forallb (fun c => negb (p c)) s = true.
Proof.
  induction s as [|c s IH]; simpl; [tauto|].
  rewrite orb_false_iff, andb_true_iff, negb_true_iff. tauto.
Qed.

Lemma domain_char_ok (c : ascii) :
  is_ascii_byte c = true -> forbidden_domain c = false ->
  domain_ok c = true.
Proof. unfold domain_ok. now intros -> ->. Qed.

Lemma is_some_str_spec (o : option Str) (s : Str) :
  is_some_str o s = true <-> o = Some s.
Proof.
  destruct o as [x|]; simpl; [|split; discriminate].
  rewrite Str_eqb_eq. split; congruence.
Qed.

(** The host parser returns well-formed hosts. *)
Lemma host_parse_wf (buffer : Str) (isOpaque : bool) (h : Host) :
  host_parse buffer isOpaque = Some h ->
  wf_host (negb isOpaque) h = true
  /\ (buffer <> [] -> h <> EmptyHost).
Proof.
  unfold host_parse.
  destruct (startsWith buffer (str "[")).
  { destruct (rev buffer) as [|c between]; [discriminate|].
    destruct (is_char "]" c); [|discriminate].
    destruct (ipv6_parse _) as [a|] eqn:E; [|discriminate].
    intros H. injection H as <-. split; [|discriminate].
    cbn [wf_host]. rewrite (ipv6_chars _ _ E).
    apply is_some_str_spec. eapply ipv6_stable; eauto. }
  destruct isOpaque.
  - unfold opaque_host_parse.
    destruct (existsb forbidden_host buffer) eqn:Ef; [discriminate|].
    apply existsb_false_forallb in Ef.
    pose proof (percent_encode_forallb c0_control_set _ opaque_host_ok
                  buffer opaque_host_char Ef) as Hok.
    destruct (percent_encode c0_control_set buffer) as [|x t] eqn:E;
      intros H; injection H as <-.
    + split; auto. intros Hb. now apply percent_encode_nil in E.
    + split; [|discriminate]. simpl in *. exact Hok.
  - unfold domain_to_ascii.
    destruct (unicode_ToASCII _) as [d|] eqn:Ed; [|discriminate].
    pose proof (ToASCII_ascii _ _ Ed) as Ha.
    pose proof (ToASCII_stable _ _ Ed) as Hst.
    destruct d as [|x t]; [discriminate|].
    destruct (existsb forbidden_domain (x :: t)) eqn:Ef; [discriminate|].
    destruct (ends_in_number (x :: t)) eqn:En.
    + destruct (ipv4_parse (x :: t)) as [n|] eqn:Ei; [|discriminate].
      intros H. injection H as <-. split; [|discriminate].
      simpl. apply N.ltb_lt. eapply ipv4_parse_bound; eauto.
    + intros H. injection H as <-. split; [|discriminate].
      cbn [wf_host negb andb nonempty]. rewrite En. cbn [negb].
      rewrite andb_true_r.
      apply andb_true_intro. split; [|now apply is_some_str_spec].
      apply existsb_false_forallb in Ef.
      rewrite forallb_forall in *. intros c Hc.
      apply domain_char_ok; auto.
      specialize (Ef c Hc). now apply negb_true_iff in Ef.
Qed.

Lemma domain_ok_facts (c : ascii) :
  domain_ok c = true ->
  is_char "%" c = false /\ is_ascii_byte c = true
  /\ forbidden_domain c = false /\ host_char c = true.
Proof. each_char; repeat split; reflexivity. Qed.

Lemma opaque_host_ok_facts (c : ascii) :
  opaque_host_ok c = true ->
  forbidden_host c = false /\ c0_control_set c = false
  /\ host_char c = true.
Proof. each_char; repeat split; reflexivity. Qed.

Lemma digit_or_dot_facts (c : ascii) :
  is_digit c || is_dot c = true ->
  is_char "%" c = false /\ is_ascii_byte c = true
  /\ forbidden_domain c = false /\ host_char c = true.
Proof. each_char; repeat split; reflexivity. Qed.

Lemma host_char_not_bracket (c : ascii) :
  host_char c = true -> is_char "[" c = false.
Proof. each_char. Qed.

Lemma startsWith_bracket (s : Str) :
  forallb host_char s = true -> startsWith s (str "[") = false.
Proof.
  destruct s as [|c s]; [reflexivity|]. intros H.
  cbn [forallb] in H.
  apply andb_prop in H as [Hc _]. apply host_char_not_bracket in Hc.
  unfold str. cbn [list_ascii_of_string startsWith].
  unfold is_char in Hc. now rewrite Hc.
Qed.

Lemma ipv6_char_facts (special : bool) (c : ascii) :
  ipv6_char c = true ->
  is_char "@" c = false /\ is_char "[" c = false /\ is_char "]" c = false
  /\ no_sep special c = true /\ plain c = true /\ printable c = true.
Proof. each_char; repeat split; reflexivity. Qed.

(** A serialized host is an IPv6 address in brackets or is made of host
    characters. *)
Lemma host_serialize_chars (special : bool) (h : Host) :
  wf_host special h = true ->
  (exists a, h = IPv6 a /\ forallb ipv6_char a = true
             /\ ipv6_parse a = Some a)
  \/ forallb host_char (host_serialize h) = true.
Proof.
  destruct h as [d|n|a|s|]; simpl; intros H; auto.
  - right. apply andb_prop in H as [H _].
    apply andb_prop in H as [H _]. apply andb_prop in H as [_ H].
    revert H. apply forallb_impl. intros c Hc.
    now destruct (domain_ok_facts _ Hc) as (_ & _ & _ & ->).
  - right. apply andb_prop in H as [_ H]. apply N.ltb_lt in H.
    destruct (ipv4_serialize_digits n H) as [D _]. revert D.
    apply forallb_impl. intros c Hc.
    now destruct (digit_or_dot_facts _ Hc) as (_ & _ & _ & ->).
  - left. exists a. apply andb_prop in H as [H1 H2].
    apply is_some_str_spec in H2. auto.
  - right. apply andb_prop in H as [_ H].
    revert H. apply forallb_impl. intros c Hc.
    now destruct (opaque_host_ok_facts _ Hc) as (_ & _ & ->).
Qed.

Lemma rev_bracketed (a : Str) :
  rev ("["%char :: a ++ ["]"%char]) = "]"%char :: rev a ++ ["["%char].
Proof.
  change ("["%char :: a ++ ["]"%char]) with (["["%char] ++ a ++ ["]"%char]).
  now rewrite !rev_app_distr.
Qed.

(** A serialized host parses back to itself. *)
Lemma host_parse_serialize (special : bool) (h : Host) :
  wf_host special h = true ->
  host_parse (host_serialize h) (negb special) = Some h.
Proof.
  intros W. destruct (host_serialize_chars _ _ W) as [(a & -> & _ & Ha)|Hc].
  { unfold host_parse. cbn [host_serialize].
    replace (startsWith ("["%char :: a ++ ["]"%char]) (str "[")) with true
      by (now destruct a).
    rewrite rev_bracketed.
    replace (is_char "]" "]"%char) with true by reflexivity.
    rewrite rev_app_distr, rev_involutive. cbn [rev app tl].
    now rewrite Ha. }
  unfold host_parse. rewrite (startsWith_bracket _ Hc).
  destruct h as [d|n|a|s|]; simpl in *.
  - apply andb_prop in W as [W Hst]. apply is_some_str_spec in Hst.
    apply andb_prop in W as [W En]. apply andb_prop in W as [W Hd].
    apply andb_prop in W as [-> Hne]. cbn [negb].
    assert (F : forall q, (forall c, domain_ok c = true -> q c = true) ->
                forallb q d = true).
    { intros q Hq. revert Hd. now apply forallb_impl. }
    rewrite percent_decode_id, utf8_decode_ascii; cycle 1.
    { apply F. intros c Hx. now destruct (domain_ok_facts _ Hx) as (_ & -> & _). }
    { apply F. intros c Hx. now destruct (domain_ok_facts _ Hx) as (-> & _). }
    unfold domain_to_ascii. rewrite Hst.
    destruct d as [|x t]; [discriminate|].
    assert (Ef : existsb forbidden_domain (x :: t) = false).
    { apply existsb_false_forallb. apply F. intros c Hx.
      now destruct (domain_ok_facts _ Hx) as (_ & _ & -> & _). }
    rewrite Ef. apply negb_true_iff in En. now rewrite En.
  - apply andb_prop in W as [-> Hn]. apply N.ltb_lt in Hn. cbn [negb].
    destruct (ipv4_serialize_digits n Hn) as [D Hd].
    assert (F : forall q,
               (forall c, is_digit c || is_dot c = true -> q c = true) ->
               forallb q (ipv4_serialize n) = true).
    { intros q Hq. revert D. now apply forallb_impl. }
    rewrite percent_decode_id, utf8_decode_ascii; cycle 1.
    { apply F. intros c Hx.
      now destruct (digit_or_dot_facts _ Hx) as (_ & -> & _). }
    { apply F. intros c Hx.
      now destruct (digit_or_dot_facts _ Hx) as (-> & _). }
    unfold domain_to_ascii. rewrite (ToASCII_ipv4 n Hn).
    destruct (ipv4_serialize n) as [|x t] eqn:E; [contradiction|].
    assert (Ef : existsb forbidden_domain (x :: t) = false).
    { apply existsb_false_forallb. apply F. intros c Hx.
      now destruct (digit_or_dot_facts _ Hx) as (_ & _ & -> & _). }
    rewrite Ef, <- E, (ends_in_number_serialize n Hn),
      (ipv4_parse_serialize n Hn). reflexivity.
  - discriminate Hc.
  - apply andb_prop in W as [W Hs]. apply andb_prop in W as [Hsp Hne].
    apply negb_true_iff in Hsp. subst special. cbn [negb].
    unfold opaque_host_parse.
    assert (Ef : existsb forbidden_host s = false).
    { apply existsb_false_forallb. revert Hs. apply forallb_impl.
      intros c Hx. now destruct (opaque_host_ok_facts _ Hx) as (-> & _). }
    rewrite Ef, percent_encode_id.
    + destruct s; [discriminate|reflexivity].
    + revert Hs. apply forallb_impl. intros c Hx.
      now destruct (opaque_host_ok_facts _ Hx) as (_ & -> & _).
  - apply negb_true_iff in W. now subst special.
Qed.

(* ====================================================================== *)
(** * Paths *)
(* ====================================================================== *)

Lemma normalize_drive_off (p : list Str) (buffer : Str) :
  normalize_drive false p buffer = buffer.
Proof.
  unfold normalize_drive.
  destruct p; auto. destruct buffer as [|a [|b [|c t]]]; auto.
Qed.

Lemma forallb_removelast {A} (q : A -> bool) (l : list A) :
  forallb q l = true -> forallb q (removelast l) = true.
Proof.
  induction l as [|x l IH]; simpl; auto. intros H.
  apply andb_prop in H as [Hx H]. destruct l; auto.
  simpl in *. rewrite Hx. auto.
Qed.

Lemma shorten_wf (special : bool) (p : list Str) :
  forallb (wf_segment special) p = true ->
  forallb (wf_segment special) (shorten false p) = true.
Proof.
  intros H. unfold shorten. destruct p as [|x [|y t]]; auto.
  now apply forallb_removelast.
Qed.

Lemma segment_char (special : bool) (c : ascii) :
  negb (path_sep special c) = true ->
  forallb (segment_ok special)
          (if path_set c then percent_byte c else [c]) = true.
Proof.
  unfold segment_ok, path_set. destruct caret_in_path_set; each_char.
Qed.

Lemma forallb_snoc {A} (q : A -> bool) (l : list A) (x : A) :
  forallb q (l ++ [x]) = forallb q l && q x.
Proof. rewrite forallb_app. simpl. now rewrite andb_true_r. Qed.

(** The path state keeps well-formed segments only. *)
Lemma path_segments_wf (special : bool) (segs acc : list Str) :
  Forall (fun seg => forallb (fun c => negb (path_sep special c)) seg = true)
         segs ->
  forallb (wf_segment special) acc = true ->
  forallb (wf_segment special) (path_segments false segs acc) = true.
Proof.
  intros Hs. revert acc. induction Hs as [|seg rest Hseg Hrest IH];
    intros acc Hacc; simpl; auto.
  apply IH.
  assert (Hnil : wf_segment special [] = true) by reflexivity.
  destruct (is_double_dot _) eqn:Ed.
  - destruct rest; rewrite ?forallb_snoc, ?Hnil, ?andb_true_r;
      now apply shorten_wf.
  - destruct (is_single_dot _) eqn:Es.
    + destruct rest; rewrite ?forallb_snoc, ?Hnil, ?andb_true_r; auto.
    + rewrite forallb_snoc, Hacc, normalize_drive_off. simpl.
      unfold wf_segment. rewrite Ed, Es. simpl. rewrite !andb_true_r.
      apply percent_encode_forallb with (pre := fun c => negb (path_sep special c));
        auto using segment_char.
Qed.

Lemma path_segments_nonempty (isfile : bool) (segs acc : list Str) :
  segs <> [] -> path_segments isfile segs acc <> [].
Proof.
  revert acc. induction segs as [|seg rest IH]; intros acc H; [congruence|].
  simpl. destruct rest as [|seg' rest'].
  - simpl. destruct (is_double_dot _); [|destruct (is_single_dot _)];
      intros E; apply app_eq_nil in E as [_ E]; discriminate.
  - apply IH. discriminate.
Qed.

Lemma parse_path_wf (special hashost tail_free : bool) (s : Str) :
  wf_path special hashost tail_free (parse_path special false s) = true.
Proof.
  unfold parse_path, wf_path.
  rewrite path_segments_wf; auto.
  - pose proof (path_segments_nonempty false (split_on (path_sep special) s)
                  [] (split_on_nonempty _ _)) as H.
    destruct (path_segments _ _ _); [congruence|].
    now rewrite orb_true_r.
  - pose proof (split_on_items (path_sep special) (fun _ => true) s) as H.
    eapply Forall_impl; [|apply H].
    + intros seg. apply forallb_impl. intros c Hc.
      now apply andb_prop in Hc as [-> _].
    + apply forallb_forall. auto.
Qed.

Lemma path_start_wf (special tail_free : bool) (s : Str) :
  wf_path special true tail_free (path_start special false s) = true.
Proof.
  unfold path_start. destruct s as [|c r].
  - destruct special; [apply parse_path_wf|reflexivity].
  - destruct (path_sep special c); apply parse_path_wf.
Qed.

(** ** Parsing a serialized path *)

Lemma wf_segment_facts (special : bool) (seg : Str) :
  wf_segment special seg = true ->
  forallb (segment_ok special) seg = true
  /\ is_single_dot seg = false /\ is_double_dot seg = false.
Proof.
  unfold wf_segment. intros H.
  apply andb_prop in H as [H D]. apply andb_prop in H as [H S].
  apply negb_true_iff in D, S. auto.
Qed.

Lemma segment_ok_facts (special : bool) (c : ascii) :
  segment_ok special c = true ->
  path_set c = false /\ path_sep special c = false
  /\ is_char "/" c = false /\ solid c = true /\ not_qf c = true
  /\ printable c = true.
Proof.
  unfold segment_ok, path_set.
  destruct caret_in_path_set; each_char; repeat split; reflexivity.
Qed.

Lemma path_segments_serial (special : bool) (segs acc : list Str) :
  forallb (wf_segment special) segs = true ->
  path_segments false segs acc = acc ++ segs.
Proof.
  revert acc. induction segs as [|seg rest IH]; intros acc H; simpl.
  - now rewrite app_nil_r.
  - apply andb_prop in H as [Hseg H].
    destruct (wf_segment_facts _ _ Hseg) as (Hc & Hs & Hd).
    rewrite percent_encode_id.
    + rewrite Hs, Hd, normalize_drive_off, IH by auto.
      now rewrite <- app_assoc.
    + revert Hc. apply forallb_impl. intros c Hx.
      now destruct (segment_ok_facts _ _ Hx) as (-> & _).
Qed.

Lemma split_join (special : bool) (t : list Str) (x : Str) :
  forallb (wf_segment special) (x :: t) = true ->
  split_on (path_sep special) (join_segments x t) = x :: t.
Proof.
  unfold join_segments.
  revert x. induction t as [|y t IH]; intros x H; simpl in *.
  - rewrite app_nil_r.
    apply andb_prop in H as [Hx _].
    destruct (wf_segment_facts _ _ Hx) as (Hc & _).
    apply split_on_none. revert Hc. apply forallb_impl. intros c Hc.
    now destruct (segment_ok_facts _ _ Hc) as (_ & -> & _).
  - apply andb_prop in H as [Hx H].
    destruct (wf_segment_facts _ _ Hx) as (Hc & _).
    rewrite split_on_stop.
    + f_equal. now apply IH.
    + revert Hc. apply forallb_impl. intros c Hc.
      now destruct (segment_ok_facts _ _ Hc) as (_ & -> & _).
    + reflexivity.
Qed.

Lemma parse_path_join (special : bool) (x : Str) (t : list Str) :
  forallb (wf_segment special) (x :: t) = true ->
  parse_path special false (join_segments x t) = ListPath (x :: t).
Proof.
  intros H. unfold parse_path.
  rewrite (split_join special t x H).
  now rewrite (path_segments_serial special (x :: t) [] H).
Qed.

Lemma path_serialize_cons (x : Str) (t : list Str) :
  path_serialize (ListPath (x :: t)) = "/"%char :: join_segments x t.
Proof. reflexivity. Qed.

(** The path start state on a serialized list path. *)
Lemma path_start_serial (special : bool) (l : list Str) :
  forallb (wf_segment special) l = true ->
  (special = true -> l <> []) ->
  path_start special false (path_serialize (ListPath l)) = ListPath l.
Proof.
  intros H Hne. destruct l as [|x t].
  - simpl. destruct special; [now destruct Hne|reflexivity].
  - rewrite path_serialize_cons. unfold path_start.
    replace (path_sep special "/") with true by (now destruct special).
    now apply parse_path_join.
Qed.

(* ====================================================================== *)
(** * The authority *)
(* ====================================================================== *)

Lemma userinfo_char (c : ascii) :
  forallb userinfo_ok (if userinfo_set c then percent_byte c else [c]) = true.
Proof. each_char. Qed.

Lemma userinfo_encoded (s : Str) :
  forallb userinfo_ok (percent_encode userinfo_set s) = true.
Proof.
  apply percent_encode_forallb with (pre := fun _ => true).
  - intros c _. apply userinfo_char.
  - apply forallb_forall. auto.
Qed.

Lemma parse_credentials_wf (cred user pass : Str) :
  parse_credentials cred = (user, pass) ->
  forallb userinfo_ok user = true /\ forallb userinfo_ok pass = true.
Proof.
  unfold parse_credentials.
  destruct (break_at _ cred) as [u [p|]]; intros H; injection H as <- <-;
    split; auto using userinfo_encoded.
Qed.

Lemma split_host_port_nil (b : bool) (s : Str) :
  split_host_port b s = ([], None) -> s = [].
Proof.
  destruct s as [|c r]; auto. cbn [split_host_port].
  destruct (is_char ":" c && negb b); [intros H; discriminate H|].
  destruct (split_host_port _ r). intros H; discriminate H.
Qed.

Lemma parse_port_wf (sch buffer : Str) (prt : option N) :
  parse_port sch buffer = Some prt -> wf_port sch prt = true.
Proof.
  unfold parse_port. destruct (forallb is_digit buffer); [|discriminate].
  destruct buffer; [intros H; now injection H as <-|].
  destruct (N.ltb 65535 _) eqn:E; [discriminate|].
  intros H. injection H as <-.
  destruct (N_opt_eqb _ _) eqn:Ed; simpl; auto.
  rewrite Ed. apply N.ltb_ge in E. apply N.leb_le in E. now rewrite E.
Qed.

(** The authority state returns well-formed components. *)
Lemma parse_authority_wf (sch s : Str) (tail_free : bool) (p : Prefix) :
  parse_authority sch s = Some p ->
  wf_prefix sch tail_free p = true /\ has_some (p_host p) = true.
Proof.
  unfold parse_authority.
  destruct (span _ s) as [authority rest].
  destruct (break_last _ authority) as [cred hostport] eqn:Eb.
  assert (Hcred : forall user pass,
    match cred with
    | Some c => parse_credentials c
    | None => ([], [])
    end = (user, pass) ->
    forallb userinfo_ok user = true /\ forallb userinfo_ok pass = true
    /\ (cred = None -> has_credentials user pass = false)).
  { intros user pass. destruct cred as [c|].
    - intros H. destruct (parse_credentials_wf _ _ _ H). repeat split; auto.
      discriminate.
    - intros H. injection H as <- <-. auto. }
  destruct (match cred with Some c => parse_credentials c | None => _ end)
    as [user pass] eqn:Ec.
  destruct (Hcred _ _ eq_refl) as (Hu & Hp & Hn). clear Hcred.
  destruct (split_host_port false hostport) as [hostbuf portbuf] eqn:Es.
  intros H.
  assert (H' :
    (cred <> None -> hostport <> [])
    /\ (portbuf <> None -> hostbuf <> [])
    /\ (is_special sch = true -> hostbuf <> [])
    /\ exists h prt,
         host_parse hostbuf (negb (is_special sch)) = Some h
         /\ match portbuf with
            | Some pb => parse_port sch pb
            | None => Some None
            end = Some prt
         /\ p = mkPrefix user pass (Some h) prt
                         (path_start (is_special sch) false rest)).
  { destruct cred as [c|], hostport as [|x hp]; try discriminate H.
    all: destruct portbuf as [pb|], hostbuf as [|y hb]; try discriminate H.
    all: destruct (is_special sch) eqn:Esp; cbn [andb negb nonempty] in H;
      try discriminate H.
    all: destruct (host_parse _ _) as [h|]; [|discriminate H].
    all: try (destruct (parse_port sch pb) as [prt|] eqn:Ep;
              [|discriminate H]).
    all: injection H as <-.
    all: repeat split; try discriminate; try congruence.
    all: eexists; eexists; repeat split; eauto. }
  clear H. destruct H' as (H1 & H2 & H3 & h & prt & Hh & Hprt & ->).
  split; [|reflexivity].
  destruct (host_parse_wf _ _ _ Hh) as (Wh & Hne).
  rewrite negb_involutive in Wh.
  assert (Wp : wf_port sch prt = true).
  { destruct portbuf as [pb|]; [now apply parse_port_wf in Hprt|].
    now injection Hprt as <-. }
  unfold wf_prefix. cbn [p_username p_password p_host p_port p_path has_some].
  rewrite Hu, Hp, Wp, path_start_wf. cbn [andb]. rewrite !andb_true_r.
  unfold wf_authority. destruct h; auto.
  assert (Ehb : hostbuf = []).
  { destruct hostbuf; auto. exfalso. apply Hne; [discriminate|reflexivity]. }
  subst hostbuf.
  destruct (is_special sch); [now exfalso; apply H3|].
  destruct portbuf; [now exfalso; apply H2|].
  injection Hprt as <-. apply split_host_port_nil in Es. subst hostport.
  destruct cred; [exfalso; now apply H1|].
  now rewrite Hn.
Qed.

(** ** Parsing a serialized authority *)

Lemma userinfo_ok_facts (special : bool) (c : ascii) :
  userinfo_ok c = true ->
  userinfo_set c = false /\ is_char "@" c = false /\ is_char ":" c = false
  /\ authority_char special c = true.
Proof. each_char; repeat split; reflexivity. Qed.

Lemma host_char_facts (special : bool) (c : ascii) :
  host_char c = true ->
  is_char "@" c = false /\ is_char ":" c = false /\ is_char "[" c = false
  /\ authority_char special c = true.
Proof. each_char; repeat split; reflexivity. Qed.

Lemma digit_facts (special : bool) (c : ascii) :
  is_digit c = true ->
  is_char "@" c = false /\ authority_char special c = true.
Proof. each_char; repeat split; reflexivity. Qed.

Lemma userinfo_chars (special : bool) (s : Str) :
  forallb userinfo_ok s = true ->
  forallb (fun c => negb (userinfo_set c)) s = true
  /\ forallb (fun c => negb (is_char "@" c)) s = true
  /\ forallb (fun c => negb (is_char ":" c)) s = true
  /\ forallb (authority_char special) s = true.
Proof.
  intros H; repeat split; revert H; apply forallb_impl; intros c Hc;
    destruct (userinfo_ok_facts special c Hc) as (E1 & E2 & E3 & E4);
    rewrite ?E1, ?E2, ?E3, ?E4; reflexivity.
Qed.

Lemma digit_chars (special : bool) (s : Str) :
  forallb is_digit s = true ->
  forallb (fun c => negb (is_char "@" c)) s = true
  /\ forallb (authority_char special) s = true.
Proof.
  intros H; repeat split; revert H; apply forallb_impl; intros c Hc;
    destruct (digit_facts special c Hc) as (E1 & E2);
    rewrite ?E1, ?E2; reflexivity.
Qed.

Lemma split_host_port_stop (h r : Str) :
  forallb (fun c => negb (is_char ":" c && negb false)
                    && negb (is_char "[" c)) h = true ->
  split_host_port false (h ++ ":"%char :: r) = (h, Some r).
Proof.
  induction h as [|c h IH]; intros H; [reflexivity|].
  cbn [forallb] in H. apply andb_prop in H as [Hc H].
  apply andb_prop in Hc as [H1 H2]. apply negb_true_iff in H1, H2.
  cbn [app split_host_port]. rewrite H1, H2.
  destruct (is_char "]" c); now rewrite IH.
Qed.

Lemma split_host_port_none (h : Str) :
  forallb (fun c => negb (is_char ":" c && negb false)
                    && negb (is_char "[" c)) h = true ->
  split_host_port false h = (h, None).
Proof.
  induction h as [|c h IH]; intros H; [reflexivity|].
  cbn [forallb] in H. apply andb_prop in H as [Hc H].
  apply andb_prop in Hc as [H1 H2]. apply negb_true_iff in H1, H2.
  cbn [app split_host_port]. rewrite H1, H2.
  destruct (is_char "]" c); now rewrite IH.
Qed.

Lemma forallb_bracketed (q : ascii -> bool) (a : Str) :
  q "["%char = true -> q "]"%char = true -> forallb q a = true ->
  forallb q ("["%char :: a ++ ["]"%char]) = true.
Proof.
  intros H1 H2 H. cbn [forallb]. rewrite forallb_app. cbn [forallb].
  now rewrite H1, H2, H.
Qed.

Lemma split_host_port_inside (a rest : Str) :
  forallb ipv6_char a = true ->
  split_host_port true (a ++ "]"%char :: rest)
  = (a ++ "]"%char :: fst (split_host_port false rest),
     snd (split_host_port false rest)).
Proof.
  induction a as [|c a IH]; intros H.
  - cbn [app split_host_port]. cbn.
    now destruct (split_host_port false rest).
  - cbn [forallb] in H. apply andb_prop in H as [Hc H].
    destruct (ipv6_char_facts false c Hc) as (_ & E1 & E2 & _).
    cbn [app split_host_port]. rewrite andb_false_r, E1, E2, IH by auto.
    reflexivity.
Qed.

(** What is used of a serialized host: where the host state stops, and
    the characters it is made of. *)
Lemma host_serialize_facts (special : bool) (h : Host) :
  wf_host special h = true ->
  forallb (fun c => negb (is_char "@" c)) (host_serialize h) = true
  /\ forallb (authority_char special) (host_serialize h) = true
  /\ (forall r, split_host_port false (host_serialize h ++ ":"%char :: r)
                = (host_serialize h, Some r))
  /\ split_host_port false (host_serialize h) = (host_serialize h, None).
Proof.
  intros W. destruct (host_serialize_chars _ _ W) as [(a & -> & Ha & _)|Hc].
  - cbn [host_serialize]. repeat split.
    + apply forallb_bracketed; try reflexivity.
      revert Ha. apply forallb_impl. intros c Hc.
      now destruct (ipv6_char_facts special c Hc) as (-> & _).
    + apply forallb_bracketed; try (now destruct special).
      revert Ha. apply forallb_impl. intros c Hc.
      destruct (ipv6_char_facts special c Hc) as (_ & _ & _ & E1 & E2 & E3).
      unfold authority_char. now rewrite E1, E2, E3.
    + intros r. cbn [app split_host_port].
      replace (is_char ":" "[") with false by reflexivity.
      replace (is_char "[" "[") with true by reflexivity.
      cbn [andb]. rewrite <- app_assoc. cbn [app].
      now rewrite split_host_port_inside.
    + cbn [split_host_port].
      replace (is_char ":" "[") with false by reflexivity.
      replace (is_char "[" "[") with true by reflexivity.
      cbn [andb]. now rewrite split_host_port_inside.
  - assert (F : forall q, (forall c, host_char c = true -> q c = true) ->
                forallb q (host_serialize h) = true).
    { intros q Hq. revert Hc. now apply forallb_impl. }
    assert (Hcolon : forallb (fun c => negb (is_char ":" c && negb false)
                                       && negb (is_char "[" c))
                             (host_serialize h) = true).
    { apply F. intros c Hx.
      destruct (host_char_facts special c Hx) as (_ & E2 & E3 & _).
      now rewrite E2, E3. }
    repeat split.
    + apply F. intros c Hx.
      now destruct (host_char_facts special c Hx) as (-> & _).
    + apply F. intros c Hx.
      now destruct (host_char_facts special c Hx) as (_ & _ & _ & ->).
    + intros r. now apply split_host_port_stop.
    + now apply split_host_port_none.
Qed.

Lemma host_serialize_nonempty (special : bool) (h : Host) :
  wf_host special h = true -> h <> EmptyHost -> host_serialize h <> [].
Proof.
  destruct h as [d|n|a|s|]; simpl; intros W Hne; try congruence.
  - destruct d; [|discriminate]. simpl in W. now rewrite andb_false_r in W.
  - apply andb_prop in W as [_ W]. apply N.ltb_lt in W.
    destruct (ipv4_serialize_digits n W) as [_ D].
    destruct (ipv4_serialize n); [contradiction|discriminate].
  - destruct s; [|discriminate]. simpl in W. now rewrite andb_false_r in W.
Qed.

Lemma parse_credentials_serial (user pass : Str) :
  forallb userinfo_ok user = true ->
  forallb userinfo_ok pass = true ->
  parse_credentials (user ++ (if nonempty pass then ":"%char :: pass else []))
  = (user, pass).
Proof.
  intros Hu Hp.
  destruct (userinfo_chars false _ Hu) as (Su & _ & Cu & _).
  destruct (userinfo_chars false _ Hp) as (Sp & _).
  unfold parse_credentials. destruct pass as [|x t]; cbn [nonempty].
  - rewrite app_nil_r, break_at_none by exact Cu.
    now rewrite percent_encode_id.
  - rewrite break_at_stop by (auto; exact Cu).
    now rewrite !percent_encode_id.
Qed.

Lemma parse_port_serial (sch : Str) (n : N) :
  wf_port sch (Some n) = true ->
  parse_port sch (dec n) = Some (Some n).
Proof.
  simpl. intros H. apply andb_prop in H as [Hn Hd].
  apply N.leb_le in Hn. apply negb_true_iff in Hd.
  destruct (dec_port n Hn) as (D & Ne & V).
  unfold parse_port. rewrite D, V.
  destruct (dec n); [congruence|].
  replace (N.ltb 65535 n) with false by (symmetry; apply N.ltb_ge; lia).
  now rewrite Hd.
Qed.

Lemma path_sep_slash (special : bool) : path_sep special "/" = true.
Proof. now destruct special. Qed.

(** The authority state on a serialized authority followed by a
    serialized path. *)
Lemma parse_authority_serial (sch : Str) (tail_free : bool) (p : Prefix)
      (h : Host) :
  wf_prefix sch tail_free p = true ->
  p_host p = Some h ->
  parse_authority sch (authority_serialize p ++ path_serialize (p_path p))
  = Some p.
Proof.
  destruct p as [user pass hst prt pth]. unfold wf_prefix, authority_serialize.
  cbn [p_username p_password p_host p_port p_path].
  intros W ->. cbn [has_some] in W.
  apply andb_prop in W as [W Wpath]. apply andb_prop in W as [W Wport].
  apply andb_prop in W as [W Wauth]. apply andb_prop in W as [Wu Wp].
  set (special := is_special sch) in *.
  (* the host *)
  assert (Wh : wf_host special h = true).
  { unfold wf_authority in Wauth. destruct h; auto.
    apply andb_prop in Wauth as [Wa _]. apply andb_prop in Wa as [Wa _].
    exact Wa. }
  assert (Hempty : h = EmptyHost ->
            has_credentials user pass = false /\ prt = None).
  { intros ->. unfold wf_authority in Wauth.
    apply andb_prop in Wauth as [Wa Hprt]. apply andb_prop in Wa as [_ Hc].
    apply negb_true_iff in Hc. destruct prt; [discriminate|]. auto. }
  assert (Hspecial : special = true -> h <> EmptyHost).
  { intros E ->. simpl in Wh. now rewrite E in Wh. }
  destruct (host_serialize_facts special _ Wh)
    as (Hh_at & Hh_auth & Hh_stop & Hh_none).
  (* the path *)
  destruct pth as [o|l];
    [unfold wf_path in Wpath; now rewrite !andb_false_r in Wpath|].
  cbn [wf_path] in Wpath. apply andb_prop in Wpath as [Wsegs Wne].
  assert (Hl : special = true -> l <> []).
  { intros E. rewrite E in Wne. destruct l; [discriminate|discriminate]. }
  (* the port *)
  assert (Hport_chars :
    forallb (fun c => negb (is_char "@" c)) (port_serialize prt) = true
    /\ forallb (authority_char special) (port_serialize prt) = true).
  { destruct prt as [n|]; [|split; reflexivity]. simpl in Wport.
    apply andb_prop in Wport as [Hn _]. apply N.leb_le in Hn.
    destruct (dec_port n Hn) as (D & _).
    destruct (digit_chars special _ D) as (D1 & D2).
    cbn [port_serialize forallb]. rewrite D1, D2.
    split; [reflexivity|]. now destruct special. }
  destruct Hport_chars as (Hp_at & Hp_auth).
  (* the credentials *)
  destruct (userinfo_chars special _ Wu) as (_ & Hu_at & _ & Hu_auth).
  destruct (userinfo_chars special _ Wp) as (_ & Hpw_at & _ & Hpw_auth).
  set (hostport := host_serialize h ++ port_serialize prt).
  assert (Hhp_at : forallb (fun c => negb (is_char "@" c)) hostport = true)
    by (unfold hostport; now rewrite forallb_app, Hh_at, Hp_at).
  assert (Hhp_auth : forallb (authority_char special) hostport = true)
    by (unfold hostport; now rewrite forallb_app, Hh_auth, Hp_auth).
  assert (Hcred_auth : forallb (authority_char special)
                         (credentials_serialize user pass) = true).
  { unfold credentials_serialize. destruct (has_credentials user pass); auto.
    rewrite !forallb_app, Hu_auth. cbn [forallb andb].
    destruct (nonempty pass); cbn [forallb]; rewrite ?Hpw_auth;
      now destruct special. }
  unfold parse_authority. cbv zeta. fold special.
  (* the authority ends where the path starts *)
  assert (Hspan :
    span (fun c => negb (path_sep special c))
         ((credentials_serialize user pass ++ hostport)
          ++ path_serialize (ListPath l))
    = (credentials_serialize user pass ++ hostport,
       path_serialize (ListPath l))).
  { assert (Hall : forallb (fun c => negb (path_sep special c))
                     (credentials_serialize user pass ++ hostport) = true).
    { rewrite forallb_app. apply andb_true_intro. split;
        [revert Hcred_auth|revert Hhp_auth]; apply forallb_impl; intros c Hc;
        unfold authority_char, no_sep in Hc;
        apply andb_prop in Hc as [Hc _]; now apply andb_prop in Hc as [-> _]. }
    destruct l as [|x t].
    - cbn [path_serialize flat_map]. rewrite app_nil_r. now apply span_all.
    - rewrite path_serialize_cons.
      apply span_stop; [exact Hall|now rewrite path_sep_slash]. }
  rewrite <- !app_assoc in Hspan.
  rewrite <- !app_assoc. rewrite Hspan. clear Hspan.
  (* the credentials are what precedes the last [@] *)
  assert (Hsplit : split_host_port false hostport
                   = (host_serialize h,
                      match prt with Some n => Some (dec n) | None => None end)).
  { unfold hostport. destruct prt as [n|]; cbn [port_serialize].
    - apply Hh_stop.
    - rewrite app_nil_r. apply Hh_none. }
  assert (Hport : match prt with
                  | Some n => parse_port sch (dec n)
                  | None => Some None
                  end = Some prt).
  { destruct prt as [n|]; auto. now apply parse_port_serial. }
  assert (Hhost : host_parse (host_serialize h) (negb special) = Some h)
    by now apply host_parse_serialize.
  assert (Hpath : path_start special false (path_serialize (ListPath l))
                  = ListPath l) by now apply path_start_serial.
  fold hostport.
  unfold credentials_serialize.
  assert (Hgo : forall cred : option Str,
    (cred <> None -> host_serialize h <> []) ->
    match cred, hostport with
    | Some _, [] => None
    | _, _ =>
        let (hostbuf, portbuf) := split_host_port false hostport in
        match portbuf, hostbuf with
        | Some _, [] => None
        | _, _ =>
            if special && negb (nonempty hostbuf) then None
            else
              match host_parse hostbuf (negb special) with
              | None => None
              | Some h0 =>
                  match
                    match portbuf with
                    | Some pb => parse_port sch pb
                    | None => Some None
                    end
                  with
                  | None => None
                  | Some prt0 =>
                      Some (mkPrefix user pass (Some h0) prt0
                              (path_start special false
                                 (path_serialize (ListPath l))))
                  end
              end
        end
    end = Some (mkPrefix user pass (Some h) prt (ListPath l))).
  { intros cred Hc. rewrite Hsplit, Hhost, Hpath.
    assert (Hsp : special && negb (nonempty (host_serialize h)) = false).
    { destruct special; auto. cbn [andb].
      pose proof (host_serialize_nonempty _ _ Wh (Hspecial eq_refl)).
      destruct (host_serialize h); [congruence|reflexivity]. }
    rewrite Hsp.
    destruct (host_serialize h) as [|x t] eqn:Eh.
    - assert (E : h = EmptyHost).
      { destruct h; auto; exfalso;
          eapply (host_serialize_nonempty _ _ Wh); eauto; discriminate. }
      destruct (Hempty E) as [_ ->].
      unfold hostport. rewrite ?Eh. cbn [port_serialize app].
      destruct cred; [exfalso; now apply Hc|reflexivity].
    - destruct prt as [n|]; cbv beta iota in Hport |- *;
        rewrite ?Hport; unfold hostport; rewrite ?Eh;
        cbn [app port_serialize]; now destruct cred. }
  destruct (has_credentials user pass) eqn:Ecred.
  - assert (Hne : h <> EmptyHost).
    { intros E. destruct (Hempty E). congruence. }
    pose proof (host_serialize_nonempty _ _ Wh Hne) as Hhs.
    rewrite <- !app_assoc. rewrite app_assoc.
    cbn [app]. rewrite break_last_stop by auto.
    rewrite parse_credentials_serial by auto.
    apply (Hgo (Some (user ++ (if nonempty pass then ":"%char :: pass
                               else [])))).
    auto.
  - cbn [app]. rewrite break_last_none by auto.
    unfold has_credentials in Ecred. apply orb_false_elim in Ecred as [E1 E2].
    destruct user; [|discriminate]. destruct pass; [|discriminate].
    apply (Hgo None). congruence.
Qed.

(* ====================================================================== *)
(** * What the parser returns is well formed *)
(* ====================================================================== *)

Lemma ends_solid_app (a b : Str) :
  b <> [] -> ends_solid (a ++ b) = ends_solid b.
Proof.
  intros Hb. unfold ends_solid. rewrite rev_app_distr.
  destruct (rev b) as [|c t] eqn:E; [|reflexivity].
  apply (f_equal (@rev ascii)) in E. rewrite rev_involutive in E.
  now destruct Hb.
Qed.

Lemma ends_solid_snoc (a : Str) (c : ascii) :
  ends_solid (a ++ [c]) = solid c.
Proof. unfold ends_solid. now rewrite rev_app_distr. Qed.

Lemma ends_solid_all (s : Str) :
  forallb solid s = true -> ends_solid s = true.
Proof.
  intros H. unfold ends_solid. rewrite <- forallb_rev in H.
  destruct (rev s); auto. simpl in H. now apply andb_prop in H.
Qed.

Lemma ends_solid_suffix (a b : Str) :
  ends_solid (a ++ b) = true -> b <> [] -> ends_solid b = true.
Proof. intros H Hb. now rewrite ends_solid_app in H. Qed.

Lemma snoc_cases (s : Str) : s = [] \/ exists t c, s = t ++ [c].
Proof.
  destruct (rev s) as [|c t] eqn:E.
  - left. apply (f_equal (@rev ascii)) in E. now rewrite rev_involutive in E.
  - right. exists (rev t), c.
    apply (f_equal (@rev ascii)) in E. now rewrite rev_involutive in E.
Qed.

Lemma trim_with_ends (s : Str) :
  ends_solid (trim_with is_c0_or_space s) = true.
Proof.
  unfold ends_solid, trim_with. rewrite rev_involutive.
  pose proof (drop_while_head is_c0_or_space
                (rev (drop_while is_c0_or_space s))) as H.
  destruct (drop_while _ (rev _)); auto. unfold solid. now rewrite H.
Qed.

Lemma solid_no_tab (c : ascii) : solid c = true -> no_tab c = true.
Proof. each_char. Qed.

Lemma remove_tab_ends (s : Str) :
  ends_solid s = true -> ends_solid (remove_tab_newline s) = true.
Proof.
  intros H. destruct (snoc_cases s) as [->|(t & c & ->)]; [reflexivity|].
  rewrite ends_solid_snoc in H. unfold remove_tab_newline.
  rewrite filter_app. cbn [filter].
  pose proof (solid_no_tab c H) as Hc. unfold no_tab in Hc. rewrite Hc.
  now rewrite ends_solid_snoc.
Qed.

Lemma remove_tab_chars (s : Str) :
  forallb no_tab (remove_tab_newline s) = true.
Proof. apply forallb_filter. Qed.

(** ** The opaque path *)

Lemma opaque_char (c : ascii) :
  not_qf c = true ->
  forallb opaque_path_ok
          (if c0_control_set c then percent_byte c else [c]) = true.
Proof. each_char. Qed.

Lemma opaque_last_char (c : ascii) :
  is_char " " c = false ->
  ends_solid (if c0_control_set c then percent_byte c else [c]) = true.
Proof. each_char. Qed.

Lemma opaque_first_char (c : ascii) :
  is_char "/" c = false ->
  startsWith (if c0_control_set c then percent_byte c else [c]) (str "/")
  = false.
Proof. each_char. Qed.

Lemma solid_not_space (c : ascii) : solid c = true -> is_char " " c = false.
Proof. each_char. Qed.

Lemma startsWith_app_first (a b : Str) :
  a <> [] -> startsWith (a ++ b) (str "/") = startsWith a (str "/").
Proof.
  destruct a as [|x a]; [congruence|]. intros _. unfold str.
  cbn [list_ascii_of_string startsWith app].
  now destruct a; destruct (_ ++ b).
Qed.

Lemma percent_encode_snoc (inset : ascii -> bool) (t : Str) (c : ascii) :
  percent_encode inset (t ++ [c])
  = percent_encode inset t ++ (if inset c then percent_byte c else [c]).
Proof. rewrite percent_encode_app. unfold percent_encode. simpl.
       now rewrite app_nil_r. Qed.

Lemma chunk_nonempty (inset : ascii -> bool) (c : ascii) :
  (if inset c then percent_byte c else [c]) <> [].
Proof. destruct (inset c); discriminate. Qed.

Lemma percent_encode_first (inset : ascii -> bool) (c : ascii) (r : Str) :
  startsWith (percent_encode inset (c :: r)) (str "/")
  = startsWith (if inset c then percent_byte c else [c]) (str "/").
Proof.
  change (percent_encode inset (c :: r))
    with ((if inset c then percent_byte c else [c]) ++ percent_encode inset r).
  apply startsWith_app_first, chunk_nonempty.
Qed.

(** The opaque path state returns a well-formed opaque path. *)
Lemma opaque_path_wf (followed : bool) (s : Str) :
  forallb not_qf s = true ->
  match s with c :: _ => is_char "/" c = false | [] => True end ->
  (followed = false -> ends_solid s = true) ->
  forallb opaque_path_ok (opaque_path followed s) = true
  /\ startsWith (opaque_path followed s) (str "/") = false
  /\ ends_solid (opaque_path followed s)
     || (negb opaque_space_encoded && followed) = true.
Proof.
  intros Hq Hfirst Hend. unfold opaque_path.
  assert (Henc : forall x, forallb not_qf x = true ->
            forallb opaque_path_ok (percent_encode c0_control_set x) = true).
  { intros x. apply percent_encode_forallb. apply opaque_char. }
  destruct (snoc_cases s) as [->|(t & c & ->)]; [repeat split; reflexivity|].
  rewrite rev_app_distr. cbn [rev app].
  rewrite forallb_app in Hq. apply andb_prop in Hq as [Hqt Hqc].
  assert (Hstart : forall tail,
    startsWith (percent_encode c0_control_set t ++ tail) (str "/") = false
    \/ t = []).
  { intros tail. destruct t as [|x t']; [now right|left].
    cbn [app] in Hfirst.
    rewrite startsWith_app_first.
    - rewrite percent_encode_first. now apply opaque_first_char.
    - intros E. now apply percent_encode_nil in E. }
  destruct (opaque_space_encoded && followed && is_char " " c) eqn:E.
  - rewrite rev_involutive. repeat split.
    + rewrite forallb_app, Henc by auto. reflexivity.
    + destruct (Hstart (str "%20")) as [H| ->]; auto.
    + now rewrite ends_solid_app by discriminate.
  - repeat split.
    + apply Henc. rewrite forallb_app, Hqt. exact Hqc.
    + rewrite percent_encode_snoc.
      destruct (Hstart (if c0_control_set c then percent_byte c else [c]))
        as [H| ->]; auto.
      cbn [percent_encode flat_map app]. cbn [app] in Hfirst.
      apply opaque_first_char. exact Hfirst.
    + destruct (negb opaque_space_encoded && followed) eqn:Et;
        [apply orb_true_r|]. rewrite orb_false_r.
      assert (Hc : is_char " " c = false).
      { destruct followed.
        - destruct opaque_space_encoded; [exact E|discriminate Et].
        - specialize (Hend eq_refl). rewrite ends_solid_snoc in Hend.
          now apply solid_not_space. }
      rewrite percent_encode_snoc, ends_solid_app by apply chunk_nonempty.
      now apply opaque_last_char.
Qed.

(** ** What follows the scheme *)

Lemma is_special_file : is_special (str "file") = true.
Proof. reflexivity. Qed.

Lemma parse_after_scheme_wf (sch rest : Str) (followed : bool) (p : Prefix) :
  parse_after_scheme sch followed rest = Some p ->
  Str_eqb sch (str "file") = false ->
  forallb not_qf rest = true ->
  (followed = false -> ends_solid rest = true) ->
  wf_prefix sch (negb opaque_space_encoded && followed) p = true.
Proof.
  unfold parse_after_scheme. intros H Hfile Hq Hend. rewrite Hfile in H.
  destruct (is_special sch) eqn:Esp.
  - now destruct (parse_authority_wf _ _ (negb opaque_space_encoded && followed)
                    _ H).
  - assert (Hnone : forall pth,
              wf_path false false (negb opaque_space_encoded && followed) pth
              = true ->
              wf_prefix sch (negb opaque_space_encoded && followed)
                        (mkPrefix [] [] None None pth) = true).
    { intros pth Hp. unfold wf_prefix.
      cbn [p_username p_password p_host p_port p_path forallb wf_authority
           has_credentials nonempty orb no_port wf_port has_some].
      rewrite Esp. exact Hp. }
    destruct rest as [|c r].
    + injection H as <-. now apply Hnone.
    + destruct (is_char "/" c) eqn:Ec.
      * destruct r as [|c' r'].
        -- injection H as <-. apply Hnone, parse_path_wf.
        -- destruct (is_char "/" c').
           ++ now destruct (parse_authority_wf
                              _ _ (negb opaque_space_encoded && followed)
                              _ H).
           ++ injection H as <-. apply Hnone, parse_path_wf.
      * injection H as <-. apply Hnone.
        destruct (opaque_path_wf followed (c :: r) Hq Ec Hend)
          as (H1 & H2 & H3).
        cbn [wf_path negb andb]. now rewrite H1, H2, H3.
Qed.

(** What the parser does before it scans: the cleaned input, cut at the
    first [#] and then at the first [?]. *)
Lemma url_parse_steps (input : Str) (u : URLRecord) :
  url_parse input = Some u ->
  exists bq qry frag rest p,
    break_at (is_char "#")
             (remove_tab_newline (trim_with is_c0_or_space input))
    = (fst (break_at (is_char "#")
              (remove_tab_newline (trim_with is_c0_or_space input))), frag)
    /\ break_at (is_char "?")
                (fst (break_at (is_char "#")
                   (remove_tab_newline (trim_with is_c0_or_space input))))
       = (bq, qry)
    /\ parse_scheme bq = Some (scheme u, rest)
    /\ parse_after_scheme (scheme u)
         (match qry, frag with None, None => false | _, _ => true end) rest
       = Some p
    /\ u = mkURL (scheme u) (p_username p) (p_password p) (p_host p)
                 (p_port p) (p_path p)
                 (option_map (query_encode (scheme u)) qry)
                 (option_map (percent_encode fragment_set) frag).
Proof.
  unfold url_parse.
  destruct (break_at (is_char "#") _) as [bf frag] eqn:Ef.
  destruct (break_at (is_char "?") bf) as [bq qry] eqn:Eq.
  destruct (parse_scheme bq) as [[sch rest]|] eqn:Es; [|discriminate].
  destruct (parse_after_scheme sch _ rest) as [p|] eqn:Ep; [|discriminate].
  intros H. injection H as <-. cbn [scheme fst].
  exists bq, qry, frag, rest, p. repeat split; auto.
Qed.

(** The parser returns well-formed records (for every scheme but [file],
    whose paths have rules of their own). *)
Lemma url_parse_wf (input : Str) (u : URLRecord) :
  url_parse input = Some u ->
  Str_eqb (scheme u) (str "file") = false ->
  wf_url u = true.
Proof.
  intros H Hfile.
  destruct (url_parse_steps _ _ H)
    as (bq & qry & frag & rest & p & Ef & Eq & Es & Ep & Eu).
  set (cleaned := remove_tab_newline (trim_with is_c0_or_space input)) in *.
  destruct (break_at_spec _ _ _ _ Ef) as (Hbf & Hfrag).
  destruct (break_at_spec _ _ _ _ Eq) as (Hbq & Hqry).
  set (bf := fst (break_at (is_char "#") cleaned)) in *.
  destruct (parse_scheme_spec _ _ _ Es) as (Wsch & raw & Eraw & _ & _).
  assert (Hbf_bq : exists tail, bf = bq ++ tail).
  { destruct qry as [q|].
    - destruct Hqry as (c & _ & ->). now exists (c :: q).
    - exists []. now rewrite app_nil_r. }
  destruct Hbf_bq as (tail & Ebf).
  assert (Hq : forallb not_qf rest = true).
  { assert (Hbq2 : forallb not_qf bq = true).
    { unfold not_qf. rewrite forallb_and, Hbq.
      rewrite Ebf in Hbf. apply forallb_prefix in Hbf. now rewrite Hbf. }
    rewrite Eraw in Hbq2. apply forallb_suffix in Hbq2.
    cbn [forallb] in Hbq2. now apply andb_prop in Hbq2. }
  assert (Hend : match qry, frag with None, None => false | _, _ => true end
                 = false -> ends_solid rest = true).
  { intros E. destruct qry; [discriminate|]. destruct frag; [discriminate|].
    assert (Ec : ends_solid cleaned = true)
      by (apply remove_tab_ends, trim_with_ends).
    rewrite Hfrag, Hqry, Eraw in Ec.
    destruct rest as [|x t]; [reflexivity|].
    change (raw ++ ":"%char :: x :: t) with (raw ++ [":"%char] ++ x :: t) in Ec.
    rewrite app_assoc in Ec. now apply ends_solid_suffix in Ec. }
  pose proof (parse_after_scheme_wf _ _ _ _ Ep Hfile Hq Hend) as Wp.
  unfold wf_url. rewrite Hfile, Wsch. cbn [negb andb].
  remember (scheme u) as sch eqn:Esch. rewrite Eu. unfold url_prefix.
  cbn [scheme username password host port path query fragment].
  replace (tail_free_of (option_map (query_encode sch) qry)
             (option_map (percent_encode fragment_set) frag))
    with (negb opaque_space_encoded
          && match qry, frag with None, None => false | _, _ => true end)
    by (unfold tail_free_of; now destruct qry, frag).
  destruct p as [a b c d e]. cbn [p_username p_password p_host p_port p_path]
    in *. rewrite Wp. cbn [andb].
  apply andb_true_intro. split.
  - destruct qry; cbn; auto using query_encode_wf.
  - destruct frag; cbn; auto using fragment_encode_wf.
Qed.

(* ====================================================================== *)
(** * A serialized record parses back *)
(* ====================================================================== *)

Lemma plain_calm (c : ascii) : plain c = true -> calm c = true.
Proof. each_char. Qed.

Lemma authority_char_plain (special : bool) (c : ascii) :
  authority_char special c = true ->
  plain c = true /\ is_slash c = (negb special && is_char "\" c)
  /\ is_char "/" c = false.
Proof. each_char; repeat split; reflexivity. Qed.

Lemma opaque_path_ok_calm (c : ascii) :
  opaque_path_ok c = true -> calm c = true /\ c0_control_set c = false.
Proof. each_char; repeat split; reflexivity. Qed.

Lemma plain_solid (c : ascii) : plain c = true -> solid c = true.
Proof. each_char. Qed.

Lemma lower_scheme_plain (c : ascii) :
  lower_scheme_char c = true -> plain c = true.
Proof. each_char. Qed.

Lemma list_path_plain (special : bool) (l : list Str) :
  forallb (wf_segment special) l = true ->
  forallb plain (path_serialize (ListPath l)) = true.
Proof.
  induction l as [|seg l IH]; intros H; [reflexivity|].
  cbn [forallb] in H. apply andb_prop in H as [Hseg H].
  destruct (wf_segment_facts _ _ Hseg) as (Hc & _).
  cbn [path_serialize flat_map] in *. rewrite forallb_app. cbn [forallb].
  rewrite (IH H), andb_true_r. cbn [andb].
  revert Hc. apply forallb_impl. intros c Hc.
  destruct (segment_ok_facts _ _ Hc) as (_ & _ & _ & Hs & Hq & Hp).
  unfold plain. now rewrite Hs, Hq, Hp.
Qed.

(** The host of a well-formed prefix, and what it implies. *)
Lemma wf_prefix_host (sch : Str) (tail_free : bool) (p : Prefix) (h : Host) :
  wf_prefix sch tail_free p = true -> p_host p = Some h ->
  wf_host (is_special sch) h = true
  /\ (h = EmptyHost ->
      has_credentials (p_username p) (p_password p) = false
      /\ p_port p = None)
  /\ (is_special sch = true -> h <> EmptyHost)
  /\ exists l, p_path p = ListPath l
               /\ forallb (wf_segment (is_special sch)) l = true
               /\ (is_special sch = true -> l <> []).
Proof.
  destruct p as [user pass hst prt pth]. unfold wf_prefix.
  cbn [p_username p_password p_host p_port p_path].
  intros W ->. cbn [has_some] in W.
  apply andb_prop in W as [W Wpath]. apply andb_prop in W as [W Wport].
  apply andb_prop in W as [W Wauth]. apply andb_prop in W as [Wu Wp].
  set (special := is_special sch) in *.
  assert (Wh : wf_host special h = true).
  { unfold wf_authority in Wauth. destruct h; auto.
    apply andb_prop in Wauth as [Wa _]. apply andb_prop in Wa as [Wa _].
    exact Wa. }
  split; [exact Wh|]. split; [|split].
  - intros ->. unfold wf_authority in Wauth.
    apply andb_prop in Wauth as [Wa Hprt]. apply andb_prop in Wa as [_ Hc].
    apply negb_true_iff in Hc. destruct prt; [discriminate|]. auto.
  - intros E ->. simpl in Wh. now rewrite E in Wh.
  - destruct pth as [o|l];
      [unfold wf_path in Wpath; now rewrite !andb_false_r in Wpath|].
    cbn [wf_path] in Wpath. apply andb_prop in Wpath as [Wsegs Wne].
    exists l. repeat split; auto.
    intros E. rewrite E in Wne. destruct l; discriminate.
Qed.

Lemma authority_serialize_chars (sch : Str) (tail_free : bool) (p : Prefix)
      (h : Host) :
  wf_prefix sch tail_free p = true -> p_host p = Some h ->
  forallb (authority_char (is_special sch)) (authority_serialize p) = true
  /\ (h <> EmptyHost -> authority_serialize p <> []).
Proof.
  intros W Hh. destruct (wf_prefix_host _ _ _ _ W Hh) as (Wh & _ & _ & _).
  destruct p as [user pass hst prt pth]. unfold wf_prefix in W.
  cbn [p_username p_password p_host p_port p_path] in *. subst hst.
  apply andb_prop in W as [W _]. apply andb_prop in W as [W Wport].
  apply andb_prop in W as [W _]. apply andb_prop in W as [Wu Wp].
  set (special := is_special sch) in *.
  unfold authority_serialize.
  cbn [p_username p_password p_host p_port p_path].
  destruct (host_serialize_facts special _ Wh) as (_ & Hh_auth & _).
  destruct (userinfo_chars special _ Wu) as (_ & _ & _ & Hu_auth).
  destruct (userinfo_chars special _ Wp) as (_ & _ & _ & Hpw_auth).
  split.
  - rewrite !forallb_app, Hh_auth. apply andb_true_intro. split.
    + unfold credentials_serialize. destruct (has_credentials user pass); auto.
      rewrite !forallb_app, Hu_auth. cbn [forallb andb].
      destruct (nonempty pass); cbn [forallb]; rewrite ?Hpw_auth;
        now destruct special.
    + destruct prt as [n|]; [|reflexivity]. simpl in Wport.
      apply andb_prop in Wport as [Hn _]. apply N.leb_le in Hn.
      destruct (dec_port n Hn) as (D & _).
      destruct (digit_chars special _ D) as (_ & D2).
      cbn [port_serialize forallb andb]. rewrite D2. now destruct special.
  - intros Hne E. apply app_eq_nil in E as [_ E].
    apply app_eq_nil in E as [E _].
    now apply (host_serialize_nonempty _ _ Wh Hne).
Qed.

(** The characters of what is serialized between the scheme and the
    query. *)
Lemma prefix_serialize_chars (sch : Str) (tail_free : bool) (p : Prefix) :
  wf_prefix sch tail_free p = true ->
  forallb calm (prefix_serialize p) = true
  /\ ends_solid (":"%char :: prefix_serialize p) || tail_free = true.
Proof.
  intros W. unfold prefix_serialize.
  destruct (p_host p) as [h|] eqn:Eh.
  - destruct (wf_prefix_host _ _ _ _ W Eh) as (_ & _ & _ & l & -> & Wl & _).
    destruct (authority_serialize_chars _ _ _ _ W Eh) as (Ha & _).
    assert (Hall : forallb plain
              ((str "//" ++ authority_serialize p)
               ++ path_serialize (ListPath l)) = true).
    { rewrite !forallb_app, (list_path_plain _ _ Wl). cbn [str forallb].
      rewrite andb_true_r. cbn [list_ascii_of_string forallb andb].
      revert Ha. apply forallb_impl. intros c Hc.
      now destruct (authority_char_plain _ _ Hc). }
    split.
    + revert Hall. apply forallb_impl, plain_calm.
    + apply orb_true_iff. left.
      apply ends_solid_all. cbn [forallb]. cbn [andb].
      revert Hall. apply forallb_impl, plain_solid.
  - destruct p as [user pass hst prt pth]. unfold wf_prefix in W.
    cbn [p_username p_password p_host p_port p_path] in *. subst hst.
    apply andb_prop in W as [_ Wpath]. cbn [has_some] in Wpath.
    destruct pth as [o|l].
    + cbn [wf_path] in Wpath.
      apply andb_prop in Wpath as [Wp He]. apply andb_prop in Wp as [Wp _].
      apply andb_prop in Wp as [_ Wo]. cbn [app path_serialize]. split.
      * revert Wo. apply forallb_impl. intros c Hc.
        now destruct (opaque_path_ok_calm _ Hc).
      * destruct o as [|x t]; [reflexivity|].
        change (":"%char :: x :: t) with ([":"%char] ++ x :: t).
        now rewrite ends_solid_app by discriminate.
    + cbn [wf_path] in Wpath. apply andb_prop in Wpath as [Wl _].
      pose proof (list_path_plain _ _ Wl) as Hl.
      assert (Hall : forallb plain
                (match l with [] :: _ :: _ => str "/." | _ => [] end
                 ++ path_serialize (ListPath l)) = true).
      { rewrite forallb_app, Hl, andb_true_r.
        destruct l as [|[|? ?] [|? ?]]; reflexivity. }
      split.
      * revert Hall. apply forallb_impl, plain_calm.
      * apply orb_true_iff. left.
        apply ends_solid_all. cbn [forallb]. cbn [andb].
        revert Hall. apply forallb_impl, plain_solid.
Qed.

Lemma split_join_gen (special : bool) (t : list Str) (x : Str) :
  forallb (fun c => negb (path_sep special c)) x = true ->
  forallb (wf_segment special) t = true ->
  split_on (path_sep special) (join_segments x t) = x :: t.
Proof.
  unfold join_segments. intros Hx Ht.
  destruct t as [|y t]; cbn [flat_map app].
  - rewrite app_nil_r. now apply split_on_none.
  - rewrite split_on_stop; auto using path_sep_slash.
    f_equal. now apply (split_join special t y).
Qed.

Lemma path_segments_skip_dot (seg : Str) (rest acc : list Str) :
  path_segments false (str "." :: seg :: rest) acc
  = path_segments false (seg :: rest) acc.
Proof.
  cbn [path_segments]. unfold path_set.
  destruct caret_in_path_set; reflexivity.
Qed.

(** A list path after a missing host: the serializer writes [/.] before
    a path that would otherwise start with two slashes. *)
Lemma parse_hostless_path (l : list Str) :
  forallb (wf_segment false) l = true -> l <> [] ->
  exists r,
    match l with [] :: _ :: _ => str "/." | _ => [] end
    ++ path_serialize (ListPath l) = "/"%char :: r
    /\ match r with c :: _ => is_char "/" c = false | [] => True end
    /\ parse_path false false r = ListPath l.
Proof.
  intros W Hne. destruct l as [|x t]; [congruence|].
  destruct x as [|c x'].
  - destruct t as [|y t'].
    + exists []. repeat split.
    + exists ("."%char :: "/"%char :: join_segments [] (y :: t')).
      repeat split. unfold parse_path.
      change ("."%char :: "/"%char :: join_segments [] (y :: t'))
        with (join_segments (str ".") ([] :: y :: t')).
      rewrite split_join_gen by (auto; reflexivity).
      rewrite path_segments_skip_dot.
      f_equal. exact (path_segments_serial false _ [] W).
  - exists (join_segments (c :: x') t). rewrite path_serialize_cons.
    repeat split.
    + cbn [forallb] in W. apply andb_prop in W as [Wx _].
      destruct (wf_segment_facts _ _ Wx) as (Hc & _).
      cbn [forallb] in Hc. apply andb_prop in Hc as [Hc _].
      unfold join_segments. cbn [app].
      now destruct (segment_ok_facts _ _ Hc) as (_ & _ & -> & _).
    + now apply parse_path_join.
Qed.

Lemma percent_encode_opaque_id (o : Str) :
  forallb opaque_path_ok o = true -> percent_encode c0_control_set o = o.
Proof.
  intros H. apply percent_encode_id. revert H. apply forallb_impl.
  intros c Hc. now destruct (opaque_path_ok_calm _ Hc) as (_ & ->).
Qed.

Lemma opaque_path_id (followed : bool) (o : Str) :
  forallb opaque_path_ok o = true ->
  ends_solid o || (negb opaque_space_encoded && followed) = true ->
  opaque_path followed o = o.
Proof.
  intros H He. unfold opaque_path.
  destruct (snoc_cases o) as [->|(t & c & ->)]; [reflexivity|].
  rewrite rev_app_distr. cbn [rev app].
  rewrite ends_solid_snoc in He.
  replace (opaque_space_encoded && followed && is_char " " c) with false.
  - now apply percent_encode_opaque_id.
  - apply orb_prop in He as [He|He].
    + now rewrite (solid_not_space _ He), andb_false_r.
    + apply andb_prop in He as [He _]. apply negb_true_iff in He.
      now rewrite He.
Qed.

(** What follows the scheme parses back to the components it was
    serialized from. *)
Lemma parse_after_scheme_serial (sch : Str) (p : Prefix) (followed : bool) :
  wf_prefix sch (negb opaque_space_encoded && followed) p = true ->
  Str_eqb sch (str "file") = false ->
  parse_after_scheme sch followed (prefix_serialize p) = Some p.
Proof.
  intros W Hfile. unfold parse_after_scheme. rewrite Hfile.
  unfold prefix_serialize.
  destruct (p_host p) as [h|] eqn:Eh.
  - destruct (wf_prefix_host _ _ _ _ W Eh) as (Wh & _ & Hsp & _).
    destruct (authority_serialize_chars _ _ _ _ W Eh) as (Ha & Hne).
    pose proof (parse_authority_serial _ _ _ _ W Eh) as Hp.
    rewrite <- app_assoc. cbn [str list_ascii_of_string app].
    destruct (is_special sch) eqn:Esp.
    + specialize (Hne (Hsp eq_refl)).
      destruct (authority_serialize p) as [|x t] eqn:EA; [congruence|].
      cbn [forallb] in Ha. apply andb_prop in Ha as [Hx _].
      destruct (authority_char_plain _ _ Hx) as (_ & Hs & _).
      cbn [negb andb] in Hs.
      cbn [drop_while is_slash]. change (is_char "/" "/") with true.
      cbn [orb app drop_while]. rewrite Hs. exact Hp.
    + change (is_char "/" "/") with true. cbv iota. exact Hp.
  - destruct p as [user pass hst prt pth]. unfold wf_prefix in W.
    cbn [p_username p_password p_host p_port p_path] in *. subst hst.
    apply andb_prop in W as [W Wpath]. apply andb_prop in W as [W _].
    apply andb_prop in W as [W Wauth]. cbn [has_some] in Wpath.
    unfold wf_authority in Wauth.
    apply andb_prop in Wauth as [Wa Hprt]. apply andb_prop in Wa as [Hsp Hc].
    apply negb_true_iff in Hsp, Hc. rewrite Hsp in *.
    destruct prt; [discriminate|].
    unfold has_credentials in Hc. apply orb_false_elim in Hc as [E1 E2].
    destruct user; [|discriminate]. destruct pass; [|discriminate].
    destruct pth as [o|l].
    + cbn [wf_path] in Wpath.
      apply andb_prop in Wpath as [Wp He]. apply andb_prop in Wp as [Wp Hs].
      apply andb_prop in Wp as [_ Wo]. apply negb_true_iff in Hs.
      cbn [app path_serialize]. destruct o as [|c r]; [reflexivity|].
      assert (Ec : is_char "/" c = false).
      { unfold str in Hs. cbn [list_ascii_of_string startsWith] in Hs.
        apply andb_false_iff in Hs as [Hs|Hs]; [exact Hs|].
        now destruct r. }
      rewrite Ec. now rewrite opaque_path_id.
    + cbn [wf_path] in Wpath. apply andb_prop in Wpath as [Wl Hne].
      cbn [negb andb orb] in Hne.
      assert (Hl : l <> []) by (destruct l; [discriminate|discriminate]).
      destruct (parse_hostless_path l Wl Hl) as (r & -> & Hr & Hp).
      change (is_char "/" "/") with true. cbv iota.
      destruct r as [|c' r']; [now rewrite Hp|].
      rewrite Hr. now rewrite Hp.
Qed.

Lemma url_serialize_eq (u : URLRecord) :
  url_serialize u
  = (scheme u ++ ":"%char :: prefix_serialize (url_prefix u))
    ++ query_serialize (query u) ++ fragment_serialize (fragment u).
Proof.
  unfold url_serialize, prefix_serialize, authority_serialize,
    credentials_serialize, includes_credentials, has_credentials, url_prefix,
    query_serialize, fragment_serialize, port_serialize.
  cbn [p_host p_username p_password p_port p_path].
  destruct (host u); cbn [app]; rewrite <- ?app_assoc; cbn [app];
    rewrite <- ?app_assoc; reflexivity.
Qed.

Lemma query_ok_facts (special : bool) (c : ascii) :
  negb ((if special then special_query_set else query_set) c) = true ->
  solid c = true /\ no_hash c = true /\ no_tab c = true.
Proof. each_char; repeat split; reflexivity. Qed.

Lemma fragment_ok_facts (c : ascii) :
  fragment_ok c = true ->
  solid c = true /\ no_tab c = true /\ fragment_set c = false.
Proof. each_char; repeat split; reflexivity. Qed.

Lemma calm_facts (c : ascii) :
  calm c = true ->
  no_tab c = true /\ no_hash c = true /\ no_question c = true.
Proof. each_char; repeat split; reflexivity. Qed.

Lemma is_lower_solid (c : ascii) :
  is_lower c = true -> is_c0_or_space c = false /\ calm c = true.
Proof. each_char; repeat split; reflexivity. Qed.

(** The characters of a serialized well-formed record. *)
Lemma serialized_chars (u : URLRecord) :
  wf_url u = true ->
  let P := scheme u ++ ":"%char :: prefix_serialize (url_prefix u) in
  let Q := query_serialize (query u) in
  let F := fragment_serialize (fragment u) in
  forallb calm P = true
  /\ ends_solid P || tail_free_of (query u) (fragment u) = true
  /\ (exists c r, P = c :: r /\ is_c0_or_space c = false)
  /\ forallb solid Q = true /\ forallb no_tab Q = true
  /\ forallb no_hash Q = true
  /\ forallb solid F = true /\ forallb no_tab F = true.
Proof.
  unfold wf_url. intros W.
  apply andb_prop in W as [W Wf]. apply andb_prop in W as [W Wq].
  apply andb_prop in W as [W Wp]. apply andb_prop in W as [_ Ws].
  destruct (prefix_serialize_chars _ _ _ Wp) as (Hc & He).
  cbv zeta. repeat split.
  - rewrite forallb_app. cbn [forallb]. rewrite Hc.
    replace (calm ":") with true by reflexivity. rewrite ?andb_true_r.
    apply wf_scheme_lower in Ws. revert Ws. apply forallb_impl.
    intros c Hx. now apply plain_calm, lower_scheme_plain.
  - rewrite ends_solid_app by discriminate. exact He.
  - destruct (scheme u) as [|c r]; [discriminate|].
    exists c. eexists. split; [reflexivity|].
    cbn [wf_scheme] in Ws. apply andb_prop in Ws as [Hl _].
    now destruct (is_lower_solid _ Hl).
  - destruct (query u) as [q|]; [|reflexivity]. cbn [query_serialize forallb].
    cbn [wf_opt] in Wq. cbn [andb]. revert Wq. apply forallb_impl.
    intros c Hx. now destruct (query_ok_facts _ _ Hx).
  - destruct (query u) as [q|]; [|reflexivity]. cbn [query_serialize forallb].
    cbn [wf_opt] in Wq. cbn [andb]. revert Wq. apply forallb_impl.
    intros c Hx. now destruct (query_ok_facts _ _ Hx) as (_ & _ & ->).
  - destruct (query u) as [q|]; [|reflexivity]. cbn [query_serialize forallb].
    cbn [wf_opt] in Wq. cbn [andb]. revert Wq. apply forallb_impl.
    intros c Hx. now destruct (query_ok_facts _ _ Hx) as (_ & -> & _).
  - destruct (fragment u) as [f|]; [|reflexivity].
    cbn [fragment_serialize forallb]. cbn [wf_opt] in Wf. cbn [andb].
    revert Wf. apply forallb_impl.
    intros c Hx. now destruct (fragment_ok_facts _ Hx).
  - destruct (fragment u) as [f|]; [|reflexivity].
    cbn [fragment_serialize forallb]. cbn [wf_opt] in Wf. cbn [andb].
    revert Wf. apply forallb_impl.
    intros c Hx. now destruct (fragment_ok_facts _ Hx) as (_ & -> & _).
Qed.

Lemma calm_printable (c : ascii) : calm c = true -> printable c = true.
Proof. each_char. Qed.

Lemma query_ok_printable (special : bool) (c : ascii) :
  negb ((if special then special_query_set else query_set) c) = true ->
  printable c = true.
Proof. each_char. Qed.

Lemma fragment_ok_printable (c : ascii) :
  fragment_ok c = true -> printable c = true.
Proof. each_char. Qed.

(** A serialized well-formed record is printable ASCII. *)
Lemma serialized_printable (u : URLRecord) :
  wf_url u = true -> forallb printable (url_serialize u) = true.
Proof.
  intros W. rewrite url_serialize_eq.
  destruct (serialized_chars u W) as (Pc & _).
  cbv zeta in Pc. unfold wf_url in W.
  apply andb_prop in W as [W Wf]. apply andb_prop in W as [_ Wq].
  rewrite forallb_app. apply andb_true_intro. split.
  - revert Pc. apply forallb_impl, calm_printable.
  - rewrite forallb_app. apply andb_true_intro. split.
    + destruct (query u) as [q|]; [|reflexivity].
      cbn [query_serialize forallb wf_opt] in *.
      apply andb_true_intro. split; [reflexivity|].
      revert Wq. apply forallb_impl. intros c Hc.
      now apply (query_ok_printable (is_special (scheme u))).
    + destruct (fragment u) as [f|]; [|reflexivity].
      cbn [fragment_serialize forallb wf_opt] in *.
      apply andb_true_intro. split; [reflexivity|].
      revert Wf. apply forallb_impl, fragment_ok_printable.
Qed.

Lemma ends_solid_app_all (a b : Str) :
  ends_solid a = true -> forallb solid b = true ->
  ends_solid (a ++ b) = true.
Proof.
  intros Ha Hb. destruct b as [|c t]; [now rewrite app_nil_r|].
  rewrite ends_solid_app by discriminate. now apply ends_solid_all.
Qed.

(** Nothing is stripped from a serialized record. *)
Lemma serialized_clean (u : URLRecord) :
  wf_url u = true ->
  remove_tab_newline (trim_with is_c0_or_space (url_serialize u))
  = url_serialize u
  /\ ends_solid (url_serialize u) = true
  /\ exists c r, url_serialize u = c :: r /\ is_c0_or_space c = false.
Proof.
  intros W. rewrite url_serialize_eq.
  destruct (serialized_chars u W)
    as (Pc & Pe & (c & r & EP & Hc) & Qs & Qt & _ & Fs & Ft).
  cbv zeta in *.
  set (P := scheme u ++ ":"%char :: prefix_serialize (url_prefix u)) in *.
  assert (He : ends_solid (P ++ query_serialize (query u)
                             ++ fragment_serialize (fragment u)) = true).
  { assert (Hs : forallb solid (query_serialize (query u)
                                ++ fragment_serialize (fragment u)) = true)
      by now rewrite forallb_app, Qs, Fs.
    destruct (query_serialize (query u) ++ fragment_serialize (fragment u))
      as [|x t] eqn:E.
    - rewrite app_nil_r. apply orb_prop in Pe as [Pe|Pe]; [exact Pe|].
      exfalso. unfold tail_free_of in Pe. apply andb_prop in Pe as [_ Pe].
      destruct (query u); [discriminate E|].
      destruct (fragment u); [discriminate E|discriminate Pe].
    - rewrite ends_solid_app by discriminate. now apply ends_solid_all. }
  assert (Hfirst : exists c' r',
            P ++ query_serialize (query u) ++ fragment_serialize (fragment u)
            = c' :: r' /\ is_c0_or_space c' = false).
  { rewrite EP. exists c. eexists. split; [reflexivity|exact Hc]. }
  split; [|split; auto].
  rewrite trim_with_id.
  - apply filter_id. rewrite !forallb_app.
    fold no_tab. change (fun c0 => negb (is_tab_or_newline c0)) with no_tab.
    rewrite Qt, Ft, andb_true_r. revert Pc. apply forallb_impl.
    intros x Hx. now destruct (calm_facts _ Hx).
  - destruct Hfirst as (c' & r' & -> & Hc'). exact Hc'.
  - unfold ends_solid in He. destruct (rev _); auto.
    unfold solid in He. now apply negb_true_iff in He.
Qed.

(** C: a well-formed record is what its serialization parses to. *)
Lemma url_parse_serialize (u : URLRecord) :
  wf_url u = true -> url_parse (url_serialize u) = Some u.
Proof.
  intros W. unfold url_parse.
  destruct (serialized_clean u W) as (-> & _ & _).
  rewrite url_serialize_eq.
  destruct (serialized_chars u W)
    as (Pc & _ & _ & _ & _ & Qh & _ & _).
  cbv zeta in *.
  set (P := scheme u ++ ":"%char :: prefix_serialize (url_prefix u)) in *.
  unfold wf_url in W.
  apply andb_prop in W as [W Wf]. apply andb_prop in W as [W Wq].
  apply andb_prop in W as [W Wp]. apply andb_prop in W as [Hfile Ws].
  apply negb_true_iff in Hfile.
  assert (Ph : forallb (fun x => negb (is_char "#" x)) P = true).
  { revert Pc. apply forallb_impl. intros x Hx.
    exact (proj1 (proj2 (calm_facts _ Hx))). }
  assert (Pq : forallb (fun x => negb (is_char "?" x)) P = true).
  { revert Pc. apply forallb_impl. intros x Hx.
    exact (proj2 (proj2 (calm_facts _ Hx))). }
  assert (Hbf : break_at (is_char "#")
                  (P ++ query_serialize (query u)
                     ++ fragment_serialize (fragment u))
                = (P ++ query_serialize (query u), fragment u)).
  { rewrite app_assoc.
    assert (Hall : forallb (fun x => negb (is_char "#" x))
                     (P ++ query_serialize (query u)) = true)
      by (now rewrite forallb_app, Ph; exact Qh).
    destruct (fragment u) as [f|]; cbn [fragment_serialize].
    - now apply break_at_stop.
    - rewrite app_nil_r. now apply break_at_none. }
  rewrite Hbf.
  assert (Hbq : break_at (is_char "?") (P ++ query_serialize (query u))
                = (P, query u)).
  { destruct (query u) as [q|]; cbn [query_serialize].
    - now apply break_at_stop.
    - rewrite app_nil_r. now apply break_at_none. }
  rewrite Hbq. unfold P.
  rewrite (parse_scheme_serial _ _ Ws).
  rewrite (parse_after_scheme_serial (scheme u) (url_prefix u)
             (match query u, fragment u with
              | None, None => false
              | _, _ => true
              end)); [|now destruct (query u), (fragment u)|exact Hfile].
  assert (Eq : option_map (query_encode (scheme u)) (query u) = query u).
  { destruct (query u) as [q|]; [|reflexivity]. cbn [option_map wf_opt] in *.
    f_equal. unfold query_encode. apply percent_encode_id. exact Wq. }
  assert (Ef : option_map (percent_encode fragment_set) (fragment u)
               = fragment u).
  { destruct (fragment u) as [f|]; [|reflexivity]. cbn [option_map wf_opt] in *.
    f_equal. apply percent_encode_id. exact Wf. }
  rewrite Eq, Ef. now destruct u.
Qed.

(* ====================================================================== *)
(** * The URL object that [cleanUrl] rebuilds *)
(* ====================================================================== *)

Lemma wf_url_parts (u : URLRecord) :
  wf_url u = true <->
  Str_eqb (scheme u) (str "file") = false
  /\ wf_scheme (scheme u) = true
  /\ wf_prefix (scheme u) (tail_free_of (query u) (fragment u))
               (url_prefix u) = true
  /\ wf_opt (query_ok (scheme u)) (query u) = true
  /\ wf_opt fragment_ok (fragment u) = true.
Proof.
  unfold wf_url. rewrite !andb_true_iff, negb_true_iff. tauto.
Qed.

(** A path that is well formed with nothing after it is so with a query
    or a fragment after it. *)
Lemma wf_prefix_tail (sch : Str) (tail_free : bool) (p : Prefix) :
  wf_prefix sch false p = true -> wf_prefix sch tail_free p = true.
Proof.
  unfold wf_prefix. intros H.
  apply andb_prop in H as [H Hp]. rewrite H. cbn [andb].
  destruct (p_path p) as [o|l]; [|exact Hp].
  cbn [wf_path] in *. apply andb_prop in Hp as [Hp He]. rewrite Hp.
  rewrite orb_false_r in He. now rewrite He.
Qed.

Lemma with_query_fragment_wf (u : URLRecord) (q f : option Str) :
  wf_url u = true ->
  query u = None -> fragment u = None ->
  wf_opt (query_ok (scheme u)) q = true ->
  wf_opt fragment_ok f = true ->
  wf_url (with_query_fragment u q f) = true.
Proof.
  rewrite !wf_url_parts. intros (H1 & H2 & H3 & _ & _) Eq Ef Hq Hf.
  rewrite Eq, Ef in H3. destruct u.
  cbn [with_query_fragment scheme query fragment] in *.
  repeat split; auto. apply wf_prefix_tail.
  unfold tail_free_of in H3. rewrite andb_false_r in H3. exact H3.
Qed.

(** What [rebuild] returns: the parsed origin and path name, with the
    text of the kept parameters as its query when there is one, and a
    fragment that is the parsed one or one written by the hash setter. *)
Lemma rebuild_spec (url : URLRecord) (kept : Params) (cu : URLRecord) :
  rebuild URL_new url kept = Normal cu ->
  exists u0 f,
    url_parse (url_origin URL_new url ++ url_pathname url) = Some u0
    /\ cu = with_query_fragment u0 (rebuilt_query u0 kept) f
    /\ (f = fragment u0 \/ wf_opt fragment_ok f = true).
Proof.
  rewrite rebuild_eq. unfold URL_new at 1.
  destruct (url_parse (url_origin URL_new url ++ url_pathname url))
    as [u0|] eqn:Ep; [|discriminate].
  intros H. injection H as <-. exists u0. eexists.
  split; [reflexivity|]. split; [reflexivity|].
  pose proof (rebuilt_fragment_wf url) as Hf.
  destruct (rebuilt_fragment url); auto.
Qed.

(** [rebuild] fails only when the origin followed by the path name does
    not parse, with the error of [new URL]. *)
Lemma rebuild_throws (url : URLRecord) (kept : Params) (e : JsError) :
  rebuild URL_new url kept = Throw e ->
  e = TypeError (invalid_url_message
                   (url_origin URL_new url ++ url_pathname url))
  /\ url_parse (url_origin URL_new url ++ url_pathname url) = None.
Proof.
  rewrite rebuild_eq. unfold URL_new at 1.
  destruct (url_parse (url_origin URL_new url ++ url_pathname url));
    [discriminate|].
  intros H. now injection H as <-.
Qed.

Lemma rebuild_fails (url : URLRecord) (kept : Params) :
  url_parse (url_origin URL_new url ++ url_pathname url) = None ->
  rebuild URL_new url kept
  = Throw (TypeError (invalid_url_message
                        (url_origin URL_new url ++ url_pathname url))).
Proof.
  intros Ep. rewrite rebuild_eq. unfold URL_new at 1. now rewrite Ep.
Qed.

(* ====================================================================== *)
(** * The origin followed by the path name *)
(* ====================================================================== *)

Lemma drop_while_app_solid (p : ascii -> bool) (a : Str) (x : ascii) (b : Str) :
  p x = false -> drop_while p (a ++ x :: b) = drop_while p a ++ x :: b.
Proof.
  intros Hx. induction a as [|c a IH]; cbn [app drop_while].
  - now rewrite Hx.
  - destruct (p c); auto.
Qed.

Lemma solid_spec (c : ascii) : solid c = true -> is_c0_or_space c = false.
Proof. unfold solid. now rewrite negb_true_iff. Qed.

(** Trimming leaves a solid front alone. *)
Lemma trim_with_prefix (lit r : Str) :
  lit <> [] -> forallb solid lit = true ->
  exists r', trim_with is_c0_or_space (lit ++ r) = lit ++ r'.
Proof.
  intros Hne Hs. unfold trim_with.
  destruct lit as [|c lit']; [congruence|].
  assert (Hc : is_c0_or_space c = false).
  { cbn [forallb] in Hs. apply andb_prop in Hs as [Hc _].
    now apply solid_spec. }
  cbn [app]. rewrite (drop_while_solid _ _ _ Hc).
  change (c :: lit' ++ r) with ((c :: lit') ++ r).
  destruct (snoc_cases (c :: lit')) as [E|(t & z & E)]; [discriminate|].
  rewrite E in *. rewrite forallb_app in Hs. apply andb_prop in Hs as [_ Hz].
  cbn [forallb] in Hz. apply andb_prop in Hz as [Hz _].
  apply solid_spec in Hz.
  rewrite rev_app_distr, rev_app_distr. cbn [rev app].
  rewrite (drop_while_app_solid _ _ _ _ Hz).
  exists (rev (drop_while is_c0_or_space (rev r))).
  change (c :: lit' ++ rev (drop_while is_c0_or_space (rev r)))
    with ((c :: lit') ++ rev (drop_while is_c0_or_space (rev r))).
  rewrite E, rev_app_distr. cbn [rev]. rewrite rev_involutive.
  reflexivity.
Qed.

Lemma break_at_prefix (p : ascii -> bool) (lit r : Str) :
  forallb (fun c => negb (p c)) lit = true ->
  exists r', fst (break_at p (lit ++ r)) = lit ++ r'.
Proof.
  induction lit as [|c lit IH]; intros H; cbn [app].
  - eexists. reflexivity.
  - cbn [forallb] in H. apply andb_prop in H as [Hc H].
    apply negb_true_iff in Hc. cbn [break_at]. rewrite Hc.
    destruct (IH H) as [r' E].
    destruct (break_at p (lit ++ r)) as [a b]. cbn [fst] in *.
    exists r'. now rewrite E.
Qed.

Lemma plain_facts (c : ascii) :
  plain c = true ->
  solid c = true /\ no_tab c = true /\ no_hash c = true
  /\ no_question c = true.
Proof. each_char; repeat split; reflexivity. Qed.

(** What the parser scans starts with the plain front of the input. *)
Lemma scan_prefix (lit r : Str) :
  lit <> [] -> forallb plain lit = true ->
  exists r',
    fst (break_at (is_char "?")
           (fst (break_at (is_char "#")
                   (remove_tab_newline
                      (trim_with is_c0_or_space (lit ++ r))))))
    = lit ++ r'.
Proof.
  intros Hne Hp.
  assert (F : forall q, (forall c, plain c = true -> q c = true) ->
              forallb q lit = true).
  { intros q Hq. revert Hp. now apply forallb_impl. }
  destruct (trim_with_prefix lit r Hne) as [r1 ->].
  { apply F. intros c Hc. now destruct (plain_facts _ Hc). }
  unfold remove_tab_newline. rewrite filter_app, filter_id.
  2:{ apply F. intros c Hc. exact (proj1 (proj2 (plain_facts _ Hc))). }
  destruct (break_at_prefix (is_char "#") lit
              (filter (fun c => negb (is_tab_or_newline c)) r1)) as [r2 ->].
  { apply F. intros c Hc. exact (proj1 (proj2 (proj2 (plain_facts _ Hc)))). }
  apply break_at_prefix.
  apply F. intros c Hc. exact (proj2 (proj2 (proj2 (plain_facts _ Hc)))).
Qed.

(** The scheme of a parsed URL is read from the plain front of the
    input. *)
Lemma url_parse_front (lit r : Str) (u : URLRecord) :
  url_parse (lit ++ r) = Some u ->
  lit <> [] -> forallb plain lit = true ->
  exists r' rest, parse_scheme (lit ++ r') = Some (scheme u, rest).
Proof.
  intros H Hne Hp.
  destruct (url_parse_steps _ _ H)
    as (bq & qry & frag & rest & p & _ & Eq & Es & _ & _).
  destruct (scan_prefix lit r Hne Hp) as [r' E].
  rewrite Eq in E. cbn [fst] in E. subst bq. eauto.
Qed.

Lemma url_parse_null_fails (r : Str) :
  match r with [] => True | c :: _ => is_char "/" c = true end ->
  url_parse (str "null" ++ r) = None.
Proof.
  intros Hr. destruct r as [|c r0]; [reflexivity|].
  apply Ascii.eqb_eq in Hr. subst c.
  destruct (url_parse (str "null" ++ "/"%char :: r0)) as [u|] eqn:E;
    [|reflexivity].
  change (str "null" ++ "/"%char :: r0) with (str "null/" ++ r0) in E.
  destruct (url_parse_front _ _ _ E) as (r' & rest & Hs);
    [discriminate|reflexivity|].
  discriminate Hs.
Qed.

Lemma parse_scheme_head (c : ascii) (r sch rest : Str) :
  parse_scheme (c :: r) = Some (sch, rest) ->
  exists t, sch = lower_char c :: t.
Proof.
  intros H. destruct (parse_scheme_spec _ _ _ H) as (_ & raw & E & -> & Hne).
  destruct raw as [|x raw']; [congruence|].
  injection E as <- _. eexists. reflexivity.
Qed.

Lemma array_includes_In (l : list Str) (x : Str) :
  array_includes l x = true -> In x l.
Proof.
  unfold array_includes. rewrite existsb_exists.
  intros (y & Hy & E). apply Str_eqb_eq in E. now subst.
Qed.

Lemma has_tuple_origin_cases (sch : Str) :
  has_tuple_origin sch = true ->
  sch = str "ftp" \/ sch = str "http" \/ sch = str "https"
  \/ sch = str "ws" \/ sch = str "wss".
Proof.
  intros H. apply array_includes_In in H. cbn [map In] in H.
  intuition auto.
Qed.

(** A URL spelled by a tuple origin has the scheme of that origin. *)
Lemma tuple_origin_scheme (v u0 : URLRecord) (r : Str) :
  has_tuple_origin (scheme v) = true ->
  url_parse (tuple_origin v ++ r) = Some u0 ->
  scheme u0 = scheme v.
Proof.
  intros Ht H. unfold tuple_origin in H. rewrite <- !app_assoc in H.
  destruct (has_tuple_origin_cases _ Ht) as [E|[E|[E|[E|E]]]];
    rewrite E in *;
    match type of H with
    | url_parse (str ?s ++ str "://" ++ ?rest) = _ =>
        change (str s ++ str "://" ++ rest)
          with ((str s ++ str ":") ++ str "//" ++ rest) in H;
        destruct (url_parse_front _ _ _ H) as (r' & rest' & Hs);
          [discriminate|reflexivity|]
    end;
    cbn in Hs; now injection Hs as <- _.
Qed.

Lemma not_file_head (c : ascii) (t : Str) :
  Ascii.eqb c "f" = false -> Str_eqb (c :: t) (str "file") = false.
Proof.
  intros H. destruct (Str_eqb (c :: t) (str "file")) eqn:E; [|reflexivity].
  apply Str_eqb_eq in E. injection E as -> _. discriminate.
Qed.

(** The URL that [cleanUrl] rebuilds is never a [file:] URL, and has the
    scheme of the cleaned URL when that one has a tuple origin. *)
Lemma rebuilt_scheme (url u0 : URLRecord) :
  url_parse (url_origin URL_new url ++ url_pathname url) = Some u0 ->
  Str_eqb (scheme u0) (str "file") = false
  /\ (has_tuple_origin (scheme url) = true -> scheme u0 = scheme url).
Proof.
  assert (Hnull : forall r, url_parse (str "null" ++ r) = Some u0 ->
            Str_eqb (scheme u0) (str "file") = false).
  { intros r H.
    destruct (url_parse_front (str "null") r u0 H) as (r' & rest & Hs);
      [discriminate|reflexivity|].
    destruct (parse_scheme_head _ _ _ _ Hs) as [t ->].
    now apply not_file_head. }
  assert (Htuple : forall v r, has_tuple_origin (scheme v) = true ->
            url_parse (tuple_origin v ++ r) = Some u0 ->
            Str_eqb (scheme u0) (str "file") = false).
  { intros v r Ht H. rewrite (tuple_origin_scheme v u0 r Ht H).
    destruct (has_tuple_origin_cases _ Ht) as [E|[E|[E|[E|E]]]];
      now rewrite E. }
  unfold url_origin. destruct (has_tuple_origin (scheme url)) eqn:Ht.
  - intros H. split; [exact (Htuple url _ Ht H)|].
    intros _. exact (tuple_origin_scheme url u0 _ Ht H).
  - intros H. split; [|discriminate].
    destruct (Str_eqb (scheme url) (str "blob")); [|now apply (Hnull _ H)].
    unfold URL_new in H.
    destruct (url_parse (url_pathname url)) as [inner|];
      [|now apply (Hnull _ H)].
    destruct (array_includes _ (scheme inner)) eqn:Ei;
      [|now apply (Hnull _ H)].
    refine (Htuple inner _ _ H).
    apply array_includes_In in Ei. cbn [map In] in Ei.
    destruct Ei as [<-|[<-|[]]]; reflexivity.
Qed.

(* ====================================================================== *)
(** * [trim] on a serialized URL *)
(* ====================================================================== *)

Lemma printable_front (a : ascii) (r : Str) :
  printable a = true -> solid a = true -> space_length (a :: r) = 0.
Proof.
  intros Hp Hs. destruct r as [|b [|c r]]; revert Hp Hs;
    destruct a as [[] [] [] [] [] [] [] []]; vm_compute; intros;
    try reflexivity; discriminate.
Qed.

Lemma printable_last (c : ascii) :
  printable c = true -> solid c = true ->
  in_range 9 13 c || is_byte 32 c = false
  /\ is_byte 160 c = false
  /\ in_range 128 138 c || is_byte 168 c || is_byte 169 c || is_byte 175 c
     = false
  /\ is_byte 128 c = false /\ is_byte 159 c = false
  /\ is_byte 191 c = false.
Proof. each_char; repeat split; reflexivity. Qed.

Lemma printable_back (c : ascii) (r : Str) :
  printable c = true -> solid c = true -> space_length_rev (c :: r) = 0.
Proof.
  intros Hp Hs.
  destruct (printable_last c Hp Hs) as (E1 & E2 & E3 & E4 & E5 & E6).
  unfold space_length_rev, is_space3. rewrite E1, E2, E3, E4, E5, E6.
  destruct r as [|b [|a r]]; rewrite ?andb_false_r; reflexivity.
Qed.

(** [trim] leaves printable ASCII that neither starts nor ends with a
    space as it is. *)
Lemma trim_printable (s : Str) :
  forallb printable s = true ->
  match s with c :: _ => solid c = true | [] => True end ->
  ends_solid s = true ->
  trim s = s.
Proof.
  intros Hp Hfirst Hlast. unfold trim.
  destruct s as [|c r]; [reflexivity|].
  assert (Hr : forallb printable (rev (c :: r)) = true)
    by now rewrite forallb_rev.
  cbn [forallb] in Hp. apply andb_prop in Hp as [Hc _].
  cbn [drop_spaces]. rewrite (printable_front c r Hc Hfirst).
  unfold ends_solid in Hlast.
  destruct (rev (c :: r)) as [|z t] eqn:E.
  - apply (f_equal (@rev ascii)) in E. now rewrite rev_involutive in E.
  - cbn [forallb] in Hr. apply andb_prop in Hr as [Hz _].
    cbn [drop_spaces]. rewrite (printable_back z t Hz Hlast).
    rewrite <- E. apply rev_involutive.
Qed.

(* ====================================================================== *)
(** * The rebuilt URL is well formed and reparses *)
(* ====================================================================== *)

Lemma bare_wf (u : URLRecord) :
  wf_url u = true -> is_special (scheme u) = true -> wf_url (bare u) = true.
Proof.
  intros H Hsp. apply wf_url_parts in H as (Hf & Hs & Hp & _ & _).
  apply wf_url_parts. cbn [bare scheme query fragment wf_opt].
  repeat split; auto.
  unfold wf_prefix, url_prefix in *.
  cbn [bare scheme username password host port path
       p_username p_password p_host p_port p_path forallb] in *.
  rewrite Hsp in *.
  repeat (apply andb_prop in Hp as [Hp ?]).
  match goal with
  | Ha : wf_authority _ _ _ _ _ = true, Hpo : wf_port _ _ = true,
    Hpa : wf_path _ _ _ _ = true |- _ =>
      assert (Ha' : wf_authority true [] [] (host u) (port u) = true)
        by (unfold wf_authority in *; destruct (host u) as [[]|]; auto);
      assert (Hpa' : wf_path true (has_some (host u))
                       (tail_free_of None None) (path u) = true)
        by (destruct (path u); [discriminate Hpa|exact Hpa]);
      now rewrite Ha', Hpo, Hpa'
  end.
Qed.

Lemma tuple_origin_special (sch : Str) :
  has_tuple_origin sch = true -> is_special sch = true.
Proof.
  intros H.
  destruct (has_tuple_origin_cases _ H) as [E|[E|[E|[E|E]]]];
    now rewrite E.
Qed.

(** For a scheme with a tuple origin, the origin followed by the path
    name is the serialization of the record without credentials, query
    and fragment. *)
Lemma bare_serialize (u : URLRecord) :
  wf_url u = true -> has_tuple_origin (scheme u) = true ->
  url_origin URL_new u ++ url_pathname u = url_serialize (bare u).
Proof.
  intros H Ht. unfold url_origin. rewrite Ht.
  apply wf_url_parts in H as (_ & _ & Hp & _ & _).
  apply tuple_origin_special in Ht.
  unfold wf_prefix, url_prefix in Hp.
  cbn [p_username p_password p_host p_port p_path] in Hp.
  repeat (apply andb_prop in Hp as [Hp ?]).
  unfold tuple_origin, url_serialize, url_pathname, includes_credentials.
  cbn [bare scheme username password host port path query fragment
       nonempty orb].
  destruct (host u) as [h|].
  - rewrite <- !app_assoc. cbn [app str list_ascii_of_string].
    now rewrite !app_nil_r.
  - unfold wf_authority in *. rewrite Ht in *. discriminate.
Qed.

Lemma origin_path_parses (u : URLRecord) :
  wf_url u = true -> has_tuple_origin (scheme u) = true ->
  url_parse (url_origin URL_new u ++ url_pathname u) = Some (bare u).
Proof.
  intros H Ht. rewrite (bare_serialize u H Ht).
  apply url_parse_serialize.
  apply bare_wf; auto. now apply tuple_origin_special.
Qed.

Lemma form_text_query_ok (sch : Str) (text : Str) :
  forallb form_text text = true -> forallb (query_ok sch) text = true.
Proof.
  apply forallb_impl. intros c Hc.
  destruct (form_text_facts _ Hc) as (_ & _ & Hs & Hq).
  unfold query_ok. destruct (is_special sch); now rewrite ?Hs, ?Hq.
Qed.

Lemma rebuilt_query_wf (u0 : URLRecord) (kept : Params) :
  wf_url u0 = true ->
  wf_opt (query_ok (scheme u0)) (rebuilt_query u0 kept) = true.
Proof.
  intros H. unfold rebuilt_query.
  pose proof (form_serialize_text kept) as Ht.
  destruct (form_serialize kept) as [|c r] eqn:E.
  - now apply wf_url_parts in H as (_ & _ & _ & Hq & _).
  - cbn [wf_opt]. now apply form_text_query_ok.
Qed.

(** [trim] leaves a serialized URL alone. *)
Lemma trim_serialized (u : URLRecord) :
  wf_url u = true -> trim (url_serialize u) = url_serialize u.
Proof.
  intros H. destruct (serialized_clean u H) as (_ & He & c & r & E & Hc).
  apply trim_printable; auto.
  - now apply serialized_printable.
  - rewrite E. unfold solid. now rewrite Hc.
Qed.


(* ====================================================================== *)
(** * The query of the rebuilt URL *)
(* ====================================================================== *)

Lemma forallb_drop_while (q p : ascii -> bool) (s : Str) :
  forallb q s = true -> forallb q (drop_while p s) = true.
Proof.
  intros H. destruct (drop_while_suffix p s) as [a E].
  rewrite E in H. now apply forallb_suffix in H.
Qed.

Lemma forallb_trim_with (q p : ascii -> bool) (s : Str) :
  forallb q s = true -> forallb q (trim_with p s) = true.
Proof.
  intros H. unfold trim_with. rewrite forallb_rev.
  apply forallb_drop_while. rewrite forallb_rev.
  now apply forallb_drop_while.
Qed.

(** A text without [?] and [#] parses to a URL without query and
    fragment. *)
Lemma url_parse_calm (x : Str) (u0 : URLRecord) :
  forallb calm x = true -> url_parse x = Some u0 ->
  query u0 = None /\ fragment u0 = None.
Proof.
  intros Hc H.
  destruct (url_parse_steps _ _ H)
    as (bq & qry & frag & rest & p & Ef & Eq & _ & _ & Eu).
  set (cleaned := remove_tab_newline (trim_with is_c0_or_space x)) in *.
  assert (Hcl : forallb calm cleaned = true).
  { apply forallb_filter_keep. now apply forallb_trim_with. }
  rewrite (break_at_none (is_char "#") cleaned) in Ef, Eq.
  2,3: revert Hcl; apply forallb_impl; intros c H0;
       exact (proj1 (proj2 (calm_facts _ H0))).
  cbn [fst] in Eq. rewrite (break_at_none (is_char "?") cleaned) in Eq.
  2: revert Hcl; apply forallb_impl; intros c H0;
     exact (proj2 (proj2 (calm_facts _ H0))).
  injection Ef as <-. injection Eq as <- <-.
  rewrite Eu. now cbn.
Qed.

Lemma pathname_calm (u : URLRecord) :
  wf_url u = true -> forallb calm (url_pathname u) = true.
Proof.
  intros H. apply wf_url_parts in H as (_ & _ & Hp & _ & _).
  destruct (prefix_serialize_chars _ _ _ Hp) as [Hc _].
  unfold prefix_serialize in Hc. now apply forallb_suffix in Hc.
Qed.

Lemma tuple_origin_calm (v : URLRecord) :
  wf_url v = true -> has_tuple_origin (scheme v) = true ->
  forallb calm (tuple_origin v) = true.
Proof.
  intros H Ht. pose proof (bare_serialize v H Ht) as E.
  unfold url_origin in E. rewrite Ht in E.
  apply (forallb_prefix calm _ (url_pathname v)). rewrite E.
  destruct (serialized_chars (bare v)
              (bare_wf v H (tuple_origin_special _ Ht))) as (Hc & _).
  rewrite url_serialize_eq. cbn [bare query fragment query_serialize
                                 fragment_serialize app].
  now rewrite app_nil_r.
Qed.

Lemma origin_calm (url : URLRecord) :
  wf_url url = true -> forallb calm (url_origin URL_new url) = true.
Proof.
  intros H. unfold url_origin.
  destruct (has_tuple_origin (scheme url)) eqn:Ht;
    [now apply tuple_origin_calm|].
  destruct (Str_eqb (scheme url) (str "blob")); [|reflexivity].
  unfold URL_new.
  destruct (url_parse (url_pathname url)) as [inner|] eqn:Ei; [|reflexivity].
  destruct (array_includes _ (scheme inner)) eqn:Es; [|reflexivity].
  apply array_includes_In in Es. cbn [map In] in Es.
  apply tuple_origin_calm.
  - apply (url_parse_wf _ _ Ei).
    destruct Es as [<-|[<-|[]]]; reflexivity.
  - destruct Es as [<-|[<-|[]]]; reflexivity.
Qed.

(** What [new URL(url.origin + url.pathname)] gives has neither query
    nor fragment. *)
Lemma rebuilt_base_bare (url u0 : URLRecord) :
  wf_url url = true ->
  url_parse (url_origin URL_new url ++ url_pathname url) = Some u0 ->
  query u0 = None /\ fragment u0 = None.
Proof.
  intros H. apply url_parse_calm. rewrite forallb_app.
  now rewrite origin_calm, pathname_calm.
Qed.

(** The URL that [cleanUrl] rebuilds is well formed. *)
Lemma rebuild_wf (url : URLRecord) (kept : Params) (cu : URLRecord) :
  wf_url url = true ->
  rebuild URL_new url kept = Normal cu -> wf_url cu = true.
Proof.
  intros Hu H. destruct (rebuild_spec _ _ _ H) as (u0 & f & Ep & -> & Hf).
  destruct (rebuilt_scheme _ _ Ep) as [Hnf _].
  destruct (rebuilt_base_bare _ _ Hu Ep) as [Hq0 Hf0].
  pose proof (url_parse_wf _ _ Ep Hnf) as Hw.
  apply with_query_fragment_wf; auto.
  - now apply rebuilt_query_wf.
  - destruct Hf as [->|Hf]; auto. now rewrite Hf0.
Qed.

(** The parameters of the rebuilt URL are the kept ones. *)
Lemma rebuilt_entries (url : URLRecord) (kept : Params) (cu : URLRecord) :
  wf_url url = true -> Forall pair_stable kept ->
  rebuild URL_new url kept = Normal cu ->
  URLSearchParams_new (url_search cu) = kept.
Proof.
  intros Hw Hk H. destruct (rebuild_spec _ _ _ H) as (u0 & f & Ep & -> & _).
  destruct (rebuilt_base_bare _ _ Hw Ep) as [Hq _].
  unfold url_search, with_query_fragment, rebuilt_query. cbn [query].
  destruct (form_serialize kept) as [|c r] eqn:E.
  - rewrite Hq. now rewrite (form_serialize_nil _ E).
  - cbn [URLSearchParams_new]. rewrite <- E.
    replace (is_char "?" "?") with true by reflexivity.
    now apply form_roundtrip.
Qed.

(** * URLs with an opaque origin *)

Lemma parse_path_nonempty (special isfile : bool) (s : Str) :
  exists x t, parse_path special isfile s = ListPath (x :: t).
Proof.
  unfold parse_path.
  destruct (path_segments isfile (split_on (path_sep special) s) [])
    as [|x t] eqn:E; [|eauto].
  exfalso. revert E. apply path_segments_nonempty. apply split_on_nonempty.
Qed.

Lemma path_start_nonempty (isfile : bool) (s : Str) :
  exists x t, path_start true isfile s = ListPath (x :: t).
Proof.
  unfold path_start. destruct s as [|c r]; [apply parse_path_nonempty|].
  destruct (path_sep true c); apply parse_path_nonempty.
Qed.

Lemma parse_file_path (s : Str) (p : Prefix) :
  parse_file s = Some p -> exists x t, p_path p = ListPath (x :: t).
Proof.
  assert (Hh : forall s, parse_file_host s = Some p ->
            exists x t, p_path p = ListPath (x :: t)).
  { intros s0. unfold parse_file_host.
    destruct (span _ s0) as [buffer rest].
    destruct (is_drive_letter buffer).
    - intros [= <-]. apply parse_path_nonempty.
    - destruct buffer as [|b bs].
      + intros [= <-]. apply path_start_nonempty.
      + destruct (host_parse _ _); [|discriminate].
        intros [= <-]. apply path_start_nonempty. }
  unfold parse_file. destruct s as [|c r].
  - intros [= <-]. apply parse_path_nonempty.
  - destruct (is_slash c).
    + destruct r as [|c' r'].
      * intros [= <-]. apply parse_path_nonempty.
      * destruct (is_slash c'); [apply Hh|].
        intros [= <-]. apply parse_path_nonempty.
    + intros [= <-]. apply parse_path_nonempty.
Qed.

(** Without a scheme there is no URL: a text that is empty or starts
    with a slash does not parse. *)
Lemma url_parse_slash_fails (r : Str) :
  match r with [] => True | c :: _ => is_char "/" c = true end ->
  url_parse r = None.
Proof.
  intros Hr. destruct r as [|c r0]; [reflexivity|].
  apply Ascii.eqb_eq in Hr. subst c.
  destruct (url_parse ("/"%char :: r0)) as [u|] eqn:E; [|reflexivity].
  change ("/"%char :: r0) with (str "/" ++ r0) in E.
  destruct (url_parse_front _ _ _ E) as (r' & rest & Hs);
    [discriminate|reflexivity|].
  discriminate Hs.
Qed.

Lemma list_path_starts (l : list Str) :
  match path_serialize (ListPath l) with
  | [] => True
  | c :: _ => is_char "/" c = true
  end.
Proof. destruct l as [|x t]; [exact I|reflexivity]. Qed.

(** The origin of a URL whose scheme has no tuple origin and whose path
    is a list of segments is opaque. *)
Lemma opaque_origin (url : URLRecord) (l : list Str) :
  has_tuple_origin (scheme url) = false ->
  path url = ListPath l ->
  url_origin URL_new url = str "null".
Proof.
  intros Ht Hp. unfold url_origin. rewrite Ht.
  destruct (Str_eqb (scheme url) (str "blob")); [|reflexivity].
  unfold URL_new, url_pathname. rewrite Hp.
  now rewrite (url_parse_slash_fails _ (list_path_starts l)).
Qed.

(** With the origin [null] and a path that is a list of segments, the
    text the source gives to [new URL] is no URL. *)
Lemma null_origin_fails (url : URLRecord) (l : list Str) :
  has_tuple_origin (scheme url) = false ->
  path url = ListPath l ->
  url_parse (url_origin URL_new url ++ url_pathname url) = None.
Proof.
  intros Ht Hp. rewrite (opaque_origin url l Ht Hp).
  unfold url_pathname. rewrite Hp.
  apply url_parse_null_fails. apply list_path_starts.
Qed.

Lemma file_origin_fails (input : Str) (url : URLRecord) :
  url_parse input = Some url ->
  Str_eqb (scheme url) (str "file") = true ->
  url_parse (url_origin URL_new url ++ url_pathname url) = None.
Proof.
  intros H Hf.
  destruct (url_parse_steps _ _ H)
    as (bq & qry & frag & rest & p & _ & _ & _ & Ea & Eu).
  unfold parse_after_scheme in Ea. rewrite Hf in Ea.
  destruct (parse_file_path _ _ Ea) as (x & t & Ep).
  apply Str_eqb_eq in Hf.
  apply (null_origin_fails url (x :: t)).
  - now rewrite Hf.
  - rewrite Eu. exact Ep.
Qed.

(** A URL on which [cleanUrl] succeeds is well formed. *)
Lemma rebuilt_source_wf (input : Str) (url u0 : URLRecord) :
  url_parse input = Some url ->
  url_parse (url_origin URL_new url ++ url_pathname url) = Some u0 ->
  wf_url url = true.
Proof.
  intros H Hr. apply (url_parse_wf _ _ H).
  destruct (Str_eqb (scheme url) (str "file")) eqn:Hf; [|reflexivity].
  rewrite (file_origin_fails _ _ H Hf) in Hr. discriminate.
Qed.

(* ====================================================================== *)
(** * [cleanUrl] with the parser of the standard *)
(* ====================================================================== *)

Lemma URL_new_spec (s : Str) (u : URLRecord) :
  URL_new s = Normal u <-> url_parse s = Some u.
Proof.
  unfold URL_new. destruct (url_parse s); split; congruence.
Qed.

Lemma isValidUrl_parse (s : Str) :
  isValidUrl URL_new s
  = Normal match url_parse s with Some _ => true | None => false end.
Proof.
  rewrite isValidUrl_spec. unfold URL_new. now destruct (url_parse s).
Qed.

(** The URL object rebuilt for a URL whose scheme has a tuple origin. *)
Lemma rebuild_web (url : URLRecord) :
  wf_url url = true -> has_tuple_origin (scheme url) = true ->
  rebuild URL_new url (filter kept_entry (entries url))
  = Normal (with_query_fragment (bare url) (kept_query url)
                                (rebuilt_fragment url)).
Proof.
  intros Hw Ht. rewrite rebuild_eq. unfold URL_new at 1.
  rewrite (origin_path_parses url Hw Ht).
  unfold rebuilt_query, kept_query. cbn [bare query fragment].
  now destruct (rebuilt_fragment url).
Qed.

(** What a successful call computed, and what is known of it. *)
Lemma cleanUrl_success_facts (v : JsValue) (r : CleanUrlResult) :
  cleanUrl URL_new v = Normal r -> success r = true ->
  exists s url cu,
    v = JsString s /\ s <> []
    /\ url_parse (trim s) = Some url /\ wf_url url = true
    /\ rebuild URL_new url (filter kept_entry (entries url)) = Normal cu
    /\ r = cleaned s url cu
    /\ wf_url cu = true
    /\ url_parse (url_serialize cu) = Some cu
    /\ trim (url_serialize cu) = url_serialize cu
    /\ entries cu = filter kept_entry (entries url)
    /\ (has_tuple_origin (scheme url) = true -> scheme cu = scheme url).
Proof.
  intros H Hs.
  destruct (cleanUrl_success _ _ _ H Hs)
    as (s & url & cu & -> & Hne & Hp & Hr & Er).
  apply URL_new_spec in Hp.
  destruct (rebuild_spec _ _ _ Hr) as (u0 & f & Ep & Ecu & _).
  pose proof (rebuilt_source_wf _ _ _ Hp Ep) as Hw.
  pose proof (rebuild_wf _ _ _ Hw Hr) as Hwc.
  exists s, url, cu. repeat split; auto.
  - now apply url_parse_serialize.
  - now apply trim_serialized.
  - apply (rebuilt_entries url); auto.
    apply Forall_filter. apply URLSearchParams_stable.
  - intros Ht. rewrite Ecu. cbn [with_query_fragment scheme].
    now apply (rebuilt_scheme _ _ Ep).
Qed.




(** A URL with credentials has a host, and its path is a list. *)
Lemma credentials_list_path (u : URLRecord) :
  wf_url u = true -> includes_credentials u = true ->
  exists l, path u = ListPath l.
Proof.
  intros Hw Hc. apply wf_url_parts in Hw as (_ & _ & Hp & _ & _).
  destruct (host u) as [h|] eqn:Eh.
  - destruct (wf_prefix_host _ _ (url_prefix u) h Hp Eh)
      as (_ & _ & _ & l & Hl & _).
    exists l. exact Hl.
  - unfold wf_prefix, url_prefix in Hp.
    cbn [p_username p_password p_host p_port p_path] in Hp.
    rewrite Eh in Hp. unfold wf_authority in Hp.
    unfold includes_credentials in Hc. unfold has_credentials in Hp.
    rewrite Hc in Hp. cbn [negb] in Hp.
    now rewrite !andb_false_r in Hp.
Qed.

(* ====================================================================== *)
(** * The results of [cleanUrl] *)
(* ====================================================================== *)

(** C6.  [cleanUrl] never throws.  On a value that is not a non-empty
    string (undefined, null, a boolean, a number, the empty string, an
    array, an object) the result has [success] false, the error
    [Invalid URL: URL must be a non-empty string] and no cleaned URL.
    On a non-empty string that, trimmed, [isValidUrl] refuses, the result
    has [success] false, the error
    [Invalid URL: Not a properly formatted URL] and no cleaned URL.
    Every result with [success] false has no cleaned URL and has an
    error; every result with [success] true has a cleaned URL that
    [new URL] accepts, and that is the serialization of the very URL it
    parses to. *)
Theorem C6_never_throws (v : JsValue) :
  exists r,
    cleanUrl URL_new v = Normal r
    /\ (match v with JsString (_ :: _) => False | _ => True end ->
        success r = false
        /\ error r = Some (str "Invalid URL: URL must be a non-empty string")
        /\ cleanedUrl r = None)
    /\ (forall s, v = JsString s -> s <> [] ->
        isValidUrl URL_new (trim s) = Normal false ->
        success r = false
        /\ error r = Some (str "Invalid URL: Not a properly formatted URL")
        /\ cleanedUrl r = None)
    /\ (success r = false -> cleanedUrl r = None /\ error r <> None)
    /\ (success r = true ->
        exists cu,
          cleanedUrl r = Some (url_toString cu)
          /\ URL_new (url_toString cu) = Normal cu
          /\ isValidUrl URL_new (url_toString cu) = Normal true).
Proof.
  destruct (cleanUrl_total URL_new v) as [r H]. exists r.
  split; [exact H|]. split; [|split; [|split]].
  - intros Hv. rewrite cleanUrl_not_string in H by exact Hv.
    injection H as <-. repeat split.
  - intros s -> Hne Hval.
    rewrite cleanUrl_string in H by exact Hne.
    rewrite isValidUrl_spec in Hval.
    destruct (URL_new (trim s)) as [url|e]; [discriminate Hval|].
    injection H as <-. repeat split.
  - intros Hs. destruct (cleanUrl_failure _ _ _ H Hs) as [m ->].
    split; [reflexivity|discriminate].
  - intros Hs.
    destruct (cleanUrl_success_facts _ _ H Hs)
      as (s & url & cu & _ & _ & _ & _ & _ & -> & _ & Hp & _).
    exists cu. split; [reflexivity|]. unfold url_toString.
    split; [now apply URL_new_spec|].
    rewrite isValidUrl_parse. now rewrite Hp.
Qed.

(** C10.  When [cleanUrl] succeeds on a string whose URL has a user name
    or a password, the scheme has a tuple origin, and [cleanedUrl] is
    the serialization of a URL with the same scheme, host, port and path
    and with neither user name nor password.  [removedParams] holds the
    tracking parameters and nothing else, and [hasChanges] says whether
    there is one: with none, [removedParams] is empty, [removedCount] is
    0 and [hasChanges] is false, although the credentials are gone. *)
Theorem C10_credentials_dropped (s : Str) (url : URLRecord)
        (r : CleanUrlResult) :
  cleanUrl URL_new (JsString s) = Normal r -> success r = true ->
  URL_new (trim s) = Normal url ->
  includes_credentials url = true ->
  exists cu,
    cleanedUrl r = Some (url_toString cu)
    /\ URL_new (url_toString cu) = Normal cu
    /\ username cu = [] /\ password cu = []
    /\ includes_credentials cu = false
    /\ scheme cu = scheme url /\ host cu = host url
    /\ port cu = port url /\ path cu = path url
    /\ removedParams r = map to_removed (filter tracking_entry (entries url))
    /\ hasChanges r = Some (existsb tracking_entry (entries url))
    /\ (filter tracking_entry (entries url) = [] ->
        removedParams r = [] /\ removedCount r = 0
        /\ hasChanges r = Some false).
Proof.
  intros H Hs Hp Hc.
  destruct (cleanUrl_success_facts _ _ H Hs)
    as (s' & url' & cu & E & Hne & Hp' & Hw & Hr & -> & Hwc & Hrt & _).
  injection E as <-. apply URL_new_spec in Hp.
  rewrite Hp in Hp'. injection Hp' as <-.
  destruct (credentials_list_path url Hw Hc) as [l Hl].
  destruct (has_tuple_origin (scheme url)) eqn:Ht.
  2:{ rewrite (rebuild_fails _ _ (null_origin_fails url l Ht Hl)) in Hr.
      discriminate Hr. }
  rewrite (rebuild_web url Hw Ht) in Hr. injection Hr as <-.
  eexists. split; [reflexivity|]. split.
  { apply URL_new_spec. exact Hrt. }
  cbn [cleaned with_query_fragment bare username password scheme host port
       path removedParams removedCount hasChanges].
  do 8 (split; [reflexivity|]). split.
  - rewrite length_map. now rewrite filter_length_existsb.
  - intros ->. repeat split.
Qed.



End Standard.

(* ====================================================================== *)
(** * The laws hold of the run time of the examples *)
(* ====================================================================== *)

Lemma lower_char_ascii (c : ascii) :
  is_ascii_byte c = true -> is_ascii_byte (lower_char c) = true.
Proof. destruct c as [[] [] [] [] [] [] [] []]; vm_compute; auto. Qed.

Lemma lower_char_dot (c : ascii) : is_dot (lower_char c) = is_dot c.
Proof. destruct c as [[] [] [] [] [] [] [] []]; reflexivity. Qed.

Lemma split_on_lowercase (s : Str) :
  split_on is_dot (ascii_lowercase s)
  = map ascii_lowercase (split_on is_dot s).
Proof.
  induction s as [|c s IH]; [reflexivity|].
  cbn [ascii_lowercase map split_on]. fold (ascii_lowercase s).
  rewrite lower_char_dot, IH.
  destruct (is_dot c); [reflexivity|].
  now destruct (split_on is_dot s).
Qed.

Lemma is_punycode_label_lowercase (label : Str) :
  is_punycode_label (ascii_lowercase label) = is_punycode_label label.
Proof. unfold is_punycode_label. now rewrite ascii_lowercase_idem. Qed.

Lemma existsb_punycode_lowercase (l : list Str) :
  existsb is_punycode_label (map ascii_lowercase l)
  = existsb is_punycode_label l.
Proof.
  induction l as [|x l IH]; [reflexivity|].
  cbn [map existsb]. now rewrite is_punycode_label_lowercase, IH.
Qed.

Lemma example_ToASCII_spec (x d : Str) :
  example_ToASCII x = Some d ->
  forallb is_ascii_byte x = true
  /\ existsb is_punycode_label (split_on is_dot x) = false
  /\ d = ascii_lowercase x.
Proof.
  unfold example_ToASCII.
  destruct (forallb is_ascii_byte x); [|discriminate].
  destruct (existsb _ _); [discriminate|].
  intros H. now injection H as <-.
Qed.

Lemma example_ToASCII_ascii (x d : Str) :
  example_ToASCII x = Some d -> forallb is_ascii_byte d = true.
Proof.
  intros H. destruct (example_ToASCII_spec _ _ H) as (Ha & _ & ->).
  unfold ascii_lowercase. rewrite forallb_map.
  revert Ha. apply forallb_impl, lower_char_ascii.
Qed.

Lemma example_ToASCII_stable (x d : Str) :
  example_ToASCII x = Some d -> example_ToASCII d = Some d.
Proof.
  intros H. pose proof (example_ToASCII_ascii _ _ H) as Hd.
  destruct (example_ToASCII_spec _ _ H) as (_ & Hp & ->).
  unfold example_ToASCII.
  rewrite Hd, split_on_lowercase, existsb_punycode_lowercase, Hp.
  cbn [negb andb]. now rewrite ascii_lowercase_idem.
Qed.

Lemma digit_label (item : Str) :
  forallb (fun x => negb (is_dot x) && (is_digit x || is_dot x)) item = true ->
  is_punycode_label item = false.
Proof.
  destruct item as [|c t]; [reflexivity|]. cbn [forallb]. intros H.
  apply andb_prop in H as [H _]. revert H.
  unfold is_punycode_label. cbn [ascii_lowercase map].
  destruct c as [[] [] [] [] [] [] [] []]; vm_compute; intros H;
    try discriminate H; now destruct (map lower_char t).
Qed.

Lemma example_ToASCII_ipv4 (n : N) :
  (n < 4294967296)%N ->
  example_ToASCII (ipv4_serialize n) = Some (ipv4_serialize n).
Proof.
  intros Hn. destruct (ipv4_serialize_digits n Hn) as [D _].
  assert (F : forall q,
             (forall c, is_digit c || is_dot c = true -> q c = true) ->
             forallb q (ipv4_serialize n) = true).
  { intros q Hq. revert D. now apply forallb_impl. }
  unfold example_ToASCII.
  rewrite (F is_ascii_byte); cycle 1.
  { intros c Hc. now destruct (digit_or_dot_facts _ Hc) as (_ & -> & _). }
  assert (Hp : existsb is_punycode_label (split_on is_dot (ipv4_serialize n))
               = false).
  { pose proof (split_on_items is_dot _ _ D) as Hi.
    induction Hi as [|item l Hitem _ IH]; [reflexivity|].
    cbn [existsb]. now rewrite (digit_label _ Hitem), IH. }
  rewrite Hp. cbn [negb andb]. f_equal. apply ascii_lowercase_id.
  apply F. intros c Hc. revert Hc.
  destruct c as [[] [] [] [] [] [] [] []]; vm_compute; auto.
Qed.

Lemma example_ipv6_chars (x a : Str) :
  example_ipv6_parse x = Some a -> forallb ipv6_char a = true.
Proof. discriminate. Qed.

Lemma example_ipv6_stable (x a : Str) :
  example_ipv6_parse x = Some a -> example_ipv6_parse a = Some a.
Proof. discriminate. Qed.

(** [new URL] in the run time of the examples. *)
Abbreviation example_URL :=
  (URL_new example_ToASCII example_ipv6_parse example_message false false).

(* ====================================================================== *)
(** * Examples *)
(* ====================================================================== *)


(** The hypotheses of C2 hold of a URL with parameters of three
    categories. *)
Lemma C2_categories_partition_witness :
  exists a,
    analyzeUrl example_URL
      (JsString (str "https://example.com/?utm_source=a&fbclid=b&x=1&source=c"))
    = Normal a
    /\ success (result a) = true
    /\ Permutation (all_arrays (categories a)) (removedParams (result a))
    /\ n_utm (summary a) + n_social (summary a) + n_ads (summary a)
       + n_affiliate (summary a) + n_email (summary a)
       + n_analytics (summary a) = removedCount (result a).
Proof.
  eexists. split; [vm_compute; reflexivity|]. split; [reflexivity|].
  split.
  - refine (proj1 (proj2 (proj2 (C2_categories_partition example_URL
        (JsString (str "https://example.com/?utm_source=a&fbclid=b&x=1&source=c"))
        _ _ _)))); reflexivity.
  - refine (proj2 (proj2 (proj2 (proj2 (C2_categories_partition example_URL
        (JsString (str "https://example.com/?utm_source=a&fbclid=b&x=1&source=c"))
        _ _ _))))); reflexivity.
Defined.



(** The hypotheses of the second part of C6 hold of a text that is no
    URL. *)
Lemma C6_never_throws_witness :
  exists r,
    cleanUrl example_URL (JsString (str " not a url ")) = Normal r
    /\ success r = false
    /\ error r = Some (str "Invalid URL: Not a properly formatted URL")
    /\ cleanedUrl r = None.
Proof.
  destruct (C6_never_throws example_ToASCII example_ipv6_parse example_message
              false false
              example_ToASCII_ascii example_ToASCII_stable
              example_ToASCII_ipv4 example_ipv6_chars example_ipv6_stable
              (JsString (str " not a url ")))
    as (r & H & _ & Hv & _).
  exists r. split; [exact H|].
  apply (Hv (str " not a url ") eq_refl); [discriminate|].
  vm_compute. reflexivity.
Defined.

(** C7, as stated, fails on an array with a hole: [map] does not call
    [cleanUrl] there, so the result of [cleanUrls(new Array(2))] has two
    holes and not the two results of [cleanUrl(undefined)]. *)
Lemma C7_as_stated_fails :
  ~ batch_as_specified example_URL [None; None]
  /\ cleanUrls example_URL (JsArray [None; None]) = Normal [None; None].
Proof.
  split; [|reflexivity].
  intros (rs & E & _ & H).
  injection E as <-.
  destruct (H 0) as (r & Hr & _); [simpl; lia|].
  discriminate.
Qed.

(** The hypothesis of the first part of C7 holds of [null]. *)
Lemma C7_cleanUrls_batch_witness :
  (forall l, JsNull <> JsArray l)
  /\ cleanUrls example_URL JsNull
     = Throw (Error (str "Input must be an array of URLs")).
Proof.
  split; [discriminate|].
  apply (proj1 (C7_cleanUrls_batch example_URL)). discriminate.
Defined.



(** The hypotheses of C10 hold of a URL with a user name and a
    password. *)
Lemma C10_credentials_dropped_witness :
  exists cu,
    str "https://example.com:8080/a%20b?q=1#top" = url_toString cu
    /\ username cu = [] /\ password cu = []
    /\ example_URL (url_toString cu) = Normal cu.
Proof.
  destruct (example_URL
              (trim (str "https://user:pw@Example.com:8080/a b?utm_source=x&q=1#top")))
    as [url|e] eqn:Hp; [|vm_compute in Hp; discriminate Hp].
  destruct (C10_credentials_dropped
              example_ToASCII example_ipv6_parse example_message false false
              example_ToASCII_ascii example_ToASCII_stable
              example_ToASCII_ipv4 example_ipv6_chars example_ipv6_stable
              (str "https://user:pw@Example.com:8080/a b?utm_source=x&q=1#top")
              url
              (mkResult true None
                 (JsString
                    (str "https://user:pw@Example.com:8080/a b?utm_source=x&q=1#top"))
                 (Some (str "https://example.com:8080/a%20b?q=1#top"))
                 [mkRemoved (str "utm_source") (str "x")]
                 1 (Some true) (Some 19%Z)))
    as (cu & Hc & Hr & Hu & Hpw & _).
  - vm_compute. reflexivity.
  - reflexivity.
  - exact Hp.
  - vm_compute in Hp. injection Hp as <-. reflexivity.
  - exists cu. split; [now injection Hc|]. auto.
Defined.
